(** * Hackable Mini Layout Tool: the client-side interaction core

    A shallow embedding of the TypeScript sources under [src/interactions]
    (the positional store and history of [state.ts], the persistence bridge
    of [persistence.ts], the reconciler of [initialization.ts] and the
    gesture controllers [dragDrop.ts], [wheelTransform.ts], [fileDrop.ts],
    [undoRedo.ts]) and of the parsers under [src/parsers] (the parser table
    of [index.ts], [chordParser.ts] and the title of [htmlParser.ts]),
    followed by the properties of the specification that are checked
    against it and by further properties of the code.

    Conventions of the embedding.
    - A JavaScript object is a table of own properties.  A property of a
      record is one of: not an own property, an own property holding
      [undefined], an own property holding [null], or an own property
      holding a value.  The difference between the first two is visible to
      object spread and to [JSON.stringify], so it is kept.
    - Record objects live in a heap and are named by references: the store
      and every history snapshot map item identifiers to references, so
      that sharing between the live store and the history can be stated.
      The property tables of the store and of the snapshots themselves are
      finite maps; enumeration order of keys is not modelled.
    - [opacity] is an IEEE-754 double (a primitive float); [rotation] and
      [pageIndex], which the code only ever computes as integers, are
      integers; viewport coordinates and box sizes are integers (CSS
      pixels).
    - What the browser, the network or the user answer (hit testing,
      content fetching and parsing, the confirmation dialog, the clock) is
      an input of the handler that asks. *)

From Stdlib Require Import Floats ZArith QArith Ascii String Lqa.
From stdpp Require Import gmap strings list pretty.

Local Open Scope Z_scope.

(** ** JavaScript values *)

(** One own-property slot of an object. *)
Inductive property (A : Type) : Type :=
| Absent
| Undefined
| Null
| Value (v : A).
Arguments Absent {A}.
Arguments Undefined {A}.
Arguments Null {A}.
Arguments Value {A} v.

(** [p !== undefined] for a property read [o.p]. *)
Definition is_defined {A} (p : property A) : bool :=
  match p with
  | Absent | Undefined => false
  | Null | Value _ => true
  end.

(** [!s] is false exactly for a non-empty string. *)
Definition truthy_string (p : property string) : bool :=
  match p with
  | Value s => negb (String.eqb s "")
  | _ => false
  end.

(** [a || d] on a string property. *)
Definition string_or (p : property string) (d : string) : string :=
  match p with
  | Value s => if String.eqb s "" then d else s
  | _ => d
  end.

(** [a || d] on an integer property. *)
Definition Z_or (p : property Z) (d : Z) : Z :=
  match p with
  | Value z => if Z.eqb z 0 then d else z
  | _ => d
  end.

(** [a ?? d] on an integer property. *)
Definition Z_nullish_or (p : property Z) (d : Z) : Z :=
  match p with
  | Value z => z
  | _ => d
  end.

(** One property of an object spread [{...a, ...b}]: the later operand wins
    whenever it has the own property, whatever it holds. *)
Definition spread_property {A} (a b : property A) : property A :=
  match b with
  | Absent => a
  | _ => b
  end.

(** *** [JSON.parse(JSON.stringify(v))] on property values

    [JSON.stringify] leaves out a property holding [undefined], writes a
    number that is not finite as [null] and writes negative zero as [0];
    strings and integers come back as they were. *)
Definition json_string (p : property string) : property string :=
  match p with
  | Absent | Undefined => Absent
  | Null => Null
  | Value s => Value s
  end.

Definition json_int (p : property Z) : property Z :=
  match p with
  | Absent | Undefined => Absent
  | Null => Null
  | Value z => Value z
  end.

Definition json_number (p : property float) : property float :=
  match p with
  | Absent | Undefined => Absent
  | Null => Null
  | Value x =>
      if PrimFloat.is_finite x
      then Value (if PrimFloat.is_zero x then PrimFloat.zero else x)
      else Null
  end.

(** ** types.ts *)

(** [ItemPosition], together with the optional [id] of
    [SavedPositionData]: loaded records are stored as they arrive and may
    carry it. [Partial<ItemPosition>] is the same table of properties. *)
Record ItemPosition : Type := mkItemPosition {
  left : property string;
  top : property string;
  width : property string;
  height : property string;
  pageIndex : property Z;
  opacity : property float;
  scale : property string;
  rotation : property Z;
  parser : property string;
  filepath : property string;
  id : property string
}.

(** The object literal [{}]. *)
Definition empty_object : ItemPosition :=
  mkItemPosition Absent Absent Absent Absent Absent Absent Absent Absent
                 Absent Absent Absent.

Definition set_left (v : property string) (r : ItemPosition) : ItemPosition :=
  mkItemPosition v (top r) (width r) (height r) (pageIndex r) (opacity r)
                 (scale r) (rotation r) (parser r) (filepath r) (id r).
Definition set_top (v : property string) (r : ItemPosition) : ItemPosition :=
  mkItemPosition (left r) v (width r) (height r) (pageIndex r) (opacity r)
                 (scale r) (rotation r) (parser r) (filepath r) (id r).
Definition set_width (v : property string) (r : ItemPosition) : ItemPosition :=
  mkItemPosition (left r) (top r) v (height r) (pageIndex r) (opacity r)
                 (scale r) (rotation r) (parser r) (filepath r) (id r).
Definition set_height (v : property string) (r : ItemPosition) : ItemPosition :=
  mkItemPosition (left r) (top r) (width r) v (pageIndex r) (opacity r)
                 (scale r) (rotation r) (parser r) (filepath r) (id r).
Definition set_pageIndex (v : property Z) (r : ItemPosition) : ItemPosition :=
  mkItemPosition (left r) (top r) (width r) (height r) v (opacity r)
                 (scale r) (rotation r) (parser r) (filepath r) (id r).
Definition set_opacity (v : property float) (r : ItemPosition) : ItemPosition :=
  mkItemPosition (left r) (top r) (width r) (height r) (pageIndex r) v
                 (scale r) (rotation r) (parser r) (filepath r) (id r).
Definition set_scale (v : property string) (r : ItemPosition) : ItemPosition :=
  mkItemPosition (left r) (top r) (width r) (height r) (pageIndex r)
                 (opacity r) v (rotation r) (parser r) (filepath r) (id r).
Definition set_rotation (v : property Z) (r : ItemPosition) : ItemPosition :=
  mkItemPosition (left r) (top r) (width r) (height r) (pageIndex r)
                 (opacity r) (scale r) v (parser r) (filepath r) (id r).
Definition set_id (v : property string) (r : ItemPosition) : ItemPosition :=
  mkItemPosition (left r) (top r) (width r) (height r) (pageIndex r)
                 (opacity r) (scale r) (rotation r) (parser r) (filepath r) v.

(** [{ ...a, ...b }] *)
Definition spread (a b : ItemPosition) : ItemPosition :=
  mkItemPosition
    (spread_property (left a) (left b))
    (spread_property (top a) (top b))
    (spread_property (width a) (width b))
    (spread_property (height a) (height b))
    (spread_property (pageIndex a) (pageIndex b))
    (spread_property (opacity a) (opacity b))
    (spread_property (scale a) (scale b))
    (spread_property (rotation a) (rotation b))
    (spread_property (parser a) (parser b))
    (spread_property (filepath a) (filepath b))
    (spread_property (id a) (id b)).

(** [JSON.parse(JSON.stringify(r))] on one record. *)
Definition json_record (r : ItemPosition) : ItemPosition :=
  mkItemPosition
    (json_string (left r)) (json_string (top r))
    (json_string (width r)) (json_string (height r))
    (json_int (pageIndex r)) (json_number (opacity r))
    (json_string (scale r)) (json_int (rotation r))
    (json_string (parser r)) (json_string (filepath r))
    (json_string (id r)).

(** [x !== undefined && x >= 1.0]; [null >= 1.0] compares 0 with 1. *)
Definition opacity_is_default (p : property float) : bool :=
  match p with
  | Value x => PrimFloat.leb 1 x
  | _ => false
  end.

(** [x !== undefined && x === 0] *)
Definition rotation_is_default (p : property Z) : bool :=
  match p with
  | Value z => Z.eqb z 0
  | _ => false
  end.

(** [x !== undefined && x === '1'] *)
Definition scale_is_default (p : property string) : bool :=
  match p with
  | Value s => String.eqb s "1"
  | _ => false
  end.

(** ** The document

    Only what the interaction core reads and writes is kept: the page
    containers (elements of class [page-container], in document order,
    each with an id [page-<n>] as the base document gives them) and the
    item elements (class [draggable-item]).  An element is named by its
    position in [items]; a style property holds what was last assigned to
    it, and [style_opacity] holds the number its text denotes ([None] is
    the empty string).  Items and page containers are looked up apart: no
    item carries an id of the form [page-<n>]. *)
Record Page : Type := mkPage {
  page_num : nat;
  rect_left : Z;
  rect_top : Z;
  page_offsetWidth : Z;
  page_offsetHeight : Z
}.

Record Element : Type := mkElement {
  el_id : string;
  parentElement : option nat;
  dataset_filename : option string;
  dataset_parser : option string;
  style_position : string;
  style_left : string;
  style_top : string;
  style_width : string;
  style_height : string;
  style_opacity : option float;
  style_transform : string;
  offsetHeight : Z
}.

Record Document : Type := mkDocument {
  pageContainers : list Page;
  items : list Element
}.

Definition set_parentElement (p : option nat) (e : Element) : Element :=
  mkElement (el_id e) p (dataset_filename e) (dataset_parser e)
            (style_position e) (style_left e) (style_top e) (style_width e)
            (style_height e) (style_opacity e) (style_transform e)
            (offsetHeight e).
Definition set_style_position (v : string) (e : Element) : Element :=
  mkElement (el_id e) (parentElement e) (dataset_filename e)
            (dataset_parser e) v (style_left e) (style_top e)
            (style_width e) (style_height e) (style_opacity e)
            (style_transform e) (offsetHeight e).
Definition set_style_left (v : string) (e : Element) : Element :=
  mkElement (el_id e) (parentElement e) (dataset_filename e)
            (dataset_parser e) (style_position e) v (style_top e)
            (style_width e) (style_height e) (style_opacity e)
            (style_transform e) (offsetHeight e).
Definition set_style_top (v : string) (e : Element) : Element :=
  mkElement (el_id e) (parentElement e) (dataset_filename e)
            (dataset_parser e) (style_position e) (style_left e) v
            (style_width e) (style_height e) (style_opacity e)
            (style_transform e) (offsetHeight e).
Definition set_style_width (v : string) (e : Element) : Element :=
  mkElement (el_id e) (parentElement e) (dataset_filename e)
            (dataset_parser e) (style_position e) (style_left e)
            (style_top e) v (style_height e) (style_opacity e)
            (style_transform e) (offsetHeight e).
Definition set_style_height (v : string) (e : Element) : Element :=
  mkElement (el_id e) (parentElement e) (dataset_filename e)
            (dataset_parser e) (style_position e) (style_left e)
            (style_top e) (style_width e) v (style_opacity e)
            (style_transform e) (offsetHeight e).
Definition set_style_opacity (v : option float) (e : Element) : Element :=
  mkElement (el_id e) (parentElement e) (dataset_filename e)
            (dataset_parser e) (style_position e) (style_left e)
            (style_top e) (style_width e) (style_height e) v
            (style_transform e) (offsetHeight e).
Definition set_style_transform (v : string) (e : Element) : Element :=
  mkElement (el_id e) (parentElement e) (dataset_filename e)
            (dataset_parser e) (style_position e) (style_left e)
            (style_top e) (style_width e) (style_height e)
            (style_opacity e) v (offsetHeight e).

(** [document.createElement('div')] with the id, class, [draggable] flag
    and dataset that both creation sites give it; not yet in the
    document.  Its rendered height is the browser's. *)
Definition createItemElement (id_ filename parser_ : string) (h : Z) : Element :=
  mkElement id_ None (Some filename) (Some parser_) "" "" "" "" "" None "" h.

(** [document.getElementById(id)] for an item: the first element that is in
    the document and carries the id. *)
Definition getElementById (d : Document) (id_ : string) : option nat :=
  fst <$> list_find
    (λ e, is_Some (parentElement e) ∧ el_id e = id_) (items d).

(** [document.getElementById(`page-${n}`)]: no container is found for a
    number that is not the [n] of some [page-<n>]. *)
Definition getPageById (d : Document) (n : Z) : option nat :=
  fst <$> list_find (λ p, Z.of_nat (page_num p) = n) (pageContainers d).

(** [parseInt(page.id.split('-')[1] || '0', 10)] on a container. *)
Definition pageIndexOf (d : Document) (p : nat) : Z :=
  match pageContainers d !! p with
  | Some pg => Z.of_nat (page_num pg)
  | None => 0
  end.

Definition updateElement (i : nat) (f : Element → Element) (d : Document)
  : Document :=
  mkDocument (pageContainers d) (alter f i (items d)).

(** [page.appendChild(element)] *)
Definition appendChild (p i : nat) (d : Document) : Document :=
  updateElement i (set_parentElement (Some p)) d.

(** ** What the handlers leave behind *)

(** The calls whose order the specification constrains, in the order they
    are made: a push on the history stack (with the contents of the
    snapshot) and the requests sent to the server. *)
Inductive Effect : Type :=
| HistoryPush (snapshot : gmap string ItemPosition)
| SaveRequest (objects : list ItemPosition)
| DeleteFileRequest (path : string).

(** [console.warn] and [console.error] calls. *)
Inductive Message : Type :=
| WarnMissingFilepath (id_ : string)
| WarnElementNotFound (id_ : string)
| ErrorLoadItem (id_ : string)
| WarnTargetPageNotFound (id_ : string) (target : option Z)
| ErrorDefaultPageNotFound (id_ : string)
| ErrorNoPageContainers
| WarnItemWithoutId
| WarnNotEnoughPages (id_ : string)
| WarnLoadedItemWithoutIdentifier
| WarnNoFilenameInFilepath (path : string)
| ErrorLoadingPositions
| ErrorProcessingFile (filename : string)
| ErrorNoTargetPage
| WarnPositionDataMissing (id_ : string)
| ErrorUploadingFile (filename : string).

(** ** state.ts: the centralized state *)

Abbreviation loc := positive.

Record State : Type := mkState {
  heap : gmap loc ItemPosition;
  itemPositions : gmap string loc;
  positionHistory : list (gmap string loc);
  historyIndex : Z;
  dragOffsetX : Z;
  dragOffsetY : Z;
  draggedElement : option nat;
  selectedElementId : option string;
  document : Document;
  trace : list Effect;
  console : list Message
}.

Definition set_heap (v : gmap loc ItemPosition) (s : State) : State :=
  mkState v (itemPositions s) (positionHistory s) (historyIndex s)
          (dragOffsetX s) (dragOffsetY s) (draggedElement s)
          (selectedElementId s) (document s) (trace s) (console s).
Definition set_itemPositions (v : gmap string loc) (s : State) : State :=
  mkState (heap s) v (positionHistory s) (historyIndex s)
          (dragOffsetX s) (dragOffsetY s) (draggedElement s)
          (selectedElementId s) (document s) (trace s) (console s).
Definition set_positionHistory (v : list (gmap string loc)) (s : State)
  : State :=
  mkState (heap s) (itemPositions s) v (historyIndex s)
          (dragOffsetX s) (dragOffsetY s) (draggedElement s)
          (selectedElementId s) (document s) (trace s) (console s).
Definition set_historyIndex (v : Z) (s : State) : State :=
  mkState (heap s) (itemPositions s) (positionHistory s) v
          (dragOffsetX s) (dragOffsetY s) (draggedElement s)
          (selectedElementId s) (document s) (trace s) (console s).
Definition set_document (v : Document) (s : State) : State :=
  mkState (heap s) (itemPositions s) (positionHistory s) (historyIndex s)
          (dragOffsetX s) (dragOffsetY s) (draggedElement s)
          (selectedElementId s) v (trace s) (console s).
Definition emit (e : Effect) (s : State) : State :=
  mkState (heap s) (itemPositions s) (positionHistory s) (historyIndex s)
          (dragOffsetX s) (dragOffsetY s) (draggedElement s)
          (selectedElementId s) (document s) (trace s ++ [e]) (console s).
Definition log (m : Message) (s : State) : State :=
  mkState (heap s) (itemPositions s) (positionHistory s) (historyIndex s)
          (dragOffsetX s) (dragOffsetY s) (draggedElement s)
          (selectedElementId s) (document s) (trace s) (console s ++ [m]).

Definition setSelectedElementId (v : option string) (s : State) : State :=
  mkState (heap s) (itemPositions s) (positionHistory s) (historyIndex s)
          (dragOffsetX s) (dragOffsetY s) (draggedElement s) v
          (document s) (trace s) (console s).
Definition setDraggedElement (v : option nat) (s : State) : State :=
  mkState (heap s) (itemPositions s) (positionHistory s) (historyIndex s)
          (dragOffsetX s) (dragOffsetY s) v (selectedElementId s)
          (document s) (trace s) (console s).
Definition setDragOffset (x y : Z) (s : State) : State :=
  mkState (heap s) (itemPositions s) (positionHistory s) (historyIndex s)
          x y (draggedElement s) (selectedElementId s)
          (document s) (trace s) (console s).

(** The state when the module is loaded: an empty store, an empty history
    with [historyIndex = -1], nothing dragged or selected. *)
Definition initialState (d : Document) : State :=
  mkState ∅ ∅ [] (-1) 0 0 None None d [] [].

(** *** Objects *)

(** A new object: a reference that the heap does not hold yet. *)
Definition alloc (r : ItemPosition) (h : gmap loc ItemPosition)
  : loc * gmap loc ItemPosition :=
  let l := fresh (dom h) in (l, <[l := r]> h).

(** The contents of a table of references, read through the heap: what a
    deep comparison of two stores compares. *)
Definition contents (h : gmap loc ItemPosition) (t : gmap string loc)
  : gmap string ItemPosition :=
  omap (λ l, h !! l) t.

(** The live store as a value. *)
Definition store (s : State) : gmap string ItemPosition :=
  contents (heap s) (itemPositions s).

(** [getItemPosition(id)]: the reference held under [id], if any. *)
Definition getItemPosition (id_ : string) (s : State) : option loc :=
  itemPositions s !! id_.

(** The record behind [getItemPosition(id)]. *)
Definition get (id_ : string) (s : State) : option ItemPosition :=
  getItemPosition id_ s ≫= (λ l, heap s !! l).

(** [{ left: '0px', top: '0px' }] *)
Definition default_position : ItemPosition :=
  set_top (Value "0px") (set_left (Value "0px") empty_object).

(** [itemPositions[id] = { ... }]: a new object is stored under [id]. *)
Definition setItem (id_ : string) (r : ItemPosition) (s : State) : State :=
  let '(l, h) := alloc r (heap s) in
  set_itemPositions (<[id_ := l]> (itemPositions s)) (set_heap h s).

(** [delete itemPositions[id].p]: the object under [id] changes in place. *)
Definition modifyItem (id_ : string) (f : ItemPosition → ItemPosition)
    (s : State) : State :=
  match itemPositions s !! id_ with
  | Some l => set_heap (alter f l (heap s)) s
  | None => s
  end.

(** [updateItemPosition(id, positionData)]: a missing record is first
    created with the defaults; the merge is a new object; the two
    [delete]s act on that new object. *)
Definition updateItemPosition (id_ : string) (positionData : ItemPosition)
    (s : State) : State :=
  let s :=
    match itemPositions s !! id_ with
    | Some _ => s
    | None => setItem id_ default_position s
    end in
  let s := setItem id_ (spread (default empty_object (get id_ s))
                               positionData) s in
  let s :=
    if opacity_is_default (opacity (default empty_object (get id_ s)))
    then modifyItem id_ (set_opacity Absent) s else s in
  if rotation_is_default (rotation (default empty_object (get id_ s)))
  then modifyItem id_ (set_rotation Absent) s else s.

(** [deleteItemPosition(id)] *)
Definition deleteItemPosition (id_ : string) (s : State) : State :=
  set_itemPositions (delete id_ (itemPositions s)) s.

(** [clearItemPositions()] deletes every key of the store object. *)
Definition clearItemPositions (s : State) : State :=
  set_itemPositions ∅ s.

(** [getItemId(filename)]: every character outside [a-zA-Z0-9. ] becomes an
    underscore and [Date.now()] is appended. *)
Definition is_alnum (c : ascii) : bool :=
  let n := nat_of_ascii c in
  ((48 <=? n) && (n <=? 57) || (65 <=? n) && (n <=? 90)
   || (97 <=? n) && (n <=? 122))%nat.

Fixpoint map_string (f : ascii → ascii) (s : string) : string :=
  match s with
  | EmptyString => EmptyString
  | String c r => String (f c) (map_string f r)
  end.

Definition underscore : ascii := "_"%char.

Definition getItemId (filename : string) (now : Z) : string :=
  let sanitized :=
    map_string (λ c, if is_alnum c || Ascii.eqb c "." || Ascii.eqb c " "
                     then c else underscore) filename in
  sanitized +:+ "_" +:+ pretty now.

(** *** History management *)

(** [JSON.stringify(t)]: the text determines, and is determined by, the
    contents of the table after [json_record]. *)
Definition stringify (h : gmap loc ItemPosition) (t : gmap string loc)
  : gmap string ItemPosition :=
  json_record <$> contents h t.

(** [JSON.parse(text)]: a new object for every record of the text. *)
Definition parse_entries (es : list (string * ItemPosition))
    (h : gmap loc ItemPosition) : gmap string loc * gmap loc ItemPosition :=
  foldr (λ '(k, r) '(t, h1),
           let '(l, h2) := alloc r h1 in (<[k := l]> t, h2))
        (∅, h) es.

Definition parse (v : gmap string ItemPosition) (h : gmap loc ItemPosition)
  : gmap string loc * gmap loc ItemPosition :=
  parse_entries (map_to_list v) h.

(** [JSON.parse(JSON.stringify(t))] *)
Definition deepCopy (t : gmap string loc) (h : gmap loc ItemPosition)
  : gmap string loc * gmap loc ItemPosition :=
  parse (stringify h t) h.

(** [a.slice(0, e)] *)
Definition slice0 {A} (e : Z) (a : list A) : list A :=
  if e <? 0
  then take (Z.to_nat (Z.max 0 (Z.of_nat (length a) + e))) a
  else take (Z.to_nat e) a.

(** [a[i]]: [undefined] outside the array. *)
Definition index {A} (a : list A) (i : Z) : option A :=
  if i <? 0 then None else a !! Z.to_nat i.

Definition maxHistorySize : Z := 100.

(** [addStateToHistory()] *)
Definition addStateToHistory (s : State) : State :=
  let '(currentState, h) := deepCopy (itemPositions s) (heap s) in
  let sliced :=
    if historyIndex s <? Z.of_nat (length (positionHistory s)) - 1
    then slice0 (historyIndex s + 1) (positionHistory s)
    else positionHistory s in
  let pushed := sliced ++ [currentState] in
  let i := historyIndex s + 1 in
  let '(hist, i') :=
    if maxHistorySize <? Z.of_nat (length pushed)
    then (drop 1 pushed, i - 1)
    else (pushed, i) in
  emit (HistoryPush (contents h currentState))
       (set_historyIndex i' (set_positionHistory hist (set_heap h s))).

(** How a call that may throw ends. *)
Inductive Completion (A : Type) : Type :=
| Returned (v : A) (s : State)
| Thrown (s : State).
Arguments Returned {A} v s.
Arguments Thrown {A} s.

Definition final_state {A} (c : Completion A) : State :=
  match c with
  | Returned _ s => s
  | Thrown s => s
  end.

(** The body shared by [undoHistory] and [redoHistory] once the index has
    moved: deep-copy the snapshot under the index, clear the store and
    assign the copy's entries to it.  [JSON.stringify(undefined)] is
    [undefined], on which [JSON.parse] throws. *)
Definition restoreFromHistory (s : State)
  : Completion (option (gmap string loc)) :=
  match index (positionHistory s) (historyIndex s) with
  | None => Thrown s
  | Some snapshot =>
      let '(copy, h) := deepCopy snapshot (heap s) in
      let s1 := clearItemPositions (set_heap h s) in
      Returned (Some copy) (set_itemPositions (copy ∪ itemPositions s1) s1)
  end.

(** [undoHistory()] *)
Definition undoHistory (s : State) : Completion (option (gmap string loc)) :=
  if 0 <? historyIndex s
  then restoreFromHistory (set_historyIndex (historyIndex s - 1) s)
  else Returned None s.

(** [redoHistory()] *)
Definition redoHistory (s : State) : Completion (option (gmap string loc)) :=
  if historyIndex s <? Z.of_nat (length (positionHistory s)) - 1
  then restoreFromHistory (set_historyIndex (historyIndex s + 1) s)
  else Returned None s.

(** [initializeHistory(initialState)] *)
Definition initializeHistory (initialState : gmap string loc) (s : State)
  : State :=
  let '(copy, h) := deepCopy initialState (heap s) in
  set_historyIndex 0 (set_positionHistory [copy] (set_heap h s)).

(** The contents of the snapshot under the history index. *)
Definition currentSnapshot (s : State) : option (gmap string ItemPosition) :=
  contents (heap s) <$> index (positionHistory s) (historyIndex s).

(** ** initialization.ts: the reconciler *)

(** [`${n}px`] for an integer number. *)
Definition px (n : Z) : string := pretty n +:+ "px".

(** [`rotate(${rotation}deg) scale(${scale})`] *)
Definition transform_of (rotation_ : Z) (scale_ : string) : string :=
  "rotate(" +:+ pretty rotation_ +:+ "deg) scale(" +:+ scale_ +:+ ")".

(** The last piece of [path.split('/')]. *)
Fixpoint last_piece (seps : ascii → bool) (acc : string) (path : string)
  : string :=
  match path with
  | EmptyString => acc
  | String c r =>
      if seps c then last_piece seps "" r
      else last_piece seps (acc +:+ String c "") r
  end.

Definition is_slash (c : ascii) : bool := Ascii.eqb c "/".

(** [pos.pageIndex !== undefined ? pos.pageIndex : 0]; [None] stands for
    [null], for which the id looked up is [page-null]. *)
Definition targetPageIndexOf (p : property Z) : option Z :=
  match p with
  | Value z => Some z
  | Null => None
  | Absent | Undefined => Some 0
  end.

(** An assignment [element.style.p = v] of a record property: a string is
    stored; [null] clears the property; [undefined] is not a value of the
    property and leaves it as it was. *)
Definition assign_style (v : property string) (old : string) : string :=
  match v with
  | Value s => s
  | Null => ""
  | Absent | Undefined => old
  end.

(** The second half of the loop body of [applyPositions]: the element
    exists.  Find the target page, falling back to [page-0]; move the
    element there; set position, size, opacity and transform. *)
Definition placeElement (id_ : string) (e : nat) (pos : ItemPosition)
    (s : State) : State :=
  let targetPageIndex := targetPageIndexOf (pageIndex pos) in
  let found := targetPageIndex ≫= getPageById (document s) in
  let '(targetPage, s1) :=
    match found with
    | Some p => (Some p, s)
    | None =>
        let s1 := log (WarnTargetPageNotFound id_ targetPageIndex) s in
        match getPageById (document s) 0 with
        | Some p0 => (Some p0, s1)
        | None => (None, log (ErrorDefaultPageNotFound id_) s1)
        end
    end in
  match targetPage with
  | None => s1
  | Some p =>
      let restyle (el : Element) : Element :=
        set_style_transform
          (transform_of (Z_or (rotation pos) 0) (string_or (scale pos) "1"))
        (set_style_opacity
          (match opacity pos with
           | Value x => Some x
           | Null => style_opacity el
           | Absent | Undefined => None
           end)
        (set_style_height
          (if is_defined (height pos) then assign_style (height pos) "" else "")
        (set_style_width
          (if is_defined (width pos) then assign_style (width pos) "" else "")
        (set_style_position "absolute"
        (set_style_top (assign_style (top pos) (style_top el))
        (set_style_left (assign_style (left pos) (style_left el))
        (set_parentElement (Some p) el))))))) in
      set_document (updateElement e restyle (document s1)) s1
  end.

(** The loop body of [applyPositions] for one id.  [content filepath
    parser] is the outcome of fetching and parsing the source of a record
    that has no element: the rendered height of the new container, or
    [None] when the fetch or the parser fails. *)
Definition applyPosition (content : string → string → option Z)
    (id_ : string) (s : State) : State :=
  match get id_ s with
  | None => log (WarnPositionDataMissing id_) s
  | Some pos =>
      match getElementById (document s) id_ with
      | Some e => placeElement id_ e pos s
      | None =>
          if truthy_string (parser pos) && truthy_string (filepath pos)
          then
            let path := string_or (filepath pos) "" in
            let parser_ := string_or (parser pos) "" in
            match content path parser_ with
            | Some h =>
                let filename :=
                  let f := last_piece is_slash "" path in
                  if String.eqb f "" then id_ else f in
                let d := document s in
                let e := length (items d) in
                let d' :=
                  mkDocument (pageContainers d)
                    (items d ++ [createItemElement id_ filename parser_ h]) in
                placeElement id_ e pos (set_document d' s)
            | None => log (ErrorLoadItem id_) s
            end
          else log (WarnElementNotFound id_) s
      end
  end.

(** [applyPositions()]: every key of the store, as [Object.keys] lists
    them when the call starts. *)
Definition applyPositions (content : string → string → option Z)
    (s : State) : State :=
  foldl (λ st id_, applyPosition content id_ st) s
        (map_to_list (itemPositions s)).*1.

(** [String(n)] for the numbers of the default arrangement, which are
    integers or, after halving an odd width, integers plus one half. *)
Definition number_to_string (q : Q) : string :=
  let r := Qred q in
  match Qden r with
  | 1%positive => pretty (Qnum r)
  | _ =>
      (if Qnum r <? 0 then "-" else "")
        +:+ pretty (Z.abs (Qnum r) / 2) +:+ ".5"
  end.

Definition padding : Q := 20%Q.
Definition defaultItemHeight : Z := 100.
Definition itemSpacing : Q := 15%Q.

(** The variables that the loop of [initializeDefaultPositions] updates;
    [currentPageContainer] is always [pageContainers[currentPageIndex]]. *)
Record Cursor : Type := mkCursor {
  currentTop : Q;
  currentLeft : Q;
  currentPageIndex : nat
}.

(** Where the next unpositioned item of height [elementHeight] goes: stay,
    next column, next page, or (the flag) the second column of the last
    page when the pages are used up. *)
Definition advance (containerWidth containerHeight : Z) (npages : nat)
    (elementHeight : Z) (c : Cursor) : Cursor * bool :=
  let columnWidth := ((inject_Z containerWidth - 3 * padding) / 2)%Q in
  if Qle_bool (currentTop c + inject_Z elementHeight)%Q
              (inject_Z containerHeight - padding)%Q
  then (c, false)
  else
    let left' := (currentLeft c + (columnWidth + padding))%Q in
    if Qle_bool (left' + columnWidth)%Q (inject_Z containerWidth - padding)%Q
    then (mkCursor padding left' (currentPageIndex c), false)
    else
      let next := S (currentPageIndex c) in
      if (next <? npages)%nat
      then (mkCursor padding padding next, false)
      else (mkCursor padding (padding + columnWidth + padding)%Q
                     (npages - 1)%nat, true).

(** The body of [allItems.forEach] for the element at position [e]. *)
Definition arrangeItem (containerWidth containerHeight : Z) (e : nat)
    (acc : Cursor * State) : Cursor * State :=
  let '(c, s) := acc in
  match items (document s) !! e with
  | None => acc
  | Some element =>
      let elementId := el_id element in
      if String.eqb elementId ""
      then (c, log WarnItemWithoutId s)
      else
        match itemPositions s !! elementId with
        | None =>
            let s := set_document
                       (updateElement e (set_style_position "absolute")
                                      (document s)) s in
            let elementHeight :=
              if offsetHeight element =? 0 then defaultItemHeight
              else offsetHeight element in
            let '(c1, overflow) :=
              advance containerWidth containerHeight
                      (length (pageContainers (document s))) elementHeight c in
            let s := if overflow : bool
                     then log (WarnNotEnoughPages elementId) s else s in
            let finalLeft := number_to_string (currentLeft c1) +:+ "px" in
            let finalTop := number_to_string (currentTop c1) +:+ "px" in
            let s := set_document
                       (updateElement e
                          (λ el, set_style_top finalTop
                                   (set_style_left finalLeft
                                      (set_parentElement
                                         (Some (currentPageIndex c1)) el)))
                          (document s)) s in
            let s := updateItemPosition elementId
                       (set_pageIndex (Value (Z.of_nat (currentPageIndex c1)))
                          (set_top (Value finalTop)
                             (set_left (Value finalLeft) empty_object))) s in
            (mkCursor (currentTop c1 + inject_Z elementHeight + itemSpacing)%Q
                      (currentLeft c1) (currentPageIndex c1), s)
        | Some _ =>
            let pos := default empty_object (get elementId s) in
            match getPageById (document s) (Z_nullish_or (pageIndex pos) 0) with
            | Some targetPage =>
                (c, set_document (appendChild targetPage e (document s)) s)
            | None => acc
            end
        end
  end.

(** [initializeDefaultPositions()]: nothing happens, and the history is
    not touched, when the document has no page container; otherwise the
    items in the document are arranged in order and the history is
    initialized from the store. *)
Definition initializeDefaultPositions (s : State) : State :=
  let d := document s in
  match pageContainers d with
  | [] => log ErrorNoPageContainers s
  | first :: _ =>
      let allItems :=
        filter (λ e, is_Some (items d !! e ≫= parentElement))
               (seq 0 (length (items d))) in
      let '(_, s1) :=
        foldl (λ acc e,
                 arrangeItem (page_offsetWidth first) (page_offsetHeight first)
                             e acc)
              (mkCursor padding padding 0, s) allItems in
      initializeHistory (itemPositions s1) s1
  end.

(** ** utils.js *)

Definition is_dot (c : ascii) : bool := Ascii.eqb c ".".

(** Scanning a reversed string for its last dot: the characters after the
    dot (in order) and the reversed part before it. *)
Fixpoint split_last_dot (after : list ascii) (rev_s : list ascii)
  : option (list ascii * list ascii) :=
  match rev_s with
  | [] => None
  | c :: r =>
      if is_dot c then Some (after, r) else split_last_dot (c :: after) r
  end.

(** [s.replace(/\.[^/.]+$/, "")]: a final dot followed by at least one
    character, none of them a slash or a dot, is cut off with them. *)
Definition remove_extension (s : string) : string :=
  match split_last_dot [] (rev (list_ascii_of_string s)) with
  | Some (c :: after, rev_before) =>
      if forallb (λ a, negb (is_slash a)) (c :: after)
      then string_of_list_ascii (rev rev_before)
      else s
  | _ => s
  end.

Definition is_upper (c : ascii) : bool :=
  let n := nat_of_ascii c in ((65 <=? n) && (n <=? 90))%nat.

Definition toLowerCase (s : string) : string :=
  map_string (λ c, if is_upper c then ascii_of_nat (nat_of_ascii c + 32)
                   else c) s.

(** [sanitizeFilename(filename)] *)
Definition sanitizeFilename (filename : string) : string :=
  let keep c := if is_alnum c || Ascii.eqb c "-" then c else underscore in
  toLowerCase (map_string keep (map_string keep (remove_extension filename))).

(** ** persistence.ts *)

(** The callback of [Object.entries(itemPositions).map] in
    [savePositions]: [dataToSave] is a new object, the spread of the
    stored record, and the clean-up deletes and the fallback [id] act on
    it in place. *)
Definition dataToSaveOf (acc : list loc * State) (entry : string * loc)
  : list loc * State :=
  let '(out, s) := acc in
  let '(id_, l) := entry in
  let posData := default empty_object (heap s !! l) in
  let '(d, h) := alloc (spread empty_object posData) (heap s) in
  let s := set_heap h s in
  let s :=
    if opacity_is_default (opacity (default empty_object (heap s !! d)))
    then set_heap (alter (set_opacity Absent) d (heap s)) s else s in
  let s :=
    if rotation_is_default (rotation (default empty_object (heap s !! d)))
    then set_heap (alter (set_rotation Absent) d (heap s)) s else s in
  let s :=
    if scale_is_default (scale (default empty_object (heap s !! d)))
    then set_heap (alter (set_scale Absent) d (heap s)) s else s in
  let s :=
    if truthy_string (filepath (default empty_object (heap s !! d)))
    then s
    else set_heap (alter (set_id (Value id_)) d (heap s))
                  (log (WarnMissingFilepath id_) s) in
  (out ++ [d], s).

(** [savePositions()]: the request body is the JSON text of the array. *)
Definition savePositions (s : State) : State :=
  let '(positionsToSave, s1) :=
    foldl dataToSaveOf ([], s) (map_to_list (itemPositions s)) in
  emit (SaveRequest
          (omap (λ d, json_record <$> heap s1 !! d) positionsToSave)) s1.

(** [updateAndSavePositions()] *)
Definition updateAndSavePositions (s : State) : State :=
  savePositions (addStateToHistory s).

(** What [fetch('/load-positions')] and [response.json()] give: the fetch
    rejects, or a response arrives with a status and a body; the body is
    [None] when it is not JSON text for an object, and otherwise holds
    [settingsData.objects || []]. *)
Inductive LoadResult : Type :=
| NetworkError
| Response (status : Z) (body : option (list ItemPosition)).

Definition response_ok (status : Z) : bool :=
  (200 <=? status) && (status <=? 299).

Definition is_path_separator (c : ascii) : bool :=
  is_slash c || Ascii.eqb c "\".

(** The callback of [loadedPositionsArray.forEach]; [suffix] is
    [Math.random().toString(36).substring(7)] for this entry. *)
Definition loadItem (s : State) (entry : string * ItemPosition) : State :=
  let '(suffix, itemData) := entry in
  if negb (truthy_string (filepath itemData))
     && negb (truthy_string (id itemData))
  then log WarnLoadedItemWithoutIdentifier s
  else
    let '(itemId, s) :=
      if truthy_string (id itemData)
      then (string_or (id itemData) "", s)
      else
        let path := string_or (filepath itemData) "" in
        let filename := last_piece is_path_separator "" path in
        if String.eqb filename ""
        then ("unknown_" +:+ suffix, log (WarnNoFilenameInFilepath path) s)
        else (sanitizeFilename filename, s) in
    let '(l, h) := alloc itemData (heap s) in
    set_itemPositions (<[itemId := l]> (itemPositions s)) (set_heap h s).

(** [loadPositions()].  Everything that can fail (the fetch, a status
    that is not ok, the body) fails before [clearItemPositions()]; the
    [catch] block logs and arranges the defaults. *)
Definition loadPositions (content : string → string → option Z)
    (suffixes : nat → string) (r : LoadResult) (s : State) : State :=
  let catch := initializeDefaultPositions (log ErrorLoadingPositions s) in
  match r with
  | NetworkError => catch
  | Response status body =>
      if response_ok status
      then
        match body with
        | None => catch
        | Some loadedPositionsArray =>
            let s1 := clearItemPositions s in
            let s2 := foldl loadItem s1
                        (imap (λ i itemData, (suffixes i, itemData))
                              loadedPositionsArray) in
            let s3 := applyPositions content s2 in
            initializeHistory (itemPositions s3) s3
        end
      else if status =? 404
           then initializeDefaultPositions s
           else catch
  end.

(** ** wheelTransform.ts *)

(** [Math.min] and [Math.max] on doubles: [NaN] if an operand is [NaN];
    of the two zeros the negative one is the smaller. *)
Definition Math_min (a b : float) : float :=
  if PrimFloat.is_nan a || PrimFloat.is_nan b then PrimFloat.nan
  else if PrimFloat.ltb a b then a
  else if PrimFloat.ltb b a then b
  else if PrimFloat.is_zero a && negb (PrimFloat.get_sign a) then b else a.

Definition Math_max (a b : float) : float :=
  if PrimFloat.is_nan a || PrimFloat.is_nan b then PrimFloat.nan
  else if PrimFloat.ltb a b then b
  else if PrimFloat.ltb b a then a
  else if PrimFloat.is_zero a && PrimFloat.get_sign a then b else a.

(** [String(x)] and [parseFloat(s)], which the scale branch applies to the
    stored numeric string, are the host's. *)
Record Host : Type := mkHost {
  Number_toString : float → string;
  parseFloat : string → float
}.

Record WheelEvent : Type := mkWheelEvent {
  wheel_target : option nat;   (* event.target.closest('.draggable-item') *)
  deltaY : float;
  shiftKey : bool;
  ctrlKey : bool;
  altKey : bool
}.

#[warnings="-inexact-float"]
Definition opacityStep : float := 0.05%float.
#[warnings="-inexact-float"]
Definition scaleStep : float := 0.05%float.
#[warnings="-inexact-float"]
Definition minScale : float := 0.1%float.
Definition rotateStep : Z := 5.

(** The value written for a property read from a record that may be
    missing: [record?.p]. *)
Definition read_property {A} (p : property A) : property A :=
  match p with
  | Absent => Undefined
  | _ => p
  end.

(** The opacity branch, up to the clamp: the new [currentOpacity]. *)
Definition nextOpacity (style : option float) (deltaY_ : float) : float :=
  let currentOpacity := default 1%float style in
  let currentOpacity :=
    (currentOpacity
     + (if PrimFloat.ltb deltaY_ 0 then opacityStep else - opacityStep))%float in
  Math_max 0 (Math_min 1 currentOpacity).

(** [handleWheelTransform(event)] *)
Definition handleWheelTransform (host : Host) (ev : WheelEvent) (s : State)
  : State :=
  match wheel_target ev ≫= (λ e, (e,.) <$> items (document s) !! e) with
  | None => s
  | Some (e, targetItem) =>
      let itemId := el_id targetItem in
      if String.eqb itemId "" then log WarnItemWithoutId s
      else
        let pageIndex_ :=
          match parentElement targetItem with
          | Some p => pageIndexOf (document s) p
          | None => 0
          end in
        let s :=
          match getItemPosition itemId s with
          | Some _ => s
          | None =>
              updateItemPosition itemId
                (set_pageIndex (Value pageIndex_)
                   (set_top (Value (if String.eqb (style_top targetItem) ""
                                    then "0px" else style_top targetItem))
                      (set_left (Value (if String.eqb (style_left targetItem) ""
                                        then "0px" else style_left targetItem))
                         empty_object))) s
          end in
        let currentPosition := default empty_object (get itemId s) in
        let finish (updatedPositionData : ItemPosition) (s : State) : State :=
          updateAndSavePositions
            (updateItemPosition itemId
               (set_pageIndex (Value pageIndex_)
                  (set_top (Value (style_top targetItem))
                     (set_left (Value (style_left targetItem))
                        updatedPositionData))) s) in
        if shiftKey ev then
          let currentOpacity := nextOpacity (style_opacity targetItem) (deltaY ev) in
          let below := PrimFloat.ltb currentOpacity 1 in
          let s := set_document
                     (updateElement e
                        (set_style_opacity
                           (if below then Some currentOpacity else None))
                        (document s)) s in
          finish (set_opacity
                    (if below then Value currentOpacity else Undefined)
                    empty_object) s
        else if ctrlKey ev then
          let currentScale := parseFloat host (string_or (scale currentPosition) "1") in
          let currentScale :=
            (currentScale
             + (if PrimFloat.ltb (deltaY ev) 0 then scaleStep else - scaleStep))%float in
          let currentScale := Math_max minScale currentScale in
          let currentRotation := Z_or (rotation currentPosition) 0 in
          let newScaleStr := Number_toString host currentScale in
          let s := set_document
                     (updateElement e
                        (set_style_transform
                           (transform_of currentRotation newScaleStr))
                        (document s)) s in
          finish (set_scale
                    (if String.eqb newScaleStr "1" then Undefined
                     else Value newScaleStr)
                    empty_object) s
        else if altKey ev then
          let newRotation :=
            Z_or (rotation currentPosition) 0
            + (if PrimFloat.ltb (deltaY ev) 0 then rotateStep else - rotateStep) in
          let currentScale := string_or (scale currentPosition) "1" in
          let s := set_document
                     (updateElement e
                        (set_style_transform
                           (transform_of newRotation currentScale))
                        (document s)) s in
          finish (set_rotation
                    (if newRotation =? 0 then Undefined else Value newRotation)
                    empty_object) s
        else s
  end.

(** ** dragDrop.ts *)

(** A pointer event of a drag gesture.  [pointerPage] is the page container
    found by walking up from [document.elementFromPoint(clientX, clientY)];
    [computedLeft] and [computedTop] are the numbers that
    [getComputedStyle] gives for the target when a drag starts. *)
Record DragEvent : Type := mkDragEvent {
  clientX : Z;
  clientY : Z;
  drag_target : option nat;    (* event.target.closest('.draggable-item') *)
  pointerPage : option nat;
  computedLeft : Z;
  computedTop : Z
}.

Definition rectLeftOf (d : Document) (p : nat) : Z :=
  default 0 (rect_left <$> pageContainers d !! p).
Definition rectTopOf (d : Document) (p : nat) : Z :=
  default 0 (rect_top <$> pageContainers d !! p).

(** [element.closest('.page-container')] for an item. *)
Definition closestPage (d : Document) (e : nat) : option nat :=
  items d !! e ≫= parentElement.

(** [handleClick(event)]: selection only touches the selected id (and a
    CSS class, which is not modelled). *)
Definition handleClick (target : option nat) (s : State) : State :=
  match target ≫= (λ e, items (document s) !! e) with
  | Some draggableItem => setSelectedElementId (Some (el_id draggableItem)) s
  | None =>
      match selectedElementId s with
      | Some _ => setSelectedElementId None s
      | None => s
      end
  end.

(** [handleDragStart(event)] *)
Definition handleDragStart (ev : DragEvent) (s : State) : State :=
  match drag_target ev with
  | None => s
  | Some e =>
      let s := setDraggedElement (Some e) s in
      match closestPage (document s) e with
      | None => s
      | Some pageContainer =>
          let elementViewportX :=
            rectLeftOf (document s) pageContainer + computedLeft ev in
          let elementViewportY :=
            rectTopOf (document s) pageContainer + computedTop ev in
          setDragOffset (clientX ev - elementViewportX)
                        (clientY ev - elementViewportY) s
      end
  end.

(** [handleDragOver(event)]: the element follows the pointer; the store
    is not touched. *)
Definition handleDragOver (ev : DragEvent) (s : State) : State :=
  match draggedElement s with
  | None => s
  | Some e =>
      match (match pointerPage ev with
             | Some p => Some p
             | None => closestPage (document s) e
             end) with
      | None => s
      | Some pageContainer =>
          let newLeft :=
            clientX ev - rectLeftOf (document s) pageContainer - dragOffsetX s in
          let newTop :=
            clientY ev - rectTopOf (document s) pageContainer - dragOffsetY s in
          set_document
            (updateElement e
               (λ el, set_parentElement (Some pageContainer)
                        (set_style_top (px newTop)
                           (set_style_left (px newLeft) el)))
               (document s)) s
      end
  end.

(** [handleDrop(event)] *)
Definition handleDrop (ev : DragEvent) (s : State) : State :=
  match draggedElement s with
  | None => s
  | Some e =>
      match (match pointerPage ev with
             | Some p => Some p
             | None => closestPage (document s) e
             end) with
      | None => s
      | Some pageContainer =>
          let finalLeft :=
            clientX ev - rectLeftOf (document s) pageContainer - dragOffsetX s in
          let finalTop :=
            clientY ev - rectTopOf (document s) pageContainer - dragOffsetY s in
          let finalLeftPx := px finalLeft in
          let finalTopPx := px finalTop in
          let s := set_document
                     (updateElement e
                        (λ el, set_style_top finalTopPx
                                 (set_style_left finalLeftPx
                                    (set_parentElement (Some pageContainer) el)))
                        (document s)) s in
          let pageIndex_ := pageIndexOf (document s) pageContainer in
          let itemId := default "" (el_id <$> items (document s) !! e) in
          let existingPosition := get itemId s in
          let existing {A} (f : ItemPosition → property A) : property A :=
            match existingPosition with
            | Some r => read_property (f r)
            | None => Undefined
            end in
          updateAndSavePositions
            (updateItemPosition itemId
               (set_rotation (existing rotation)
                  (set_opacity (existing opacity)
                     (set_width (existing width)
                        (set_pageIndex (Value pageIndex_)
                           (set_top (Value finalTopPx)
                              (set_left (Value finalLeftPx) empty_object))))))
               s)
      end
  end.

(** [handleDragEnd(event)] *)
Definition handleDragEnd (s : State) : State :=
  match draggedElement s with
  | Some _ => setDraggedElement None s
  | None => s
  end.

(** A key press; [confirmed] is the answer to the [confirm] dialog that a
    deletion opens. *)
Record KeyboardEvent : Type := mkKeyboardEvent {
  key : string;
  key_ctrlKey : bool;
  confirmed : bool
}.

(** [handleKeyDown(event)]: deletion of the selected item. *)
Definition handleKeyDown (ev : KeyboardEvent) (s : State) : State :=
  match selectedElementId s with
  | Some selected =>
      if negb (String.eqb selected "")
         && (String.eqb (key ev) "Delete" || String.eqb (key ev) "Backspace")
      then
        match getElementById (document s) selected with
        | None => s
        | Some elementToRemove =>
            let itemFilepath :=
              match get selected s with
              | Some r => read_property (filepath r)
              | None => Undefined
              end in
            let removeFromFileSystem := confirmed ev in
            let s := set_document
                       (updateElement elementToRemove (set_parentElement None)
                                      (document s)) s in
            let s := deleteItemPosition selected s in
            let s := savePositions s in
            let s :=
              if removeFromFileSystem && truthy_string itemFilepath
              then emit (DeleteFileRequest (string_or itemFilepath "")) s
              else s in
            setSelectedElementId None s
        end
      else s
  | None => s
  end.

(** ** undoRedo.ts *)

(** [handleUndoRedoKeys(event)]: after a restoration the positions are
    applied and saved; an exception of the restoration leaves the handler.
    [applyPositions] does not write the store, so that it runs
    asynchronously does not change what is saved. *)
Definition handleUndoRedoKeys (content : string → string → option Z)
    (ev : KeyboardEvent) (s : State) : State :=
  let after (c : Completion (option (gmap string loc))) : State :=
    match c with
    | Returned (Some _) s' => savePositions (applyPositions content s')
    | Returned None s' => s'
    | Thrown s' => s'
    end in
  if key_ctrlKey ev && String.eqb (key ev) "z" then after (undoHistory s)
  else if key_ctrlKey ev && String.eqb (key ev) "y" then after (redoHistory s)
  else s.

(** ** fileDrop.ts *)

(** What [parseContent] returned for a dropped file, and the rendered
    height of the container built around it. *)
Record ParsedItemData : Type := mkParsedItemData {
  parserName : string;
  parsed_width : option Z;
  parsed_height : option Z;
  rendered_height : Z
}.

(** One dropped file after its upload: its name, the path the server
    answered, the outcome of fetching and parsing it ([None]: one of them
    failed) and the clock when its id is made. *)
Record DroppedFile : Type := mkDroppedFile {
  file_name : string;
  uploaded_path : option string;
  parsed : option ParsedItemData;
  now : Z
}.

(** [addNewItemToPage(filename, filePath, dropX, dropY)]; [hit] is the
    page container found by walking up from
    [document.elementFromPoint(dropX, dropY)]. *)
Definition addNewItemToPage (filename filePath : string) (dropX dropY : Z)
    (hit : option nat) (parsedData : option ParsedItemData) (now_ : Z)
    (s : State) : State :=
  match parsedData with
  | None => log (ErrorProcessingFile filename) s
  | Some parsedData =>
      let newItemId := getItemId filename now_ in
      let newItemContainer :=
        createItemElement newItemId filename (parserName parsedData)
                          (rendered_height parsedData) in
      let targetPage :=
        match hit with
        | Some p => Some p
        | None => getPageById (document s) 0
        end in
      match targetPage with
      | None => log ErrorNoTargetPage s
      | Some targetPage =>
          let initialLeft := dropX - rectLeftOf (document s) targetPage in
          let initialTop := dropY - rectTopOf (document s) targetPage in
          let pageIndex_ := pageIndexOf (document s) targetPage in
          let d := document s in
          let s := set_document
                     (mkDocument (pageContainers d)
                        (items d ++
                           [set_parentElement (Some targetPage)
                              (set_style_top (px initialTop)
                                 (set_style_left (px initialLeft)
                                    (set_style_position "absolute"
                                       newItemContainer)))])) s in
          let positionData :=
            mkItemPosition (Value (px initialLeft)) (Value (px initialTop))
                           Absent Absent (Value pageIndex_) (Value 1%float)
                           (Value "1") (Value 0)
                           (Value (parserName parsedData)) (Value filePath)
                           Absent in
          let positionData :=
            match parsed_width parsedData, parsed_height parsedData with
            | Some w, Some h =>
                set_height (Value (px h)) (set_width (Value (px w)) positionData)
            | _, _ => positionData
            end in
          updateAndSavePositions (updateItemPosition newItemId positionData s)
      end
  end.

(** [handleFileDrop(event)]: ignored while an element drag is active;
    otherwise every file whose upload succeeded is added at the drop
    point. *)
Definition handleFileDrop (files : list DroppedFile) (dropX dropY : Z)
    (hit : option nat) (s : State) : State :=
  match draggedElement s with
  | Some _ => s
  | None =>
      foldl (λ st f,
               match uploaded_path f with
               | Some path =>
                   addNewItemToPage (file_name f) path dropX dropY hit
                                    (parsed f) (now f) st
               | None => log (ErrorUploadingFile (file_name f)) st
               end) s files
  end.

(** ** Strings

    A string is a sequence of UTF-16 code units; those of the model are
    the code units below 256.  The functions below are the [String]
    methods that the parsers use, for a separator of one character. *)

Definition is_newline (c : ascii) : bool := Ascii.eqb c "010".
Definition is_blank (c : ascii) : bool := Ascii.eqb c " ".

(** [s.split(c)]: the pieces between the separators, at least one. *)
Fixpoint split_on (sep : ascii → bool) (acc : string) (s : string)
  : list string :=
  match s with
  | EmptyString => [acc]
  | String c r =>
      if sep c then acc :: split_on sep "" r
      else split_on sep (acc +:+ String c "") r
  end.

(** White space and line terminators, which [trim] removes: tab, line
    feed, vertical tab, form feed, carriage return, space and the
    no-break space. *)
Definition is_white_space (c : ascii) : bool :=
  let n := nat_of_ascii c in
  ((9 <=? n) && (n <=? 13) || (n =? 32) || (n =? 160))%nat.

Fixpoint trimStart (s : string) : string :=
  match s with
  | EmptyString => EmptyString
  | String c r => if is_white_space c then trimStart r else s
  end.

(** [s.trim()] *)
Definition trim (s : string) : string :=
  String.rev (trimStart (String.rev (trimStart s))).

(** [s.startsWith(p)] and [s.endsWith(p)] *)
Definition startsWith (s p : string) : bool := String.prefix p s.
Definition endsWith (s p : string) : bool :=
  String.prefix (String.rev p) (String.rev s).

(** [s.replace(pat, rep)] for a string pattern: the first occurrence. *)
Fixpoint replaceFirst (pat rep : string) (s : string) : string :=
  match s with
  | EmptyString => if String.eqb pat "" then rep else EmptyString
  | String c r =>
      if String.prefix pat s
      then rep +:+ substring (String.length pat)
                             (String.length s - String.length pat) s
      else String c (replaceFirst pat rep r)
  end.

(** [s.replace(/pat/g, rep)] for a pattern that is a fixed, non-empty
    text: every occurrence, from left to right, without overlap.  [skip]
    counts the characters of a match that are still to be passed over. *)
Fixpoint replaceAll_from (skip : nat) (pat rep : string) (s : string)
  : string :=
  match s with
  | EmptyString => EmptyString
  | String c r =>
      match skip with
      | S k => replaceAll_from k pat rep r
      | O =>
          if String.prefix pat s
          then rep +:+ replaceAll_from (String.length pat - 1) pat rep r
          else String c (replaceAll_from 0 pat rep r)
      end
  end.

Definition replaceAll (pat rep s : string) : string :=
  replaceAll_from 0 pat rep s.

(** ** parsers/index.ts *)

(** The four parsers of the [parsers] table. *)
Inductive Parser : Type := htmlParser | svgParser | imageParser | chordParser.

(** [parser.name] *)
Definition parser_name (p : Parser) : string :=
  match p with
  | htmlParser => "html"
  | svgParser => "svg"
  | imageParser => "image"
  | chordParser => "chord"
  end.

(** [filename.split('.').pop()?.toLowerCase()]: what follows the last
    period, or the whole name when it has none; never [undefined].  It is
    only compared with lower-case ASCII words, for which lowering the
    ASCII letters decides as [toLowerCase] does. *)
Definition extension (filename : string) : string :=
  toLowerCase (last_piece is_dot "" filename).

Definition is_image_extension (ext : string) : bool :=
  String.eqb ext "jpg" || String.eqb ext "jpeg" || String.eqb ext "png"
  || String.eqb ext "gif" || String.eqb ext "webp" || String.eqb ext "bmp".

(** [findParser(filename, content)]; [None] is [undefined], returned after
    a warning on the console. *)
Definition findParser (filename content : string) : option Parser :=
  let extension := extension filename in
  if String.eqb extension "html" || String.eqb extension "htm"
  then Some htmlParser
  else if String.eqb extension "svg" && startsWith (trim content) "<svg"
  then Some svgParser
  else if is_image_extension extension then Some imageParser
  else if String.eqb extension "txt" then Some chordParser
  else
    let trimmedContent := trim content in
    if startsWith trimmedContent "<svg" then Some svgParser
    else if startsWith trimmedContent "<" && endsWith trimmedContent ">"
    then Some htmlParser
    else if String.eqb extension "txt" || String.eqb extension ""
    then Some chordParser
    else None.

(** [parseContent(filename, content)].  [run p content filename] is what
    [p.parse] gives: the width and the height that it reports, if any, and
    the rendered height of its element; [None] when it throws.  [None] is
    a thrown error. *)
Definition parseContent
    (run : Parser → string → string → option (option Z * option Z * Z))
    (filename content : string) : option ParsedItemData :=
  match findParser filename content with
  | None => None
  | Some p =>
      match run p content filename with
      | Some (w, h, rendered) =>
          Some (mkParsedItemData (parser_name p) w h rendered)
      | None => None
      end
  end.

(** The test of [addNewItemToPage] (fileDrop.ts) for a file whose path is
    handed to the parser in place of its content. *)
Definition isImage (filename : string) : bool :=
  let ext := extension filename in
  existsb (String.eqb ext) ["png"; "jpg"; "jpeg"; "gif"; "webp"; "bmp"].

(** ** parsers/chordParser.ts *)

Record SongPart : Type := mkSongPart {
  chords : string;
  lyrics : string
}.

Record SongItem : Type := mkSongItem {
  song_filename : string;
  parts : list SongPart
}.

(** The loop of [parseSongText] over the lines, two at a time: a chord
    line with the lyric line under it; a last line without a partner is
    kept, with empty lyrics, unless it is blank. *)
Fixpoint pairLines (lines : list string) : list SongPart :=
  match lines with
  | [] => []
  | [chordLine] =>
      if String.eqb (trim chordLine) "" then []
      else [mkSongPart chordLine ""]
  | chordLine :: lyricLine :: rest =>
      mkSongPart chordLine lyricLine :: pairLines rest
  end.

(** [parseSongText(content, filename)] *)
Definition parseSongText (content filename : string) : SongItem :=
  mkSongItem filename (pairLines (split_on is_newline "" content)).

(** A [Map<number, string>]: the entries in insertion order; [set] on a
    key that is there replaces its value where it stands. *)
Definition ChordMap : Type := list (nat * string).

Definition chordMap_set (k : nat) (v : string) (m : ChordMap) : ChordMap :=
  if existsb (λ e, Nat.eqb e.1 k) m
  then (λ e : nat * string, if Nat.eqb e.1 k then (k, v) else e) <$> m
  else m ++ [(k, v)].

Definition chordMap_get (k : nat) (m : ChordMap) : option string :=
  snd <$> List.find (λ e, Nat.eqb e.1 k) m.

(** The first loop over a chord line: [i] is the index of the next
    character and [chordText] the chord read so far; a chord is stored
    under the index of its first character when a space or the end of the
    line follows it. *)
Fixpoint scanChords (i : nat) (chordText : string) (m : ChordMap)
    (s : string) : ChordMap :=
  match s with
  | EmptyString =>
      if String.eqb chordText "" then m
      else chordMap_set (i - String.length chordText) chordText m
  | String char r =>
      if negb (is_blank char)
      then scanChords (S i) (chordText +:+ String char "") m r
      else if String.eqb chordText "" then scanChords (S i) "" m r
      else scanChords (S i) ""
             (chordMap_set (i - String.length chordText) chordText m) r
  end.

Definition chordMapOf (chordLine : string) : ChordMap :=
  scanChords 0 "" [] chordLine.

(** The double quote, which the markup below writes around class names. *)
Definition dquote : string := String "034" "".

(** [<span class="chord">...</span>] and the container put around a
    lyric character that carries a chord. *)
Definition chordSpanOf (chordValue : string) : string :=
  "<span class=" +:+ dquote +:+ "chord" +:+ dquote +:+ ">"
    +:+ chordValue +:+ "</span>".

Definition charContainer (inner : string) : string :=
  "<span class=" +:+ dquote +:+ "char-container" +:+ dquote +:+ ">"
    +:+ inner +:+ "</span>".

(** The loop over the lyric line from index [i] on: what it appends to
    [lineHtml]. *)
Fixpoint renderLyrics (m : ChordMap) (i : nat) (s : string) : string :=
  match s with
  | EmptyString => EmptyString
  | String lyricChar r =>
      let chordSpan :=
        match chordMap_get i m with
        | Some chordValue => chordSpanOf chordValue
        | None => ""
        end in
      let charToAdd :=
        if is_blank lyricChar then "&nbsp;" else String lyricChar "" in
      (if String.eqb chordSpan "" then charToAdd
       else charContainer (chordSpan +:+ charToAdd))
        +:+ renderLyrics m (S i) r
  end.

(** The markup of one part: the lyric characters with their chords, the
    chords that stand beyond the end of the lyrics, and the repetition
    mark wrapped. *)
Definition lineHtmlOf (part : SongPart) : string :=
  let m := chordMapOf (chords part) in
  let lineHtml := renderLyrics m 0 (lyrics part) in
  let lineHtml :=
    foldl (λ html (e : nat * string),
             if (String.length (lyrics part) <=? e.1)%nat
             then html +:+ charContainer (chordSpanOf e.2 +:+ "&nbsp;")
             else html)
          lineHtml m in
  replaceAll "(2x)"
    ("<span class=" +:+ dquote +:+ "repetition" +:+ dquote +:+ ">(2x)</span>")
    lineHtml.

Definition newline : string := String "010" "".

(** [chordParser.parse(content, filename)]: the markup assigned to the
    container's [innerHTML]; the parser reports its name and no size. *)
Definition chordHtml (content filename : string) : string :=
  let item := parseSongText content filename in
  foldl (λ contentHtml part,
           contentHtml +:+ "<div class=" +:+ dquote +:+ "lyrics-line"
             +:+ dquote +:+ ">" +:+ lineHtmlOf part +:+ "</div>" +:+ newline)
        ("<h2>" +:+ replaceFirst ".txt" "" (song_filename item) +:+ "</h2>"
           +:+ newline)
        (parts item).

(** ** parsers/htmlParser.ts *)

(** The [data-title] that [htmlParser.parse] gives its container when it
    is called with a file name:
    [filename.split('/').pop()?.split('.').slice(0, -1).join('.') || filename]. *)
Definition htmlTitle (filename : string) : string :=
  let base := last_piece is_slash "" filename in
  let title := String.concat "." (removelast (split_on is_dot "" base)) in
  if String.eqb title "" then filename else title.

(** No attribute is set for a missing or empty file name. *)
Definition dataTitle (filename : option string) : option string :=
  match filename with
  | Some f => if String.eqb f "" then None else Some (htmlTitle f)
  | None => None
  end.

(** ** Notions used to state the properties *)

(** Every reference of a table names an object of the heap. *)
Definition closed_table (h : gmap loc ItemPosition) (t : gmap string loc)
  : Prop :=
  ∀ k l, t !! k = Some l → is_Some (h !! l).

(** No dangling reference in the store or in the history. *)
Definition closed (s : State) : Prop :=
  closed_table (heap s) (itemPositions s)
  ∧ Forall (closed_table (heap s)) (positionHistory s).

(** The value of [itemPositions[id]] once [updateItemPosition] has made
    sure that it exists. *)
Definition existing_or_default (id_ : string) (s : State) : ItemPosition :=
  match itemPositions s !! id_ with
  | Some l => default empty_object (heap s !! l)
  | None => default_position
  end.

(** The two clean-up steps of [updateItemPosition] on a record value. *)
Definition normalize (r : ItemPosition) : ItemPosition :=
  let r1 := if opacity_is_default (opacity r) then set_opacity Absent r else r in
  if rotation_is_default (rotation r1) then set_rotation Absent r1 else r1.



(** A mutation of the store through its operations. *)
Inductive Mutation : Type :=
| Upsert (id_ : string) (partial : ItemPosition)
| Remove (id_ : string)
| Clear.

Definition mutate (s : State) (m : Mutation) : State :=
  match m with
  | Upsert id_ partial => updateItemPosition id_ partial s
  | Remove id_ => deleteItemPosition id_ s
  | Clear => clearItemPositions s
  end.







(** The clean-up of [savePositions] on a record value. *)
Definition cleaned (id_ : string) (r : ItemPosition) : ItemPosition :=
  let r := if opacity_is_default (opacity r) then set_opacity Absent r else r in
  let r := if rotation_is_default (rotation r) then set_rotation Absent r else r in
  let r := if scale_is_default (scale r) then set_scale Absent r else r in
  if truthy_string (filepath r) then r else set_id (Value id_) r.

(** [s] is [st] with one more object, [r] under [d]; the console may
    have grown. *)
Definition copy_at (st : State) (d : loc) (r : ItemPosition) (s : State)
  : Prop :=
  heap s = <[d := r]> (heap st)
  ∧ itemPositions s = itemPositions st
  ∧ positionHistory s = positionHistory st
  ∧ historyIndex s = historyIndex st
  ∧ document s = document st
  ∧ trace s = trace st
  ∧ selectedElementId s = selectedElementId st
  ∧ draggedElement s = draggedElement st
  ∧ dragOffsetX s = dragOffsetX st ∧ dragOffsetY s = dragOffsetY st.

(** The document that [GET /] serves once laid out: two page containers,
    [page-0] and [page-1], the second starting at viewport point (50, 20),
    and no item. *)
Definition baseDocument : Document :=
  mkDocument [mkPage 0 50 (-1143) 794 1123; mkPage 1 50 20 794 1123] [].

(** A document with the two pages and one item [x] on [page-1]. *)
Definition documentWithItem : Document :=
  mkDocument (pageContainers baseDocument)
    [mkElement "x" (Some 1%nat) (Some "x.svg") (Some "svg") "absolute"
               "10px" "10px" "" "" None "" 40].


(** No source can be fetched. *)
Definition noContent : string → string → option Z := λ _ _, None.

(** The state with the dropped [song.txt] of the specification's scenario
    on page 1, and the same with that item selected by a click. *)
Definition stateWithSong : State :=
  addNewItemToPage "song.txt" "/user/song.txt" 150 300 (Some 1%nat)
    (Some (mkParsedItemData "chord" None None 240)) 1700000000000
    (initialState baseDocument).

Definition stateWithSongSelected : State :=
  handleClick (Some 0%nat) stateWithSong.

Definition deleteKey : KeyboardEvent := mkKeyboardEvent "Delete" false false.

(** The effects that [s'] adds to those of [s] are one history push, of
    the store as it is in [s'], and then one save. *)
Definition records_then_saves (s s' : State) : Prop :=
  ∃ objects,
    trace s' = trace s
               ++ [HistoryPush (json_record <$> store s'); SaveRequest objects].

(** A host whose number formatting is not exercised. *)
Definition anyHost : Host := mkHost (λ _, "1") (λ _, 1%float).

(** A wheel tick down over the first item with Shift held. *)
Definition shiftWheelDown : WheelEvent :=
  mkWheelEvent (Some 0%nat) 1%float true false false.

(** A history three deep (the drop and two wheel ticks) after one
    [undo()]. *)
Definition threeDeepAfterUndo : State :=
  final_state
    (undoHistory
       (Nat.iter 2 (handleWheelTransform anyHost shiftWheelDown) stateWithSong)).

(** An update of the document that keeps the page containers and the id
    of every element. *)
Definition same_ids (d d' : Document) : Prop :=
  pageContainers d' = pageContainers d
  ∧ el_id <$> items d' = el_id <$> items d.

(** What one step of the arrangement may change: objects and keys are
    only added, the history and the effects are not touched, the document
    keeps its pages and ids. *)
Definition arranged (s s' : State) : Prop :=
  heap s ⊆ heap s'
  ∧ itemPositions s ⊆ itemPositions s'
  ∧ positionHistory s' = positionHistory s
  ∧ historyIndex s' = historyIndex s
  ∧ trace s' = trace s
  ∧ same_ids (document s) (document s').



(** A stored opacity is missing or a number in the interval [0, 1). *)
Definition opacity_in_range (p : property float) : bool :=
  match p with
  | Value x => PrimFloat.leb 0 x && PrimFloat.ltb x 1
  | Null => false
  | Absent | Undefined => true
  end.

Definition records_ok (v : gmap string ItemPosition) : Prop :=
  ∀ k r, v !! k = Some r → opacity_in_range (opacity r) = true.

(** The invariant: no dangling reference, and every opacity held by the
    store or by a snapshot of the history is in range. *)
Definition opacity_invariant (s : State) : Prop :=
  closed s
  ∧ records_ok (store s)
  ∧ Forall (λ t, records_ok (contents (heap s) t)) (positionHistory s).

(** A partial record whose opacity, once merged, is in range or deleted. *)
Definition partial_ok (p : ItemPosition) : Prop :=
  opacity_in_range (opacity p) = true ∨ opacity_is_default (opacity p) = true.

(** The saved records that a load brings in have their opacity in range
    (as every record has that [savePositions] wrote from a store that
    satisfies the invariant). *)
Definition loaded_in_range (r : LoadResult) : Prop :=
  match r with
  | Response _ (Some objects) =>
      Forall (λ o, opacity_in_range (opacity o) = true) objects
  | _ => True
  end.

(** The events that the listeners of the page receive.  A key press goes
    to both keydown listeners, in the order in which they were added. *)
Inductive Gesture : Type :=
| Wheel (host : Host) (ev : WheelEvent)
| Click (target : option nat)
| DragStart (ev : DragEvent)
| DragOver (ev : DragEvent)
| Drop (ev : DragEvent)
| DragEnd
| KeyDown (content : string → string → option Z) (ev : KeyboardEvent)
| FileDrop (files : list DroppedFile) (dropX dropY : Z) (hit : option nat).

Definition perform (g : Gesture) (s : State) : State :=
  match g with
  | Wheel host ev => handleWheelTransform host ev s
  | Click target => handleClick target s
  | DragStart ev => handleDragStart ev s
  | DragOver ev => handleDragOver ev s
  | Drop ev => handleDrop ev s
  | DragEnd => handleDragEnd s
  | KeyDown content ev => handleUndoRedoKeys content ev (handleKeyDown ev s)
  | FileDrop files dropX dropY hit => handleFileDrop files dropX dropY hit s
  end.

(** The states of a session on document [d]: the module's initial state,
    and what loads of saved records and gestures make of it. *)
Inductive reachable (d : Document) : State → Prop :=
| reachable_start : reachable d (initialState d)
| reachable_load content suffixes r s :
    reachable d s → loaded_in_range r →
    reachable d (loadPositions content suffixes r s)
| reachable_gesture g s :
    reachable d s → reachable d (perform g s).

(** The song of the scenario, dropped as a file. *)
Definition songFile : DroppedFile :=
  mkDroppedFile "song.txt" (Some "/user/song.txt")
                (Some (mkParsedItemData "chord" None None 240)) 1700000000000.

(** ** Further notions used to state the properties *)

(** Every character of [s] passes the test [p]. *)
Definition all_chars (p : ascii → bool) (s : string) : bool :=
  forallb p (list_ascii_of_string s).

(** The characters that [getItemId] lets through or writes. *)
Definition is_id_char (c : ascii) : bool :=
  is_alnum c || Ascii.eqb c "." || Ascii.eqb c " " || Ascii.eqb c "_".

Definition is_digit (c : ascii) : bool :=
  let n := nat_of_ascii c in ((48 <=? n) && (n <=? 57))%nat.

Definition is_lower (c : ascii) : bool :=
  let n := nat_of_ascii c in ((97 <=? n) && (n <=? 122))%nat.

(** The characters of a sanitized file name: [a-z0-9_-]. *)
Definition is_sanitized_char (c : ascii) : bool :=
  is_lower c || is_digit c || Ascii.eqb c "-" || Ascii.eqb c "_".





(** A wheel tick over the element [e] with Alt held, up ([deltaY < 0]) or
    down. *)
Definition altWheel (e : nat) (up : bool) : WheelEvent :=
  mkWheelEvent (Some e) (if up then (-1)%float else 1%float) false false true.

(** The rotation and the scale that the record under an id stands for:
    [rotation || 0] and [scale || '1'], also when there is no record. *)
Definition rotation_of (id_ : string) (s : State) : Z :=
  Z_or (rotation (default empty_object (get id_ s))) 0.
Definition scale_of (id_ : string) (s : State) : string :=
  string_or (scale (default empty_object (get id_ s))) "1".

(** Ticks up minus ticks down. *)
Definition net_ticks (dirs : list bool) : Z :=
  foldr (λ (up : bool) n, (if up then 1 else -1) + n) 0 dirs.

(** A key pressed with Ctrl held. *)
Definition ctrlKeyPress (k : string) : KeyboardEvent :=
  mkKeyboardEvent k true false.

(** The second of the two columns of the default arrangement on a page of
    width [W]: [padding + columnWidth + padding]. *)
Definition second_column (W : Z) : Q := ((inject_Z W + 20) / 2)%Q.

(** A record as the default arrangement writes it: in the first or the
    second column of one of the [npages] pages of the document. *)
Definition default_placed (W : Z) (npages : nat) (r : ItemPosition) : Prop :=
  (left r = Value "20px"
   ∨ left r = Value (number_to_string (second_column W) +:+ "px"))
  ∧ ∃ i : nat, pageIndex r = Value (Z.of_nat i) ∧ (i < npages)%nat.

(** The cursor of the default arrangement stands in one of the two
    columns of an existing page. *)
Definition cursor_ok (W : Z) (npages : nat) (c : Cursor) : Prop :=
  (currentLeft c == padding ∨ currentLeft c == second_column W)%Q
  ∧ (currentPageIndex c < npages)%nat.

(** The extensions that [findParser] decides without looking at the
    content, [svg] apart. *)
Definition is_known_extension (ext : string) : bool :=
  String.eqb ext "html" || String.eqb ext "htm" || is_image_extension ext
  || String.eqb ext "txt".

(** The content looks like markup: once trimmed it starts with [<svg], or
    starts with [<] and ends with [>]. *)
Definition looks_like_markup (content : string) : bool :=
  startsWith (trim content) "<svg"
  || startsWith (trim content) "<" && endsWith (trim content) ">".

(** * Properties *)

(** ** Objects and tables *)

Ltac simpl_state :=
  cbn [heap itemPositions positionHistory historyIndex dragOffsetX dragOffsetY
       draggedElement selectedElementId document trace console
       set_heap set_itemPositions set_positionHistory set_historyIndex
       set_document emit log setSelectedElementId setDraggedElement
       setDragOffset clearItemPositions deleteItemPosition] in *.

Lemma alloc_eq r h : alloc r h = (fresh (dom h), <[fresh (dom h) := r]> h).
Proof. reflexivity. Qed.

Lemma fresh_heap_None (h : gmap loc ItemPosition) : h !! fresh (dom h) = None.
Proof. apply not_elem_of_dom, is_fresh. Qed.

Lemma insert_fresh_subseteq r (h : gmap loc ItemPosition) :
  h ⊆ <[fresh (dom h) := r]> h.
Proof. apply insert_subseteq, fresh_heap_None. Qed.

Lemma alter_fresh_subseteq (f : ItemPosition → ItemPosition) l
    (h h' : gmap loc ItemPosition) :
  h !! l = None → h ⊆ h' → h ⊆ alter f l h'.
Proof.
  intros Hl Hsub. apply map_subseteq_spec. intros i x Hi.
  destruct (decide (i = l)) as [->|Hne]; [congruence|].
  rewrite lookup_alter_ne by done.
  by eapply lookup_weaken.
Qed.

Lemma contents_lookup h t k : contents h t !! k = t !! k ≫= (λ l, h !! l).
Proof. unfold contents. by rewrite lookup_omap. Qed.

Lemma contents_mono h h' t :
  closed_table h t → h ⊆ h' → contents h' t = contents h t.
Proof.
  intros Hc Hsub. apply map_eq. intros k. rewrite !contents_lookup.
  destruct (t !! k) as [l|] eqn:Hk; [|done]. simpl.
  destruct (Hc k l Hk) as [r Hr]. rewrite Hr.
  by eapply lookup_weaken.
Qed.

Lemma closed_table_mono h h' t :
  closed_table h t → h ⊆ h' → closed_table h' t.
Proof.
  intros Hc Hsub k l Hk. destruct (Hc k l Hk) as [r Hr].
  exists r. by eapply lookup_weaken.
Qed.

Lemma get_setItem_eq id_ r s : get id_ (setItem id_ r s) = Some r.
Proof.
  unfold setItem. rewrite alloc_eq. unfold get, getItemPosition. simpl.
  rewrite lookup_insert_eq. simpl. by rewrite lookup_insert_eq.
Qed.

Lemma get_modifyItem_eq id_ f s :
  get id_ (modifyItem id_ f s) = f <$> get id_ s.
Proof.
  unfold modifyItem, get, getItemPosition.
  destruct (itemPositions s !! id_) as [l|] eqn:Hl; simpl; rewrite Hl; simpl; [|done].
  by rewrite lookup_alter_eq.
Qed.

Lemma get_existing id_ s :
  default empty_object
    (get id_ (match itemPositions s !! id_ with
              | Some _ => s
              | None => setItem id_ default_position s
              end))
  = existing_or_default id_ s.
Proof.
  unfold existing_or_default.
  destruct (itemPositions s !! id_) as [l|] eqn:Hl.
  - unfold get, getItemPosition. by rewrite Hl.
  - by rewrite get_setItem_eq.
Qed.

Lemma get_updateItemPosition id_ p s :
  get id_ (updateItemPosition id_ p s)
  = Some (normalize (spread (existing_or_default id_ s) p)).
Proof.
  unfold updateItemPosition, normalize. cbn zeta.
  rewrite get_existing. generalize (spread (existing_or_default id_ s) p). intros m.
  set (s1 := setItem id_ m _).
  assert (H1 : get id_ s1 = Some m) by apply get_setItem_eq.
  rewrite H1. simpl.
  destruct (opacity_is_default (opacity m)).
  - rewrite get_modifyItem_eq, H1. simpl.
    destruct (rotation_is_default (rotation m)).
    + by rewrite get_modifyItem_eq, get_modifyItem_eq, H1.
    + by rewrite get_modifyItem_eq, H1.
  - rewrite H1. simpl.
    destruct (rotation_is_default (rotation m)).
    + by rewrite get_modifyItem_eq, H1.
    + done.
Qed.

Lemma setItem_shape id_ r s :
  setItem id_ r s
  = set_itemPositions (<[id_ := fresh (dom (heap s))]> (itemPositions s))
      (set_heap (<[fresh (dom (heap s)) := r]> (heap s)) s).
Proof. reflexivity. Qed.

Lemma modifyItem_at id_ f s l :
  itemPositions s !! id_ = Some l →
  modifyItem id_ f s = set_heap (alter f l (heap s)) s.
Proof. intros H. unfold modifyItem. by rewrite H. Qed.

(** The shape of the state after [updateItemPosition]: one new reference
    under [id], every older object untouched. *)
Lemma updateItemPosition_shape id_ p s :
  ∃ l h',
    updateItemPosition id_ p s
    = set_itemPositions (<[id_ := l]> (itemPositions s)) (set_heap h' s)
    ∧ heap s ⊆ h'
    ∧ heap s !! l = None
    ∧ h' !! l = Some (normalize (spread (existing_or_default id_ s) p)).
Proof.
  unfold updateItemPosition, normalize. cbn zeta.
  rewrite get_existing.
  generalize (spread (existing_or_default id_ s) p). intros m.
  set (s1 := match itemPositions s !! id_ with
             | Some _ => s | None => setItem id_ default_position s end).
  assert (Hs1 : ∃ t1 h1, s1 = set_itemPositions t1 (set_heap h1 s)
                ∧ heap s ⊆ h1 ∧ <[id_ := fresh (dom h1)]> t1
                                = <[id_ := fresh (dom h1)]> (itemPositions s)).
  { subst s1. destruct (itemPositions s !! id_).
    - exists (itemPositions s), (heap s). by destruct s.
    - eexists _, _. rewrite setItem_shape. split; [done|]. split.
      + apply insert_fresh_subseteq.
      + by rewrite insert_insert_eq. }
  destruct Hs1 as (t1 & h1 & Hs1 & Hsub & Ht1). clearbody s1. subst s1.
  set (l := fresh (dom h1)).
  set (s2 := setItem id_ m _).
  assert (Hl : heap s !! l = None).
  { eapply lookup_weaken_None; [apply fresh_heap_None|done]. }
  assert (Hs2 : s2 = set_itemPositions (<[id_ := l]> (itemPositions s))
                       (set_heap (<[l := m]> h1) s)).
  { subst s2 l. rewrite setItem_shape. simpl. rewrite Ht1. done. }
  assert (Hg2 : get id_ s2 = Some m) by apply get_setItem_eq.
  rewrite Hg2. simpl.
  exists l. clearbody s2. subst s2.
  destruct (opacity_is_default (opacity m)).
  - rewrite get_modifyItem_eq, Hg2. simpl.
    rewrite (modifyItem_at id_ (set_opacity Absent) _ l)
      by (simpl; apply lookup_insert_eq).
    destruct (rotation_is_default (rotation m)).
    + rewrite (modifyItem_at id_ (set_rotation Absent) _ l)
        by (simpl; apply lookup_insert_eq).
      exists (alter (set_rotation Absent) l
                (alter (set_opacity Absent) l (<[l:=m]> h1))).
      split; [reflexivity|]. split; [|split; [done|]].
      * apply alter_fresh_subseteq; [done|]. apply alter_fresh_subseteq; [done|].
        etrans; [done|]. apply insert_subseteq, fresh_heap_None.
      * by rewrite !lookup_alter_eq, lookup_insert_eq.
    + exists (alter (set_opacity Absent) l (<[l:=m]> h1)).
      split; [reflexivity|]. split; [|split; [done|]].
      * apply alter_fresh_subseteq; [done|].
        etrans; [done|]. apply insert_subseteq, fresh_heap_None.
      * by rewrite !lookup_alter_eq, lookup_insert_eq.
  - rewrite Hg2. simpl.
    destruct (rotation_is_default (rotation m)).
    + rewrite (modifyItem_at id_ (set_rotation Absent) _ l)
        by (simpl; apply lookup_insert_eq).
      exists (alter (set_rotation Absent) l (<[l:=m]> h1)).
      split; [reflexivity|]. split; [|split; [done|]].
      * apply alter_fresh_subseteq; [done|].
        etrans; [done|]. apply insert_subseteq, fresh_heap_None.
      * by rewrite !lookup_alter_eq, lookup_insert_eq.
    + exists (<[l:=m]> h1).
      split; [reflexivity|]. split; [|split; [done|]].
      * etrans; [done|]. apply insert_subseteq, fresh_heap_None.
      * by rewrite lookup_insert_eq.
Qed.

(** ** JSON copies *)

Lemma parse_entries_cons k r es h :
  parse_entries ((k, r) :: es) h
  = (<[k := fresh (dom (parse_entries es h).2)]> (parse_entries es h).1,
     <[fresh (dom (parse_entries es h).2) := r]> (parse_entries es h).2).
Proof.
  unfold parse_entries. simpl. by destruct (foldr _ _ es) as [t1 h1].
Qed.

Lemma parse_entries_spec es h t' h' :
  NoDup es.*1 →
  parse_entries es h = (t', h') →
  h ⊆ h'
  ∧ contents h' t' = list_to_map es
  ∧ (∀ k l, t' !! k = Some l → h !! l = None ∧ is_Some (h' !! l)).
Proof.
  revert t' h'. induction es as [|[k r] es IH]; intros t' h' Hnd Hp.
  - simpl in Hp. injection Hp as <- <-. split; [done|]. split.
    + apply map_eq. intros k. rewrite contents_lookup. by rewrite !lookup_empty.
    + intros k l. by rewrite lookup_empty.
  - rewrite parse_entries_cons in Hp.
    destruct (parse_entries es h) as [t1 h1] eqn:Hes. simpl in Hp.
    injection Hp as <- <-.
    apply NoDup_cons in Hnd as [Hk Hnd].
    destruct (IH t1 h1 Hnd eq_refl) as (Hsub & Hc & Hfresh).
    pose proof (fresh_heap_None h1) as Hl. set (l := fresh (dom h1)) in *.
    split; [|split].
    + etrans; [done|]. by apply insert_subseteq.
    + apply map_eq. intros k'. rewrite contents_lookup. simpl.
      destruct (decide (k' = k)) as [->|Hne].
      * rewrite !lookup_insert_eq. simpl. by rewrite lookup_insert_eq.
      * rewrite !lookup_insert_ne by done. rewrite <- Hc, contents_lookup.
        destruct (t1 !! k') as [l'|] eqn:Hk'; [|done]. simpl.
        destruct (Hfresh k' l' Hk') as [_ [r' Hr']].
        rewrite lookup_insert_ne; [done|]. intros ->. congruence.
    + intros k' l'. destruct (decide (k' = k)) as [->|Hne].
      * rewrite lookup_insert_eq. intros [= <-]. split.
        -- eapply lookup_weaken_None; done.
        -- rewrite lookup_insert_eq. eauto.
      * rewrite lookup_insert_ne by done. intros Hk'.
        destruct (Hfresh k' l' Hk') as [Hn [r' Hr']]. split; [done|].
        exists r'. rewrite lookup_insert_ne; [done|]. intros ->. congruence.
Qed.

Lemma parse_spec v h t' h' :
  parse v h = (t', h') →
  h ⊆ h'
  ∧ contents h' t' = v
  ∧ (∀ k l, t' !! k = Some l → h !! l = None ∧ is_Some (h' !! l)).
Proof.
  intros Hp. unfold parse in Hp.
  apply parse_entries_spec in Hp; [|apply NoDup_fst_map_to_list].
  by rewrite list_to_map_to_list in Hp.
Qed.

(** A deep copy holds the JSON image of the contents of the original, in
    objects that did not exist before; older objects are untouched. *)
Lemma deepCopy_spec t h t' h' :
  deepCopy t h = (t', h') →
  h ⊆ h'
  ∧ contents h' t' = json_record <$> contents h t
  ∧ (∀ k l, t' !! k = Some l → h !! l = None ∧ is_Some (h' !! l)).
Proof. apply parse_spec. Qed.

Lemma deepCopy_closed t h t' h' :
  deepCopy t h = (t', h') → closed_table h' t'.
Proof.
  intros Hd k l Hk. by destruct (deepCopy_spec _ _ _ _ Hd) as (_ & _ & Hf), (Hf k l Hk).
Qed.



(** ** The history stack *)

Lemma index_Some {A} (a : list A) (i : Z) x :
  index a i = Some x ↔ 0 ≤ i ∧ a !! Z.to_nat i = Some x.
Proof.
  unfold index. destruct (Z.ltb_spec i 0).
  - split; [done|lia].
  - split; [done|by intros [_ ?]].
Qed.

Lemma index_is_Some {A} (a : list A) (i : Z) :
  0 ≤ i < Z.of_nat (length a) → is_Some (index a i).
Proof.
  intros Hi. unfold index. destruct (Z.ltb_spec i 0); [lia|].
  apply lookup_lt_is_Some. lia.
Qed.

(** The state after [addStateToHistory], given the deep copy it makes. *)
Lemma addStateToHistory_eq s c h :
  deepCopy (itemPositions s) (heap s) = (c, h) →
  addStateToHistory s
  = let sliced :=
      if historyIndex s <? Z.of_nat (length (positionHistory s)) - 1
      then slice0 (historyIndex s + 1) (positionHistory s)
      else positionHistory s in
    let over := maxHistorySize <? Z.of_nat (length (sliced ++ [c])) in
    emit (HistoryPush (contents h c))
      (set_historyIndex (if over then historyIndex s + 1 - 1
                         else historyIndex s + 1)
         (set_positionHistory (if over then drop 1 (sliced ++ [c])
                               else sliced ++ [c])
            (set_heap h s))).
Proof.
  intros Hd. unfold addStateToHistory. rewrite Hd. cbn zeta.
  by destruct (maxHistorySize <? _).
Qed.

Lemma slice0_take {A} (a : list A) (e : Z) :
  0 ≤ e → slice0 e a = take (Z.to_nat e) a.
Proof. intros He. unfold slice0. destruct (Z.ltb_spec e 0); [lia|done]. Qed.

(** What [addStateToHistory] does to the stack: the snapshots after the
    index are dropped, the copy is appended, and when that makes more than
    [maxHistorySize] the oldest one goes and the index stays where it
    was. *)
Lemma addStateToHistory_history s c h :
  -1 ≤ historyIndex s < Z.of_nat (length (positionHistory s)) →
  deepCopy (itemPositions s) (heap s) = (c, h) →
  let kept := take (Z.to_nat (historyIndex s + 1)) (positionHistory s) in
  let s' := addStateToHistory s in
  heap s' = h
  ∧ itemPositions s' = itemPositions s
  ∧ trace s' = trace s ++ [HistoryPush (contents h c)]
  ∧ (if maxHistorySize <=? historyIndex s + 1
     then positionHistory s' = drop 1 (kept ++ [c])
          ∧ historyIndex s' = historyIndex s
     else positionHistory s' = kept ++ [c]
          ∧ historyIndex s' = historyIndex s + 1).
Proof.
  intros Hi Hd kept s'. subst s'. rewrite (addStateToHistory_eq _ _ _ Hd).
  cbn zeta. simpl_state.
  assert (Hs : (if historyIndex s <? Z.of_nat (length (positionHistory s)) - 1
                then slice0 (historyIndex s + 1) (positionHistory s)
                else positionHistory s) = kept).
  { subst kept. destruct (Z.ltb_spec (historyIndex s)
                            (Z.of_nat (length (positionHistory s)) - 1)).
    - apply slice0_take. lia.
    - rewrite take_ge; [done|]. lia. }
  rewrite Hs. split; [done|]. split; [done|]. split; [done|].
  assert (Hlen : Z.of_nat (length (kept ++ [c])) = historyIndex s + 2).
  { subst kept. rewrite length_app, length_take. simpl. lia. }
  rewrite Hlen.
  destruct (Z.leb_spec maxHistorySize (historyIndex s + 1));
    destruct (Z.ltb_spec maxHistorySize (historyIndex s + 2)); try lia.
  - split; [done|lia].
  - done.
Qed.

Lemma addStateToHistory_other s :
  let s' := addStateToHistory s in
  document s' = document s ∧ console s' = console s
  ∧ selectedElementId s' = selectedElementId s
  ∧ draggedElement s' = draggedElement s
  ∧ dragOffsetX s' = dragOffsetX s ∧ dragOffsetY s' = dragOffsetY s.
Proof.
  destruct (deepCopy (itemPositions s) (heap s)) as [c h] eqn:Hd.
  cbn zeta. rewrite (addStateToHistory_eq _ _ _ Hd). done.
Qed.


(** *** Restoring *)

Lemma restoreFromHistory_eq s snap c h :
  index (positionHistory s) (historyIndex s) = Some snap →
  deepCopy snap (heap s) = (c, h) →
  restoreFromHistory s
  = Returned (Some c) (set_itemPositions c (set_heap h s)).
Proof.
  intros Hi Hd. unfold restoreFromHistory. rewrite Hi, Hd. simpl_state.
  by rewrite (right_id_L ∅ (∪)).
Qed.

Lemma closed_snapshot s snap i :
  closed s → index (positionHistory s) i = Some snap →
  closed_table (heap s) snap.
Proof.
  intros [_ Hh] Hi. apply index_Some in Hi as [_ Hi].
  rewrite Forall_lookup in Hh. by eapply Hh.
Qed.

(** Moving the index to a snapshot and restoring it: the store gets the
    JSON image of the snapshot in objects of its own; the stack and every
    older object stay as they were. *)
Lemma restore_spec s i snap :
  closed s →
  index (positionHistory s) i = Some snap →
  ∃ c s',
    restoreFromHistory (set_historyIndex i s) = Returned (Some c) s'
    ∧ itemPositions s' = c
    ∧ historyIndex s' = i
    ∧ positionHistory s' = positionHistory s
    ∧ heap s ⊆ heap s'
    ∧ closed s'
    ∧ store s' = json_record <$> contents (heap s) snap
    ∧ (∀ k l, c !! k = Some l → heap s !! l = None)
    ∧ trace s' = trace s ∧ console s' = console s
    ∧ document s' = document s.
Proof.
  intros Hc Hi.
  destruct (deepCopy snap (heap s)) as [c h] eqn:Hd.
  exists c, (set_itemPositions c (set_heap h (set_historyIndex i s))).
  destruct (deepCopy_spec _ _ _ _ Hd) as (Hsub & Hcont & Hfresh).
  split; [by apply (restoreFromHistory_eq _ snap)|]. simpl_state.
  repeat split; try done.
  - by eapply deepCopy_closed.
  - destruct Hc as [_ Hh]. simpl_state.
    eapply Forall_impl; [exact Hh|]. intros t Ht. by eapply closed_table_mono.
  - intros k l Hk. by destruct (Hfresh k l Hk).
Qed.

Lemma undoHistory_spec s snap :
  closed s → 0 < historyIndex s →
  index (positionHistory s) (historyIndex s - 1) = Some snap →
  ∃ c s',
    undoHistory s = Returned (Some c) s'
    ∧ itemPositions s' = c
    ∧ historyIndex s' = historyIndex s - 1
    ∧ positionHistory s' = positionHistory s
    ∧ heap s ⊆ heap s'
    ∧ closed s'
    ∧ store s' = json_record <$> contents (heap s) snap
    ∧ (∀ k l, c !! k = Some l → heap s !! l = None)
    ∧ trace s' = trace s ∧ console s' = console s
    ∧ document s' = document s.
Proof.
  intros Hc Hpos Hi. unfold undoHistory.
  destruct (Z.ltb_spec 0 (historyIndex s)); [|lia].
  by apply restore_spec.
Qed.

Lemma redoHistory_spec s snap :
  closed s →
  historyIndex s < Z.of_nat (length (positionHistory s)) - 1 →
  index (positionHistory s) (historyIndex s + 1) = Some snap →
  ∃ c s',
    redoHistory s = Returned (Some c) s'
    ∧ itemPositions s' = c
    ∧ historyIndex s' = historyIndex s + 1
    ∧ positionHistory s' = positionHistory s
    ∧ heap s ⊆ heap s'
    ∧ closed s'
    ∧ store s' = json_record <$> contents (heap s) snap
    ∧ (∀ k l, c !! k = Some l → heap s !! l = None)
    ∧ trace s' = trace s ∧ console s' = console s
    ∧ document s' = document s.
Proof.
  intros Hc Hpos Hi. unfold redoHistory.
  destruct (Z.ltb_spec (historyIndex s)
              (Z.of_nat (length (positionHistory s)) - 1)); [|lia].
  by apply restore_spec.
Qed.

Lemma undoHistory_at_bottom s :
  historyIndex s ≤ 0 → undoHistory s = Returned None s.
Proof.
  intros H. unfold undoHistory. by destruct (Z.ltb_spec 0 (historyIndex s)); [lia|].
Qed.

Lemma redoHistory_at_top s :
  Z.of_nat (length (positionHistory s)) - 1 ≤ historyIndex s →
  redoHistory s = Returned None s.
Proof.
  intros H. unfold redoHistory.
  by destruct (Z.ltb_spec (historyIndex s)
                 (Z.of_nat (length (positionHistory s)) - 1)); [lia|].
Qed.

(** *** Closedness is kept *)

Lemma closed_initialState d : closed (initialState d).
Proof. split; [by intros k l|by constructor]. Qed.

Lemma closed_addStateToHistory s : closed s → closed (addStateToHistory s).
Proof.
  intros [Ht Hh].
  destruct (deepCopy (itemPositions s) (heap s)) as [c h] eqn:Hd.
  rewrite (addStateToHistory_eq _ _ _ Hd). cbn zeta.
  destruct (deepCopy_spec _ _ _ _ Hd) as (Hsub & _ & _).
  assert (Hall : Forall (closed_table h) (positionHistory s ++ [c])).
  { apply Forall_app. split.
    - eapply Forall_impl; [exact Hh|]. intros t ?. by eapply closed_table_mono.
    - constructor; [|done]. by eapply deepCopy_closed. }
  split; simpl_state.
  - by eapply closed_table_mono.
  - assert (Hsl : Forall (closed_table h)
       ((if historyIndex s <? Z.of_nat (length (positionHistory s)) - 1
         then slice0 (historyIndex s + 1) (positionHistory s)
         else positionHistory s) ++ [c])).
    { apply Forall_app in Hall as [H1 H2]. apply Forall_app. split; [|done].
      destruct (_ <? _); [|done]. unfold slice0.
      destruct (_ <? 0); by apply Forall_take. }
    destruct (maxHistorySize <? _); [by apply Forall_drop|done].
Qed.

Lemma closed_initializeHistory t s :
  closed s → closed_table (heap s) t → closed (initializeHistory t s).
Proof.
  intros [Ht Hh] Hc. unfold initializeHistory.
  destruct (deepCopy t (heap s)) as [c h] eqn:Hd.
  destruct (deepCopy_spec _ _ _ _ Hd) as (Hsub & _ & _).
  split; simpl_state.
  - by eapply closed_table_mono.
  - constructor; [|done]. by eapply deepCopy_closed.
Qed.

Lemma closed_updateItemPosition id_ p s :
  closed s → closed (updateItemPosition id_ p s).
Proof.
  intros [Ht Hh].
  destruct (updateItemPosition_shape id_ p s) as (l & h' & -> & Hsub & Hl & Hl').
  split; simpl_state.
  - intros k l'. destruct (decide (k = id_)) as [->|Hne].
    + rewrite lookup_insert_eq. intros [= <-]. eauto.
    + rewrite lookup_insert_ne by done. intros Hk.
      eapply closed_table_mono; done.
  - eapply Forall_impl; [exact Hh|]. intros t ?. by eapply closed_table_mono.
Qed.

Lemma closed_deleteItemPosition id_ s :
  closed s → closed (deleteItemPosition id_ s).
Proof.
  intros [Ht Hh]. split; simpl_state; [|done].
  intros k l Hk. apply lookup_delete_Some in Hk as [_ Hk]. by eapply Ht.
Qed.

Lemma store_updateItemPosition id_ p s :
  closed s →
  store (updateItemPosition id_ p s)
  = <[id_ := normalize (spread (existing_or_default id_ s) p)]> (store s).
Proof.
  intros [Ht _].
  destruct (updateItemPosition_shape id_ p s) as (l & h' & -> & Hsub & Hl & Hl').
  unfold store. simpl_state. apply map_eq. intros k.
  rewrite contents_lookup.
  destruct (decide (k = id_)) as [->|Hne].
  - rewrite !lookup_insert_eq. done.
  - rewrite !lookup_insert_ne by done. rewrite contents_lookup.
    destruct (itemPositions s !! k) as [l'|] eqn:Hk; [|done]. simpl.
    destruct (Ht k l' Hk) as [r Hr]. rewrite Hr. by eapply lookup_weaken.
Qed.

(** ** History: bound, undo, redo *)




(** C8. When the index is not at the end of the history, [record()]
    keeps the snapshots up to the index, appends the copy of the store and
    nothing else, and a [redo()] then returns nothing and leaves the state
    as it is. *)
Theorem C8_record_discards_redo_tail (s : State) :
  -1 ≤ historyIndex s →
  historyIndex s < Z.of_nat (length (positionHistory s)) - 1 →
  Z.of_nat (length (positionHistory s)) ≤ maxHistorySize →
  let s' := addStateToHistory s in
  ∃ c,
    positionHistory s'
    = take (Z.to_nat (historyIndex s + 1)) (positionHistory s) ++ [c]
    ∧ contents (heap s') c = json_record <$> store s
    ∧ historyIndex s' = historyIndex s + 1
    ∧ historyIndex s' = Z.of_nat (length (positionHistory s')) - 1
    ∧ redoHistory s' = Returned None s'.
Proof.
  intros Hlo Hhi Hmax s'. unfold maxHistorySize in *.
  destruct (deepCopy (itemPositions s) (heap s)) as [c h] eqn:Hd.
  destruct (addStateToHistory_history s c h ltac:(lia) Hd) as (Hh & _ & _ & Hhist).
  destruct (deepCopy_spec _ _ _ _ Hd) as (_ & Hcont & _).
  destruct (Z.leb_spec maxHistorySize (historyIndex s + 1));
    unfold maxHistorySize in *; [lia|].
  destruct Hhist as [Hp Hidx]. fold s' in Hp, Hidx, Hh.
  assert (Hlen : historyIndex s' = Z.of_nat (length (positionHistory s')) - 1).
  { rewrite Hp, Hidx, length_app, length_take. simpl. lia. }
  exists c. rewrite Hh. repeat split; try done.
  apply redoHistory_at_top. lia.
Qed.

(** ** Doubles *)








(** ** Undo and redo give back copies *)

Lemma mutate_spec s m :
  closed s →
  closed (mutate s m)
  ∧ heap s ⊆ heap (mutate s m)
  ∧ positionHistory (mutate s m) = positionHistory s
  ∧ historyIndex (mutate s m) = historyIndex s.
Proof.
  intros Hc. destruct m as [id_ p|id_|]; simpl.
  - split; [by apply closed_updateItemPosition|].
    by destruct (updateItemPosition_shape id_ p s) as (l & h' & -> & Hsub & _).
  - split; [by apply closed_deleteItemPosition|done].
  - split; [|done]. destruct Hc as [_ Hh]. split; [|done]. by intros k l.
Qed.

Lemma mutations_spec ms : ∀ s,
  closed s →
  closed (foldl mutate s ms)
  ∧ heap s ⊆ heap (foldl mutate s ms)
  ∧ positionHistory (foldl mutate s ms) = positionHistory s
  ∧ historyIndex (foldl mutate s ms) = historyIndex s.
Proof.
  induction ms as [|m ms IH]; intros s Hc; [done|]. simpl.
  destruct (mutate_spec s m Hc) as (Hc1 & Hs1 & Hp1 & Hi1).
  destruct (IH _ Hc1) as (Hc2 & Hs2 & Hp2 & Hi2).
  split; [done|]. split; [by etrans|]. split; congruence.
Qed.


Lemma initializeHistory_eq t s c h :
  deepCopy t (heap s) = (c, h) →
  initializeHistory t s
  = set_historyIndex 0 (set_positionHistory [c] (set_heap h s)).
Proof. intros Hd. unfold initializeHistory. by rewrite Hd. Qed.



(** ** savePositions works on copies *)

Lemma spread_property_Absent_l {A} (b : property A) :
  spread_property Absent b = b.
Proof. by destruct b. Qed.

Lemma spread_empty_object r : spread empty_object r = r.
Proof.
  destruct r. unfold spread. simpl.
  f_equal; match goal with |- _ = ?x => by destruct x end.
Qed.

Lemma copy_at_read st d r s :
  copy_at st d r s → default empty_object (heap s !! d) = r.
Proof. intros [-> _]. by rewrite lookup_insert_eq. Qed.

Lemma copy_at_alter st d r s f :
  copy_at st d r s → copy_at st d (f r) (set_heap (alter f d (heap s)) s).
Proof.
  intros (Hh & ?). split; [|done]. simpl_state.
  by rewrite Hh, alter_insert_eq.
Qed.

Lemma copy_at_log st d r s m : copy_at st d r s → copy_at st d r (log m s).
Proof. by intros (Hh & ?). Qed.

Lemma dataToSaveOf_spec out st id_ l :
  let d := fresh (dom (heap st)) in
  let r := dataToSaveOf (out, st) (id_, l) in
  r.1 = out ++ [d]
  ∧ heap st !! d = None
  ∧ copy_at st d (cleaned id_ (default empty_object (heap st !! l))) r.2.
Proof.
  intros d r. subst r. unfold dataToSaveOf, cleaned.
  rewrite alloc_eq. fold d. cbn zeta. rewrite spread_empty_object.
  generalize (default empty_object (heap st !! l)). intros p.
  pose proof (fresh_heap_None (heap st)) as Hd. fold d in Hd.
  assert (H0 : copy_at st d p (set_heap (<[d:=p]> (heap st)) st)) by done.
  revert H0. generalize (set_heap (<[d:=p]> (heap st)) st). intros s0 H0.
  rewrite (copy_at_read _ _ _ _ H0).
  set (p1 := if opacity_is_default (opacity p) then set_opacity Absent p else p).
  assert (H1 : copy_at st d p1
            (if opacity_is_default (opacity p)
             then set_heap (alter (set_opacity Absent) d (heap s0)) s0 else s0)).
  { subst p1. destruct (opacity_is_default _); [by apply copy_at_alter|done]. }
  revert H1. generalize (if opacity_is_default (opacity p)
             then set_heap (alter (set_opacity Absent) d (heap s0)) s0 else s0).
  clearbody p1. clear s0 H0. intros s1 H1.
  rewrite (copy_at_read _ _ _ _ H1).
  set (p2 := if rotation_is_default (rotation p1) then set_rotation Absent p1 else p1).
  assert (H2 : copy_at st d p2
            (if rotation_is_default (rotation p1)
             then set_heap (alter (set_rotation Absent) d (heap s1)) s1 else s1)).
  { subst p2. destruct (rotation_is_default _); [by apply copy_at_alter|done]. }
  revert H2. generalize (if rotation_is_default (rotation p1)
             then set_heap (alter (set_rotation Absent) d (heap s1)) s1 else s1).
  clearbody p2. clear s1 H1. intros s2 H2.
  rewrite (copy_at_read _ _ _ _ H2).
  set (p3 := if scale_is_default (scale p2) then set_scale Absent p2 else p2).
  assert (H3 : copy_at st d p3
            (if scale_is_default (scale p2)
             then set_heap (alter (set_scale Absent) d (heap s2)) s2 else s2)).
  { subst p3. destruct (scale_is_default _); [by apply copy_at_alter|done]. }
  revert H3. generalize (if scale_is_default (scale p2)
             then set_heap (alter (set_scale Absent) d (heap s2)) s2 else s2).
  clearbody p3. clear s2 H2. intros s3 H3.
  rewrite (copy_at_read _ _ _ _ H3).
  split; [done|]. split; [done|]. cbn [snd].
  destruct (truthy_string (filepath p3)); [done|].
  exact (copy_at_alter st d p3 (log (WarnMissingFilepath id_) s3)
           (set_id (Value id_)) (copy_at_log _ _ _ _ _ H3)).
Qed.

(** The objects that [savePositions] builds are new ones; the loop leaves
    the store table and every object that existed before as they were. *)
Lemma savePositions_loop_frame es : ∀ out st,
  let r := foldl dataToSaveOf (out, st) es in
  heap st ⊆ heap r.2
  ∧ itemPositions r.2 = itemPositions st
  ∧ positionHistory r.2 = positionHistory st
  ∧ historyIndex r.2 = historyIndex st
  ∧ document r.2 = document st
  ∧ trace r.2 = trace st
  ∧ selectedElementId r.2 = selectedElementId st
  ∧ draggedElement r.2 = draggedElement st
  ∧ dragOffsetX r.2 = dragOffsetX st ∧ dragOffsetY r.2 = dragOffsetY st.
Proof.
  induction es as [|[id_ l] es IH]; intros out st r.
  - subst r. simpl. done.
  - subst r. cbn [foldl].
    destruct (dataToSaveOf_spec out st id_ l)
      as (Hout & Hd & Hh & Ht & Hp & Hi & Hdoc & Htr & Hsel & Hdr & Hx & Hy).
    destruct (dataToSaveOf (out, st) (id_, l)) as [out1 st1]. clear Hout.
    cbn [fst snd] in *. specialize (IH out1 st1). cbn zeta in IH.
    destruct IH as (IHh & IHt & IHp & IHi & IHdoc & IHtr & IHsel & IHdr & IHx & IHy).
    assert (Hsub : heap st ⊆ heap st1).
    { rewrite Hh. by apply insert_subseteq. }
    split; [by etrans|].
    repeat (split; [congruence|]). congruence.
Qed.


Lemma savePositions_eq s :
  savePositions s
  = emit (SaveRequest
            (omap (λ d, json_record <$> heap
                     (foldl dataToSaveOf ([], s) (map_to_list (itemPositions s))).2 !! d)
                  (foldl dataToSaveOf ([], s) (map_to_list (itemPositions s))).1))
         (foldl dataToSaveOf ([], s) (map_to_list (itemPositions s))).2.
Proof.
  unfold savePositions. by destruct (foldl dataToSaveOf _ _).
Qed.

Lemma savePositions_frame s :
  heap s ⊆ heap (savePositions s)
  ∧ itemPositions (savePositions s) = itemPositions s
  ∧ positionHistory (savePositions s) = positionHistory s
  ∧ historyIndex (savePositions s) = historyIndex s
  ∧ document (savePositions s) = document s
  ∧ (∃ objects, trace (savePositions s) = trace s ++ [SaveRequest objects])
  ∧ selectedElementId (savePositions s) = selectedElementId s
  ∧ draggedElement (savePositions s) = draggedElement s
  ∧ dragOffsetX (savePositions s) = dragOffsetX s
  ∧ dragOffsetY (savePositions s) = dragOffsetY s.
Proof.
  rewrite savePositions_eq.
  destruct (savePositions_loop_frame (map_to_list (itemPositions s)) [] s)
    as (Hh & Ht & Hp & Hi & Hd & Htr & Hsel & Hdr & Hx & Hy).
  cbn zeta in *. simpl_state. rewrite Htr.
  repeat (split; [done|]). split; [eauto|done].
Qed.

Lemma get_mono id_ r s s' :
  itemPositions s' = itemPositions s → heap s ⊆ heap s' →
  get id_ s = Some r → get id_ s' = Some r.
Proof.
  intros Ht Hh. unfold get, getItemPosition. rewrite Ht.
  destruct (itemPositions s !! id_) as [l|]; [|done]. simpl.
  intros Hl. by eapply lookup_weaken.
Qed.

Lemma store_mono s s' :
  closed s → itemPositions s' = itemPositions s → heap s ⊆ heap s' →
  store s' = store s.
Proof.
  intros [Hc _] Ht Hh. unfold store. rewrite Ht. by apply contents_mono.
Qed.

(** C10. [savePositions()] leaves the store as it was: the table of the
    store is the same, every object that existed before the call is still
    there with the same properties (the clean-up and the fallback id go to
    objects made during the call), and the history is not touched. *)
Theorem C10_savePositions_keeps_store (s : State) :
  itemPositions (savePositions s) = itemPositions s
  ∧ heap s ⊆ heap (savePositions s)
  ∧ (∀ id_ r, get id_ s = Some r → get id_ (savePositions s) = Some r)
  ∧ (closed s → store (savePositions s) = store s)
  ∧ positionHistory (savePositions s) = positionHistory s
  ∧ historyIndex (savePositions s) = historyIndex s.
Proof.
  destruct (savePositions_frame s) as (Hh & Ht & Hp & Hi & _).
  split; [done|]. split; [done|]. split; [|split; [|done]].
  - intros id_ r. by apply get_mono.
  - intros Hc. by apply store_mono.
Qed.

Lemma addStateToHistory_frame s :
  heap s ⊆ heap (addStateToHistory s)
  ∧ itemPositions (addStateToHistory s) = itemPositions s
  ∧ document (addStateToHistory s) = document s
  ∧ console (addStateToHistory s) = console s
  ∧ trace (addStateToHistory s)
    = trace s ++ [HistoryPush (json_record <$> store s)].
Proof.
  destruct (deepCopy (itemPositions s) (heap s)) as [c h] eqn:Hd.
  rewrite (addStateToHistory_eq _ _ _ Hd). cbn zeta. simpl_state.
  destruct (deepCopy_spec _ _ _ _ Hd) as (Hsub & Hcont & _).
  by rewrite Hcont.
Qed.

Lemma updateAndSavePositions_frame s :
  heap s ⊆ heap (updateAndSavePositions s)
  ∧ itemPositions (updateAndSavePositions s) = itemPositions s
  ∧ document (updateAndSavePositions s) = document s
  ∧ ∃ objects,
      trace (updateAndSavePositions s)
      = trace s ++ [HistoryPush (json_record <$> store s); SaveRequest objects].
Proof.
  unfold updateAndSavePositions.
  destruct (addStateToHistory_frame s) as (Hh1 & Ht1 & Hd1 & _ & Htr1).
  destruct (savePositions_frame (addStateToHistory s))
    as (Hh2 & Ht2 & _ & _ & Hd2 & [objs Htr2] & _).
  split; [by etrans|]. split; [congruence|]. split; [congruence|].
  exists objs. rewrite Htr2, Htr1, <- (assoc_L (++)). done.
Qed.

(** ** Normalization on upsert *)

Lemma normalize_fields r :
  left (normalize r) = left r ∧ top (normalize r) = top r
  ∧ width (normalize r) = width r ∧ height (normalize r) = height r
  ∧ pageIndex (normalize r) = pageIndex r
  ∧ scale (normalize r) = scale r
  ∧ parser (normalize r) = parser r ∧ filepath (normalize r) = filepath r
  ∧ id (normalize r) = id r
  ∧ opacity (normalize r)
    = (if opacity_is_default (opacity r) then Absent else opacity r)
  ∧ rotation (normalize r)
    = (if rotation_is_default (rotation r) then Absent else rotation r).
Proof.
  unfold normalize.
  destruct (opacity_is_default (opacity r)) eqn:Ho;
    destruct (rotation_is_default (rotation _)) eqn:Hr; simpl in *;
    rewrite ?Hr; done.
Qed.


(** ** File drop *)

Lemma page_lookup d p pg :
  pageContainers d !! p = Some pg →
  rectLeftOf d p = rect_left pg ∧ rectTopOf d p = rect_top pg
  ∧ pageIndexOf d p = Z.of_nat (page_num pg).
Proof. intros H. unfold rectLeftOf, rectTopOf, pageIndexOf. by rewrite H. Qed.



(** ** The reconciler and missing pages *)


Lemma closestPage_updateElement d e f el :
  items d !! e = Some el →
  closestPage (updateElement e f d) e = parentElement (f el).
Proof.
  intros H. unfold closestPage, updateElement. simpl.
  by rewrite list_lookup_alter_eq, H.
Qed.

(** *** The reconciler does not touch the store *)

Lemma placeElement_frame id_ e pos s :
  heap (placeElement id_ e pos s) = heap s
  ∧ itemPositions (placeElement id_ e pos s) = itemPositions s
  ∧ positionHistory (placeElement id_ e pos s) = positionHistory s
  ∧ historyIndex (placeElement id_ e pos s) = historyIndex s
  ∧ trace (placeElement id_ e pos s) = trace s.
Proof.
  unfold placeElement.
  destruct (targetPageIndexOf (pageIndex pos) ≫= getPageById (document s));
    [done|].
  by destruct (getPageById (document s) 0).
Qed.

Lemma applyPosition_frame content id_ s :
  heap (applyPosition content id_ s) = heap s
  ∧ itemPositions (applyPosition content id_ s) = itemPositions s
  ∧ positionHistory (applyPosition content id_ s) = positionHistory s
  ∧ historyIndex (applyPosition content id_ s) = historyIndex s
  ∧ trace (applyPosition content id_ s) = trace s.
Proof.
  unfold applyPosition. destruct (get id_ s) as [pos|]; [|done].
  destruct (getElementById (document s) id_) as [e|];
    [apply placeElement_frame|].
  destruct (truthy_string (parser pos) && truthy_string (filepath pos)); [|done].
  destruct (content _ _); [|done].
  match goal with |- context [placeElement ?i ?e ?p ?s1] =>
    destruct (placeElement_frame i e p s1) as (-> & -> & -> & -> & ->) end.
  done.
Qed.

Lemma applyPositions_loop_frame content ids : ∀ s,
  let s' := foldl (λ st id_, applyPosition content id_ st) s ids in
  heap s' = heap s
  ∧ itemPositions s' = itemPositions s
  ∧ positionHistory s' = positionHistory s
  ∧ historyIndex s' = historyIndex s
  ∧ trace s' = trace s.
Proof.
  induction ids as [|i ids IH]; intros s; [done|]. cbn [foldl].
  destruct (IH (applyPosition content i s)) as (-> & -> & -> & -> & ->).
  apply applyPosition_frame.
Qed.

Lemma applyPositions_frame content s :
  heap (applyPositions content s) = heap s
  ∧ itemPositions (applyPositions content s) = itemPositions s
  ∧ positionHistory (applyPositions content s) = positionHistory s
  ∧ historyIndex (applyPositions content s) = historyIndex s
  ∧ trace (applyPositions content s) = trace s.
Proof. apply applyPositions_loop_frame. Qed.












(** ** History pushes and saves *)

Lemma updateItemPosition_frame id_ p s :
  heap s ⊆ heap (updateItemPosition id_ p s)
  ∧ positionHistory (updateItemPosition id_ p s) = positionHistory s
  ∧ historyIndex (updateItemPosition id_ p s) = historyIndex s
  ∧ document (updateItemPosition id_ p s) = document s
  ∧ trace (updateItemPosition id_ p s) = trace s
  ∧ console (updateItemPosition id_ p s) = console s
  ∧ selectedElementId (updateItemPosition id_ p s) = selectedElementId s
  ∧ draggedElement (updateItemPosition id_ p s) = draggedElement s
  ∧ dragOffsetX (updateItemPosition id_ p s) = dragOffsetX s
  ∧ dragOffsetY (updateItemPosition id_ p s) = dragOffsetY s.
Proof.
  by destruct (updateItemPosition_shape id_ p s) as (l & h' & -> & Hsub & _).
Qed.

Lemma updateAndSavePositions_closed s :
  closed s → closed (updateAndSavePositions s).
Proof.
  intros Hc. apply closed_addStateToHistory in Hc.
  unfold updateAndSavePositions.
  destruct (savePositions_frame (addStateToHistory s))
    as (Hh & Ht & Hp & _).
  destruct Hc as [Hc1 Hc2]. split.
  - rewrite Ht. by eapply closed_table_mono.
  - rewrite Hp. eapply Forall_impl; [exact Hc2|].
    intros t ?. by eapply closed_table_mono.
Qed.

(** An upsert followed by [updateAndSavePositions()]: one push of the
    store after the upsert, then one save. *)
Lemma upsert_records_then_saves id_ p s :
  closed s →
  trace (updateItemPosition id_ p s) = trace s
  ∧ records_then_saves s (updateAndSavePositions (updateItemPosition id_ p s)).
Proof.
  intros Hc.
  destruct (updateItemPosition_frame id_ p s) as (_ & _ & _ & _ & Htr & _).
  split; [done|].
  pose proof (closed_updateItemPosition id_ p s Hc) as Hc1.
  destruct (updateAndSavePositions_frame (updateItemPosition id_ p s))
    as (Hh & Ht & _ & objs & Htr2).
  exists objs. rewrite Htr2, Htr.
  by rewrite (store_mono _ _ Hc1 Ht Hh).
Qed.

Lemma closed_set_document d s : closed s → closed (set_document d s).
Proof. done. Qed.

(** A drop that finds its element and a page pushes the history once,
    with the store after the drop, and then saves. *)
Lemma handleDrop_records_then_saves ev s e :
  closed s → draggedElement s = Some e →
  is_Some (match pointerPage ev with
           | Some p => Some p
           | None => closestPage (document s) e
           end) →
  records_then_saves s (handleDrop ev s).
Proof.
  intros Hc He [p Hp]. unfold handleDrop. rewrite He, Hp.
  set (s1 := set_document _ s).
  match goal with
  | |- records_then_saves s (updateAndSavePositions (updateItemPosition ?i ?pd s1)) =>
      destruct (upsert_records_then_saves i pd s1) as [_ H]; [done|]; exact H
  end.
Qed.

(** A wheel tick with a modifier key over an item that has an id does the
    same. *)
Lemma handleWheelTransform_records_then_saves host ev s e el :
  closed s → wheel_target ev = Some e → items (document s) !! e = Some el →
  el_id el ≠ "" → shiftKey ev || ctrlKey ev || altKey ev = true →
  records_then_saves s (handleWheelTransform host ev s).
Proof.
  intros Hc He Hel Hid Hmod. unfold handleWheelTransform.
  rewrite He. simpl. rewrite Hel. simpl.
  destruct (String.eqb_spec (el_id el) ""); [done|].
  set (s0 := match getItemPosition (el_id el) s with
             | Some _ => s | None => _ end).
  assert (H0 : closed s0 ∧ trace s0 = trace s).
  { subst s0. destruct (getItemPosition (el_id el) s); [done|].
    split; [by apply closed_updateItemPosition|].
    by destruct (updateItemPosition_frame (el_id el)
      (set_pageIndex (Value match parentElement el with
          | Some p => pageIndexOf (document s) p | None => 0 end)
        (set_top (Value (if String.eqb (style_top el) "" then "0px" else style_top el))
          (set_left (Value (if String.eqb (style_left el) "" then "0px" else style_left el))
            empty_object))) s) as (_ & _ & _ & _ & ? & _). }
  destruct H0 as [Hc0 Htr0]. clearbody s0.
  unfold records_then_saves. rewrite <- Htr0.
  destruct (shiftKey ev); [|destruct (ctrlKey ev); [|destruct (altKey ev); [|done]]];
  match goal with
  | |- ∃ _, trace (updateAndSavePositions (updateItemPosition ?i ?pd ?s1)) = _ =>
      destruct (upsert_records_then_saves i pd s1) as [_ H]; [done|]; exact H
  end.
Qed.

(** A dropped file that was parsed and finds a page does the same. *)
Lemma addNewItemToPage_records_then_saves
    filename filePath dropX dropY hit parsedData now_ s :
  closed s →
  is_Some (match hit with
           | Some p => Some p
           | None => getPageById (document s) 0
           end) →
  records_then_saves s
    (addNewItemToPage filename filePath dropX dropY hit (Some parsedData)
                      now_ s).
Proof.
  intros Hc [p Hp]. unfold addNewItemToPage. rewrite Hp.
  match goal with
  | |- records_then_saves s (updateAndSavePositions (updateItemPosition ?i ?pd ?s1)) =>
      destruct (upsert_records_then_saves i pd s1) as [_ H]; [done|]; exact H
  end.
Qed.

(** A deletion saves, and may then ask for the file to be deleted, but
    pushes nothing on the history: the stack and the index are as
    before. *)
Lemma handleKeyDown_saves_only ev s selected e :
  selectedElementId s = Some selected → selected ≠ "" →
  key ev = "Delete" ∨ key ev = "Backspace" →
  getElementById (document s) selected = Some e →
  let s' := handleKeyDown ev s in
  positionHistory s' = positionHistory s
  ∧ historyIndex s' = historyIndex s
  ∧ get selected s' = None
  ∧ ∃ objects rest,
      trace s' = trace s ++ SaveRequest objects :: rest
      ∧ (rest = [] ∨ ∃ path, rest = [DeleteFileRequest path]).
Proof.
  intros Hsel Hne Hkey Hel s'. subst s'. unfold handleKeyDown.
  rewrite Hsel, Hel.
  assert (Hb : negb (String.eqb selected "")
               && (String.eqb (key ev) "Delete" || String.eqb (key ev) "Backspace")
               = true).
  { destruct (String.eqb_spec selected ""); [done|]. simpl.
    destruct Hkey as [-> | ->]; [done|]. apply orb_true_r. }
  rewrite Hb.
  set (s1 := deleteItemPosition selected (set_document _ s)).
  destruct (savePositions_frame s1) as (Hh & Ht & Hp & Hi & _ & [objs Htr] & _).
  set (itemFilepath := match get selected s with
                       | Some r => read_property (filepath r) | None => Undefined end).
  assert (Hg : get selected (savePositions s1) = None).
  { unfold get, getItemPosition. rewrite Ht. subst s1. simpl_state.
    by rewrite lookup_delete_eq. }
  destruct (confirmed ev && truthy_string itemFilepath); simpl_state.
  - rewrite Hp, Hi, Htr. split; [done|]. split; [done|]. split.
    + unfold get, getItemPosition in *. simpl_state. exact Hg.
    + exists objs, [DeleteFileRequest (string_or itemFilepath "")].
      rewrite <- (assoc_L (++)). split; [done|]. right. eauto.
  - rewrite Hp, Hi, Htr. split; [done|]. split; [done|]. split.
    + unfold get, getItemPosition in *. simpl_state. exact Hg.
    + exists objs, []. split; [done|]. by left.
Qed.

(** C3, the deletion path at a concrete input: the selected song is
    deleted with the Delete key.  The handler sends one save and pushes
    nothing: the history still has its one snapshot, which still holds the
    deleted item, while the store is empty. *)
Lemma C3_deletion_saves_without_history_push :
  let s := stateWithSongSelected in
  let s' := handleKeyDown deleteKey s in
  trace s' = trace s ++ [SaveRequest []]
  ∧ positionHistory s' = positionHistory s
  ∧ historyIndex s' = historyIndex s
  ∧ store s' = ∅
  ∧ (dom <$> currentSnapshot s') = Some {["song.txt_1700000000000"]}.
Proof.
  cbv zeta. refine (conj _ (conj _ (conj _ (conj _ _))));
    vm_compute; reflexivity.
Qed.

(** ** Concrete inputs *)




Example history_after_150_records :
  let s := Nat.iter 150 addStateToHistory (initialState baseDocument) in
  length (positionHistory s) = 100%nat ∧ historyIndex s = 99.
Proof. cbv zeta. split; vm_compute; reflexivity. Qed.

Lemma C8_three_deep_undo_record_redo :
  length (positionHistory threeDeepAfterUndo) = 3%nat
  ∧ historyIndex threeDeepAfterUndo = 1
  ∧ length (positionHistory (addStateToHistory threeDeepAfterUndo)) = 3%nat
  ∧ redoHistory (addStateToHistory threeDeepAfterUndo)
    = Returned None (addStateToHistory threeDeepAfterUndo).
Proof.
  assert (H1 : length (positionHistory threeDeepAfterUndo) = 3%nat)
    by (vm_compute; reflexivity).
  assert (H2 : historyIndex threeDeepAfterUndo = 1)
    by (vm_compute; reflexivity).
  destruct (C8_record_discards_redo_tail threeDeepAfterUndo)
    as (c & Hp & _ & _ & _ & Hredo).
  - rewrite H2. lia.
  - rewrite H1, H2. lia.
  - rewrite H1. unfold maxHistorySize. lia.
  - refine (conj H1 (conj H2 (conj _ Hredo))).
    rewrite Hp, length_app, length_take, H1, H2. reflexivity.
Defined.



(** ** The default arrangement *)

Lemma same_ids_updateElement e f d :
  (∀ el, el_id (f el) = el_id el) → same_ids d (updateElement e f d).
Proof.
  intros Hf. split; [done|]. unfold updateElement. simpl.
  apply list_eq. intros i. rewrite !list_lookup_fmap.
  destruct (decide (i = e)) as [->|Hne].
  - rewrite list_lookup_alter_eq. destruct (items d !! e); simpl; [|done].
    by rewrite Hf.
  - by rewrite list_lookup_alter_ne.
Qed.

Lemma same_ids_trans d1 d2 d3 :
  same_ids d1 d2 → same_ids d2 d3 → same_ids d1 d3.
Proof. intros [? ?] [? ?]. split; congruence. Qed.

Lemma arranged_refl s : arranged s s.
Proof. by repeat split. Qed.

Lemma arranged_trans s1 s2 s3 :
  arranged s1 s2 → arranged s2 s3 → arranged s1 s3.
Proof.
  intros (? & ? & ? & ? & ? & ?) (? & ? & ? & ? & ? & ?).
  split; [by etrans|]. split; [by etrans|].
  repeat (split; [congruence|]). by eapply same_ids_trans.
Qed.


Lemma arrangeItem_spec W H e c s :
  closed s →
  let r := arrangeItem W H e (c, s) in
  closed r.2 ∧ arranged s r.2
  ∧ (∀ k, is_Some (itemPositions r.2 !! k) →
       is_Some (itemPositions s !! k)
       ∨ el_id <$> items (document s) !! e = Some k)
  ∧ (∀ el, items (document s) !! e = Some el → el_id el ≠ "" →
       is_Some (itemPositions r.2 !! el_id el)).
Proof.
  intros Hc r. subst r. unfold arrangeItem.
  destruct (items (document s) !! e) as [element|] eqn:Hel;
    [|by (split; [|split; [apply arranged_refl|split; [eauto|]]])].
  destruct (String.eqb_spec (el_id element) "") as [Hid|Hid].
  { cbn [snd]. split; [done|]. split; [by repeat split|].
    split; [eauto|]. intros el [= <-]. done. }
  destruct (itemPositions s !! el_id element) as [l0|] eqn:Hk.
  - (* already positioned *)
    assert (Hsome : ∀ el, Some element = Some el → el_id el ≠ "" →
                          is_Some (itemPositions s !! el_id el)).
    { intros el [= <-] _. eauto. }
    destruct (getPageById (document s) _) as [targetPage|]; cbn [snd].
    + split; [done|]. split; [|split; [eauto|done]].
      repeat (split; [done|]). by apply same_ids_updateElement.
    + split; [done|]. split; [apply arranged_refl|]. split; [eauto|done].
  - (* placed by default *)
    set (s1 := set_document (updateElement e (set_style_position "absolute") (document s)) s).
    destruct (advance W H _ _ c) as [c1 overflow].
    set (s2 := if overflow then log (WarnNotEnoughPages (el_id element)) s1 else s1).
    set (fl := (number_to_string (currentLeft c1) +:+ "px")).
    set (ft := (number_to_string (currentTop c1) +:+ "px")).
    set (s3 := set_document (updateElement e _ (document s2)) s2).
    set (pd := set_pageIndex _ _).
    cbn [snd].
    assert (H3 : closed s3 ∧ arranged s s3 ∧ itemPositions s3 = itemPositions s).
    { subst s3 s2 s1. destruct overflow; simpl_state.
      - split; [done|]. split; [|done]. repeat (split; [done|]).
        eapply same_ids_trans; by apply same_ids_updateElement.
      - split; [done|]. split; [|done]. repeat (split; [done|]).
        eapply same_ids_trans; by apply same_ids_updateElement. }
    destruct H3 as (Hc3 & Ha3 & Ht3). clearbody s3. clear s2 s1.
    destruct (updateItemPosition_shape (el_id element) pd s3)
      as (l & h' & Hu & Hsub & Hl & Hl').
    pose proof (closed_updateItemPosition (el_id element) pd s3 Hc3) as Hcu.
    rewrite Hu in *. simpl_state.
    split; [done|]. split; [|split].
    + eapply arranged_trans; [exact Ha3|].
      split; [done|]. split; [|by repeat split]. simpl_state.
      apply insert_subseteq. by rewrite Ht3.
    + intros k. rewrite Ht3. destruct (decide (k = el_id element)) as [->|Hne].
      * by right.
      * rewrite lookup_insert_ne by done. by left.
    + intros el [= <-] _. rewrite lookup_insert_eq. eauto.
Qed.

Lemma arrange_loop_spec W H es : ∀ c s,
  closed s →
  let r := foldl (λ acc e, arrangeItem W H e acc) (c, s) es in
  closed r.2 ∧ arranged s r.2
  ∧ (∀ k, is_Some (itemPositions r.2 !! k) →
       is_Some (itemPositions s !! k)
       ∨ ∃ e, e ∈ es ∧ el_id <$> items (document s) !! e = Some k)
  ∧ (∀ e el, e ∈ es → items (document s) !! e = Some el → el_id el ≠ "" →
       is_Some (itemPositions r.2 !! el_id el)).
Proof.
  induction es as [|e es IH]; intros c s Hc r; subst r.
  - simpl. split; [done|]. split; [apply arranged_refl|].
    split; [eauto|]. intros e el He. by apply elem_of_nil in He.
  - cbn [foldl].
    destruct (arrangeItem_spec W H e c s Hc) as (Hc1 & Ha1 & Hnew1 & Hhas1).
    destruct (arrangeItem W H e (c, s)) as [c1 s1]. cbn [snd] in *.
    destruct (IH c1 s1 Hc1) as (Hc2 & Ha2 & Hnew2 & Hhas2).
    assert (Hids : ∀ i, el_id <$> items (document s1) !! i
                        = el_id <$> items (document s) !! i).
    { intros i. destruct Ha1 as (_ & _ & _ & _ & _ & _ & Hids).
      by rewrite <- !list_lookup_fmap, Hids. }
    split; [done|]. split; [by eapply arranged_trans|]. split.
    + intros k Hk. destruct (Hnew2 k Hk) as [Hk1|(e' & He' & Hk1)].
      * destruct (Hnew1 k Hk1) as [?|?]; [by left|].
        right. exists e. split; [by left|done].
      * right. exists e'. split; [by right|]. by rewrite <- Hids.
    + intros e' el He' Hel Hid. apply elem_of_cons in He' as [->|He'].
      * destruct (Hhas1 el Hel Hid) as [l Hl].
        destruct Ha2 as (_ & Ht2 & _). exists l. by eapply lookup_weaken.
      * pose proof (Hids e') as Hi. rewrite Hel in Hi. simpl in Hi.
        destruct (items (document s1) !! e') as [el1|] eqn:Hel1; [|done].
        simpl in Hi. injection Hi as Hi. rewrite <- Hi.
        apply (Hhas2 e' el1 He' Hel1). by rewrite Hi.
Qed.


(** ** Loading *)






(** ** Stored opacities *)

Lemma ltb_leb x y : PrimFloat.ltb x y = true → PrimFloat.leb x y = true.
Proof.
  rewrite ltb_spec, leb_spec. unfold SFltb, SFleb.
  by destruct (SFcompare _ _) as [[]|].
Qed.

Lemma Math_max_0 y :
  Math_max 0 y
  = if PrimFloat.is_nan y then PrimFloat.nan
    else if PrimFloat.ltb 0 y then y else 0%float.
Proof.
  unfold Math_max.
  change (PrimFloat.is_nan 0) with false.
  change (PrimFloat.is_zero 0 && PrimFloat.get_sign 0) with false.
  simpl. destruct (PrimFloat.is_nan y); [done|].
  destruct (PrimFloat.ltb 0 y); [done|]. by destruct (PrimFloat.ltb y 0).
Qed.

(** What the opacity branch of the wheel handler stores is in range. *)
Lemma nextOpacity_in_range style d :
  let c := nextOpacity style d in
  opacity_in_range (if PrimFloat.ltb c 1 then Value c else Undefined) = true.
Proof.
  intros c. subst c. unfold nextOpacity. rewrite Math_max_0.
  set (y := Math_min 1 _).
  destruct (PrimFloat.is_nan y); [done|].
  destruct (PrimFloat.ltb 0 y) eqn:Hy.
  - destruct (PrimFloat.ltb y 1) eqn:H1; [|done]. simpl.
    by rewrite (ltb_leb _ _ Hy), H1.
  - done.
Qed.

Lemma in_range_finite x :
  PrimFloat.leb 0 x = true → PrimFloat.ltb x 1 = true →
  PrimFloat.is_finite x = true.
Proof.
  unfold PrimFloat.is_finite, PrimFloat.is_nan, PrimFloat.is_infinity.
  rewrite leb_spec, ltb_spec, !FloatAxioms.eqb_spec, abs_spec.
  change (Prim2SF 0) with (S754_zero false).
  change (Prim2SF infinity) with (S754_infinity false).
  destruct (Prim2SF x) as [s|s| |s m e]; try done.
  - by destruct s.
  - destruct s; [done|]. intros _ _. unfold SFeqb. simpl.
    by rewrite Z.compare_refl, Pos.compare_cont_refl.
Qed.

Lemma json_number_in_range p :
  opacity_in_range p = true → opacity_in_range (json_number p) = true.
Proof.
  destruct p as [| | |x]; try done. simpl.
  intros [H0 H1]%andb_true_iff. rewrite (in_range_finite x H0 H1).
  destruct (PrimFloat.is_zero x); [done|]. simpl. by rewrite H0, H1.
Qed.

Lemma records_ok_json v : records_ok v → records_ok (json_record <$> v).
Proof.
  intros H k r. rewrite lookup_fmap.
  destruct (v !! k) as [r0|] eqn:Hk; [|done]. simpl. intros [= <-].
  simpl. apply json_number_in_range. by eapply H.
Qed.

Lemma records_ok_insert k r v :
  opacity_in_range (opacity r) = true → records_ok v →
  records_ok (<[k := r]> v).
Proof.
  intros Hr Hv k' r'. destruct (decide (k' = k)) as [->|Hne].
  - rewrite lookup_insert_eq. by intros [= <-].
  - rewrite lookup_insert_ne by done. apply Hv.
Qed.

Lemma records_ok_subseteq v v' : v' ⊆ v → records_ok v → records_ok v'.
Proof. intros Hs Hv k r Hk. eapply Hv. by eapply lookup_weaken. Qed.

Lemma history_ok_mono h h' (hist : list (gmap string loc)) :
  h ⊆ h' → Forall (closed_table h) hist →
  Forall (λ t, records_ok (contents h t)) hist →
  Forall (λ t, records_ok (contents h' t)) hist.
Proof.
  intros Hsub Hc Hok. rewrite Forall_forall in *. intros t Ht.
  rewrite (contents_mono h h' t); [by apply Hok|by apply Hc|done].
Qed.

Lemma closed_mono_history h h' (hist : list (gmap string loc)) :
  h ⊆ h' → Forall (closed_table h) hist → Forall (closed_table h') hist.
Proof.
  intros Hsub Hc. eapply Forall_impl; [exact Hc|].
  intros t ?. by eapply closed_table_mono.
Qed.

(** Steps that only add objects and leave the tables alone keep the
    invariant. *)
Lemma opacity_invariant_frame s s' :
  opacity_invariant s →
  heap s ⊆ heap s' → itemPositions s' = itemPositions s →
  positionHistory s' = positionHistory s →
  opacity_invariant s'.
Proof.
  intros ([Hc1 Hc2] & Hs & Hh) Hsub Ht Hp.
  split; [|split].
  - split; rewrite ?Ht, ?Hp.
    + by eapply closed_table_mono.
    + by eapply closed_mono_history.
  - rewrite (store_mono s s'); done.
  - rewrite Hp. by eapply history_ok_mono.
Qed.

Lemma normalize_in_range existing p :
  opacity_in_range (opacity existing) = true → partial_ok p →
  opacity_in_range (opacity (normalize (spread existing p))) = true.
Proof.
  intros He Hp.
  destruct (normalize_fields (spread existing p))
    as (_ & _ & _ & _ & _ & _ & _ & _ & _ & -> & _).
  destruct (opacity_is_default (opacity (spread existing p))) eqn:Hd; [done|].
  unfold partial_ok in Hp.
  simpl in *. destruct (opacity p) eqn:Hop; simpl in *; try done.
  - by destruct Hp.
  - destruct Hp as [Hp|Hp]; [done|congruence].
Qed.

Lemma existing_or_default_in_range id_ s :
  opacity_invariant s →
  opacity_in_range (opacity (existing_or_default id_ s)) = true.
Proof.
  intros ([Hc _] & Hs & _). unfold existing_or_default.
  destruct (itemPositions s !! id_) as [l|] eqn:Hl; [|done].
  destruct (Hc _ _ Hl) as [r Hr]. rewrite Hr. simpl.
  apply (Hs id_ r). unfold store. rewrite contents_lookup, Hl. done.
Qed.

Lemma opacity_invariant_updateItemPosition id_ p s :
  opacity_invariant s → partial_ok p →
  opacity_invariant (updateItemPosition id_ p s).
Proof.
  intros Hinv Hp. pose proof Hinv as (Hc & Hs & Hh).
  split; [by apply closed_updateItemPosition|]. split.
  - rewrite store_updateItemPosition by done.
    apply records_ok_insert; [|done].
    apply normalize_in_range; [|done]. by apply existing_or_default_in_range.
  - destruct (updateItemPosition_frame id_ p s) as (Hsub & -> & _).
    eapply history_ok_mono; [done|apply Hc|done].
Qed.

Lemma opacity_invariant_deleteItemPosition id_ s :
  opacity_invariant s → opacity_invariant (deleteItemPosition id_ s).
Proof.
  intros (Hc & Hs & Hh). split; [by apply closed_deleteItemPosition|].
  split; [|done]. intros k r. unfold store. simpl_state.
  rewrite contents_lookup. destruct (decide (k = id_)) as [->|Hne].
  - by rewrite lookup_delete_eq.
  - rewrite lookup_delete_ne by done. rewrite <- contents_lookup. apply Hs.
Qed.

Lemma opacity_invariant_addStateToHistory s :
  opacity_invariant s → opacity_invariant (addStateToHistory s).
Proof.
  intros Hinv. pose proof Hinv as (Hc & Hs & Hh).
  split; [by apply closed_addStateToHistory|].
  destruct (deepCopy (itemPositions s) (heap s)) as [c h] eqn:Hd.
  destruct (deepCopy_spec _ _ _ _ Hd) as (Hsub & Hcont & _).
  destruct (addStateToHistory_frame s) as (Hsub' & Ht' & _).
  split; [by rewrite (store_mono s (addStateToHistory s))|].
  rewrite (addStateToHistory_eq _ _ _ Hd). cbn zeta. simpl_state.
  assert (Hall : Forall (λ t, records_ok (contents h t)) (positionHistory s ++ [c])).
  { apply Forall_app. split.
    - eapply history_ok_mono; [done|apply Hc|done].
    - constructor; [|done]. rewrite Hcont. by apply records_ok_json. }
  assert (Hsl : Forall (λ t, records_ok (contents h t))
       ((if historyIndex s <? Z.of_nat (length (positionHistory s)) - 1
         then slice0 (historyIndex s + 1) (positionHistory s)
         else positionHistory s) ++ [c])).
  { apply Forall_app in Hall as [H1 H2]. apply Forall_app. split; [|done].
    destruct (_ <? _); [|done]. unfold slice0.
    destruct (_ <? 0); by apply Forall_take. }
  destruct (maxHistorySize <? _); [by apply Forall_drop|done].
Qed.

Lemma opacity_invariant_savePositions s :
  opacity_invariant s → opacity_invariant (savePositions s).
Proof.
  intros Hinv. destruct (savePositions_frame s) as (Hh & Ht & Hp & _).
  by eapply opacity_invariant_frame.
Qed.

Lemma opacity_invariant_updateAndSavePositions s :
  opacity_invariant s → opacity_invariant (updateAndSavePositions s).
Proof.
  intros Hinv. unfold updateAndSavePositions.
  by apply opacity_invariant_savePositions, opacity_invariant_addStateToHistory.
Qed.

Lemma opacity_invariant_restoreFromHistory s :
  opacity_invariant s → opacity_invariant (final_state (restoreFromHistory s)).
Proof.
  intros Hinv. pose proof Hinv as (Hc & Hs & Hh).
  destruct (index (positionHistory s) (historyIndex s)) as [snap|] eqn:Hi;
    [|unfold restoreFromHistory; by rewrite Hi].
  destruct (deepCopy snap (heap s)) as [c h] eqn:Hd.
  rewrite (restoreFromHistory_eq _ _ _ _ Hi Hd). simpl.
  destruct (deepCopy_spec _ _ _ _ Hd) as (Hsub & Hcont & _).
  pose proof (closed_snapshot _ _ _ Hc Hi) as Hcs.
  apply index_Some in Hi as [_ Hi].
  split; [|split].
  - split; simpl_state.
    + by eapply deepCopy_closed.
    + eapply closed_mono_history; [done|apply Hc].
  - unfold store. simpl_state. rewrite Hcont. apply records_ok_json.
    rewrite Forall_lookup in Hh. by eapply Hh.
  - simpl_state. eapply history_ok_mono; [done|apply Hc|done].
Qed.

Lemma opacity_invariant_set_historyIndex i s :
  opacity_invariant s → opacity_invariant (set_historyIndex i s).
Proof. done. Qed.

Lemma opacity_invariant_undoHistory s :
  opacity_invariant s → opacity_invariant (final_state (undoHistory s)).
Proof.
  intros Hinv. unfold undoHistory. destruct (0 <? historyIndex s); [|done].
  by apply opacity_invariant_restoreFromHistory.
Qed.

Lemma opacity_invariant_redoHistory s :
  opacity_invariant s → opacity_invariant (final_state (redoHistory s)).
Proof.
  intros Hinv. unfold redoHistory. destruct (_ <? _); [|done].
  by apply opacity_invariant_restoreFromHistory.
Qed.

Lemma opacity_invariant_initializeHistory s :
  opacity_invariant s →
  opacity_invariant (initializeHistory (itemPositions s) s).
Proof.
  intros Hinv. pose proof Hinv as (Hc & Hs & Hh).
  split; [apply closed_initializeHistory; [done|apply Hc]|].
  destruct (deepCopy (itemPositions s) (heap s)) as [c h] eqn:Hd.
  destruct (deepCopy_spec _ _ _ _ Hd) as (Hsub & Hcont & _).
  rewrite (initializeHistory_eq _ _ _ _ Hd). split.
  - rewrite (store_mono s); done.
  - simpl_state. constructor; [|done]. rewrite Hcont. by apply records_ok_json.
Qed.

Lemma opacity_invariant_applyPositions content s :
  opacity_invariant s → opacity_invariant (applyPositions content s).
Proof.
  intros Hinv.
  destruct (applyPositions_frame content s) as (Hh & Ht & Hp & _).
  eapply opacity_invariant_frame; [done|by rewrite Hh|done|done].
Qed.

(** *** Every handler keeps the invariant *)

Lemma opacity_invariant_upsert_and_save id_ p s :
  opacity_invariant s → partial_ok p →
  opacity_invariant (updateAndSavePositions (updateItemPosition id_ p s)).
Proof.
  intros Hinv Hp.
  by apply opacity_invariant_updateAndSavePositions,
           opacity_invariant_updateItemPosition.
Qed.

Lemma opacity_invariant_handleWheelTransform host ev s :
  opacity_invariant s → opacity_invariant (handleWheelTransform host ev s).
Proof.
  intros Hinv. unfold handleWheelTransform.
  destruct (wheel_target ev ≫= _) as [[e targetItem]|]; [|done].
  destruct (String.eqb (el_id targetItem) ""); [done|].
  set (s0 := match getItemPosition (el_id targetItem) s with
             | Some _ => s | None => _ end).
  assert (H0 : opacity_invariant s0).
  { subst s0. destruct (getItemPosition (el_id targetItem) s); [done|].
    apply opacity_invariant_updateItemPosition; [done|]. by left. }
  clearbody s0.
  destruct (shiftKey ev).
  { apply opacity_invariant_upsert_and_save; [done|]. left.
    apply (nextOpacity_in_range (style_opacity targetItem) (deltaY ev)). }
  destruct (ctrlKey ev).
  { apply opacity_invariant_upsert_and_save; [done|]. by left. }
  destruct (altKey ev); [|done].
  apply opacity_invariant_upsert_and_save; [done|]. by left.
Qed.

Lemma read_property_in_range p :
  opacity_in_range p = true → opacity_in_range (read_property p) = true.
Proof. by destruct p. Qed.

Lemma get_in_range id_ r s :
  opacity_invariant s → get id_ s = Some r →
  opacity_in_range (opacity r) = true.
Proof.
  intros (_ & Hs & _) Hg. apply (Hs id_ r).
  unfold store. by rewrite contents_lookup.
Qed.

Lemma opacity_invariant_handleDrop ev s :
  opacity_invariant s → opacity_invariant (handleDrop ev s).
Proof.
  intros Hinv. unfold handleDrop.
  destruct (draggedElement s) as [e|]; [|done].
  destruct (match pointerPage ev with Some p => Some p | None => _ end)
    as [pageContainer|]; [|done].
  apply opacity_invariant_upsert_and_save; [done|]. left. simpl.
  set (itemId := default "" _).
  change (get itemId (set_document _ s)) with (get itemId s).
  destruct (get itemId s) as [r|] eqn:Hg; [|done].
  apply read_property_in_range. by eapply get_in_range.
Qed.

Lemma opacity_invariant_addNewItemToPage
    filename filePath dropX dropY hit parsedData now_ s :
  opacity_invariant s →
  opacity_invariant
    (addNewItemToPage filename filePath dropX dropY hit parsedData now_ s).
Proof.
  intros Hinv. unfold addNewItemToPage.
  destruct parsedData as [parsedData|]; [|done].
  destruct (match hit with Some p => Some p | None => _ end)
    as [targetPage|]; [|done].
  apply opacity_invariant_upsert_and_save; [done|]. right.
  by destruct (parsed_width parsedData), (parsed_height parsedData).
Qed.

Lemma opacity_invariant_handleFileDrop files dropX dropY hit s :
  opacity_invariant s →
  opacity_invariant (handleFileDrop files dropX dropY hit s).
Proof.
  intros Hinv. unfold handleFileDrop.
  destruct (draggedElement s); [done|].
  revert s Hinv. induction files as [|f files IH]; intros s Hinv; [done|].
  cbn [foldl]. apply IH. destruct (uploaded_path f); [|done].
  by apply opacity_invariant_addNewItemToPage.
Qed.

Lemma opacity_invariant_handleKeyDown ev s :
  opacity_invariant s → opacity_invariant (handleKeyDown ev s).
Proof.
  intros Hinv. unfold handleKeyDown.
  destruct (selectedElementId s) as [selected|]; [|done].
  destruct (negb _ && _); [|done].
  destruct (getElementById (document s) selected); [|done].
  set (s1 := savePositions _).
  assert (H1 : opacity_invariant s1).
  { subst s1. apply opacity_invariant_savePositions.
    by apply opacity_invariant_deleteItemPosition. }
  clearbody s1. by destruct (confirmed ev && _).
Qed.

Lemma opacity_invariant_handleUndoRedoKeys content ev s :
  opacity_invariant s → opacity_invariant (handleUndoRedoKeys content ev s).
Proof.
  intros Hinv. unfold handleUndoRedoKeys.
  assert (Hafter : ∀ c : Completion (option (gmap string loc)),
    opacity_invariant (final_state c) →
    opacity_invariant match c with
                      | Returned (Some _) s' => savePositions (applyPositions content s')
                      | Returned None s' => s'
                      | Thrown s' => s'
                      end).
  { intros [[t|] s'|s'] H; simpl in H; [|done|done].
    by apply opacity_invariant_savePositions, opacity_invariant_applyPositions. }
  destruct (key_ctrlKey ev && String.eqb (key ev) "z").
  { by apply Hafter, opacity_invariant_undoHistory. }
  destruct (key_ctrlKey ev && String.eqb (key ev) "y"); [|done].
  by apply Hafter, opacity_invariant_redoHistory.
Qed.

Lemma opacity_invariant_setItem id_ r s :
  opacity_invariant s → opacity_in_range (opacity r) = true →
  opacity_invariant (setItem id_ r s).
Proof.
  intros ([Hc1 Hc2] & Hs & Hh) Hr. rewrite setItem_shape.
  pose proof (fresh_heap_None (heap s)) as Hl.
  pose proof (insert_fresh_subseteq r (heap s)) as Hsub.
  set (l := fresh (dom (heap s))) in *.
  split; [|split]; simpl_state.
  - split; simpl_state.
    + intros k l'. destruct (decide (k = id_)) as [->|Hne].
      * rewrite lookup_insert_eq. intros [= <-]. rewrite lookup_insert_eq. eauto.
      * rewrite lookup_insert_ne by done. intros Hk.
        by eapply closed_table_mono.
    + by eapply closed_mono_history.
  - intros k r'. unfold store. simpl_state. rewrite contents_lookup.
    destruct (decide (k = id_)) as [->|Hne].
    + rewrite lookup_insert_eq. simpl. rewrite lookup_insert_eq. by intros [= <-].
    + rewrite lookup_insert_ne by done.
      destruct (itemPositions s !! k) as [l'|] eqn:Hk; [|done]. simpl.
      destruct (Hc1 k l' Hk) as [r0 Hr0].
      rewrite (lookup_weaken _ _ _ _ Hr0 Hsub). intros [= <-].
      apply (Hs k r0). unfold store. by rewrite contents_lookup, Hk.
  - by eapply history_ok_mono.
Qed.

Lemma opacity_invariant_clearItemPositions s :
  opacity_invariant s → opacity_invariant (clearItemPositions s).
Proof.
  intros ([Hc1 Hc2] & Hs & Hh). split; [|split]; simpl_state; [|done|done].
  split; [|done]. by intros k l.
Qed.

Lemma opacity_invariant_arrangeItem W H e c s :
  opacity_invariant s → opacity_invariant (arrangeItem W H e (c, s)).2.
Proof.
  intros Hinv. unfold arrangeItem.
  destruct (items (document s) !! e) as [element|]; [|done].
  destruct (String.eqb (el_id element) ""); [done|].
  destruct (itemPositions s !! el_id element).
  - by destruct (getPageById (document s) _).
  - destruct (advance W H _ _ c) as [c1 overflow]. cbn [snd].
    apply opacity_invariant_updateItemPosition; [|by left].
    by destruct overflow.
Qed.

Lemma opacity_invariant_arrange_loop W H es : ∀ c s,
  opacity_invariant s →
  opacity_invariant (foldl (λ acc e, arrangeItem W H e acc) (c, s) es).2.
Proof.
  induction es as [|e es IH]; intros c s Hinv; [done|]. cbn [foldl].
  pose proof (opacity_invariant_arrangeItem W H e c s Hinv) as H1.
  destruct (arrangeItem W H e (c, s)) as [c1 s1]. by apply IH.
Qed.

Lemma opacity_invariant_initializeDefaultPositions s :
  opacity_invariant s → opacity_invariant (initializeDefaultPositions s).
Proof.
  intros Hinv. unfold initializeDefaultPositions.
  destruct (pageContainers (document s)) as [|first rest]; [done|].
  match goal with |- context [foldl ?f ?a ?l] =>
    pose proof (opacity_invariant_arrange_loop
                  (page_offsetWidth first) (page_offsetHeight first)
                  l (mkCursor padding padding 0) s Hinv) as H1;
    destruct (foldl f a l) as [c1 s1] end.
  by apply opacity_invariant_initializeHistory.
Qed.

Lemma opacity_invariant_loadItem s entry :
  opacity_invariant s → opacity_in_range (opacity entry.2) = true →
  opacity_invariant (loadItem s entry).
Proof.
  intros Hinv Hok. destruct entry as [suffix itemData]. unfold loadItem.
  destruct (negb _ && negb _); [done|].
  destruct (truthy_string (id itemData)).
  { by apply (opacity_invariant_setItem _ itemData s). }
  destruct (String.eqb _ "").
  - by apply (opacity_invariant_setItem _ itemData (log _ s)).
  - by apply (opacity_invariant_setItem _ itemData s).
Qed.

Lemma opacity_invariant_load_loop entries : ∀ s,
  opacity_invariant s →
  Forall (λ e : string * ItemPosition, opacity_in_range (opacity e.2) = true)
         entries →
  opacity_invariant (foldl loadItem s entries).
Proof.
  induction entries as [|e es IH]; intros s Hinv Hall; [done|].
  apply Forall_cons in Hall as [He Hes]. cbn [foldl]. apply IH; [|done].
  by apply opacity_invariant_loadItem.
Qed.

Lemma opacity_invariant_loadPositions content suffixes r s :
  opacity_invariant s → loaded_in_range r →
  opacity_invariant (loadPositions content suffixes r s).
Proof.
  intros Hinv Hr. unfold loadPositions.
  assert (Hcatch : opacity_invariant
            (initializeDefaultPositions (log ErrorLoadingPositions s))).
  { by apply opacity_invariant_initializeDefaultPositions. }
  destruct r as [|status body]; [done|].
  destruct (response_ok status).
  - destruct body as [objects|]; [|done].
    apply opacity_invariant_initializeHistory, opacity_invariant_applyPositions.
    apply opacity_invariant_load_loop.
    + by apply opacity_invariant_clearItemPositions.
    + simpl in Hr. clear -Hr. apply Forall_lookup.
      intros i [suffix o] Hi.
      apply list_lookup_imap_Some in Hi as (o' & Ho & [= _ <-]).
      by apply (Forall_lookup_1 _ _ _ _ Hr Ho).
  - destruct (status =? 404); [|done].
    by apply opacity_invariant_initializeDefaultPositions.
Qed.

(** *** Reachable states *)

Lemma opacity_invariant_initialState d : opacity_invariant (initialState d).
Proof.
  split; [apply closed_initialState|]. split; [|by constructor].
  intros k r. unfold store. by rewrite contents_lookup.
Qed.

Lemma opacity_invariant_perform g s :
  opacity_invariant s → opacity_invariant (perform g s).
Proof.
  intros Hinv. destruct g; simpl.
  - by apply opacity_invariant_handleWheelTransform.
  - unfold handleClick. destruct (target ≫= _); [done|].
    by destruct (selectedElementId s).
  - unfold handleDragStart. destruct (drag_target ev); [|done].
    by destruct (closestPage _ _).
  - unfold handleDragOver. destruct (draggedElement s); [|done].
    by destruct (match pointerPage ev with Some p => Some p | None => _ end).
  - by apply opacity_invariant_handleDrop.
  - unfold handleDragEnd. by destruct (draggedElement s).
  - by apply opacity_invariant_handleUndoRedoKeys,
             opacity_invariant_handleKeyDown.
  - by apply opacity_invariant_handleFileDrop.
Qed.

Lemma reachable_opacity_invariant d s :
  reachable d s → opacity_invariant s.
Proof.
  induction 1 as [|content suffixes r s _ IH Hr|g s _ IH].
  - apply opacity_invariant_initialState.
  - by apply opacity_invariant_loadPositions.
  - by apply opacity_invariant_perform.
Qed.

(** C4. In every reachable state, a record of the store
    either has no opacity (the property is missing or holds [undefined])
    or holds a number [x] with [0 <= x < 1]. *)
Theorem C4_stored_opacity_in_range (d : Document) (s : State)
    (id_ : string) (r : ItemPosition) :
  reachable d s → get id_ s = Some r →
  opacity r = Absent ∨ opacity r = Undefined
  ∨ ∃ x, opacity r = Value x
         ∧ PrimFloat.leb 0 x = true ∧ PrimFloat.ltb x 1 = true.
Proof.
  intros Hreach Hget.
  pose proof (get_in_range id_ r s (reachable_opacity_invariant d s Hreach) Hget)
    as Hok.
  destruct (opacity r) as [| | |x]; [by left|by right; left|done|].
  right. right. exists x. simpl in Hok.
  apply andb_true_iff in Hok as [H0 H1]. done.
Qed.

(** One wheel tick down with Shift after the drop: 0.95, in range. *)
Lemma C4_one_tick_in_range :
  let s := perform (Wheel anyHost shiftWheelDown)
             (perform (FileDrop [songFile] 150 300 (Some 1%nat))
                      (initialState baseDocument)) in
  ∃ r, get "song.txt_1700000000000" s = Some r
       ∧ (opacity r = Absent ∨ opacity r = Undefined
          ∨ ∃ x, opacity r = Value x
                 ∧ PrimFloat.leb 0 x = true ∧ PrimFloat.ltb x 1 = true).
Proof.
  cbv zeta.
  assert (Hg : is_Some (get "song.txt_1700000000000"
             (perform (Wheel anyHost shiftWheelDown)
                (perform (FileDrop [songFile] 150 300 (Some 1%nat))
                   (initialState baseDocument))))) by (vm_compute; eauto).
  destruct Hg as [r Hr]. exists r. split; [exact Hr|].
  refine (C4_stored_opacity_in_range baseDocument _ _ r _ Hr).
  apply reachable_gesture, reachable_gesture, reachable_start.
Defined.

(** C4, counterexample to the open lower bound: twenty wheel ticks down with Shift on
    a fully opaque item store the opacity 0, which is not above 0. *)
Lemma C4_counterexample_opacity_zero :
  let s := Nat.iter 20 (perform (Wheel anyHost shiftWheelDown))
             (perform (FileDrop [songFile] 150 300 (Some 1%nat))
                      (initialState baseDocument)) in
  reachable baseDocument s
  ∧ (opacity <$> get "song.txt_1700000000000" s) = Some (Value 0%float)
  ∧ PrimFloat.ltb 0 0 = false.
Proof.
  cbv zeta. refine (conj _ (conj _ _)).
  - generalize 20%nat. intros n. induction n as [|n IH].
    + apply reachable_gesture, reachable_start.
    + by apply reachable_gesture.
  - vm_compute. reflexivity.
  - vm_compute. reflexivity.
Qed.

(** * Further properties of the code *)

(** ** Identifiers *)

Lemma list_ascii_of_string_app a b :
  list_ascii_of_string (a +:+ b)
  = list_ascii_of_string a ++ list_ascii_of_string b.
Proof. induction a as [|c a IH]; [done|]. simpl. by rewrite <- IH. Qed.

Lemma all_chars_app p a b :
  all_chars p (a +:+ b) = all_chars p a && all_chars p b.
Proof. unfold all_chars. by rewrite list_ascii_of_string_app, forallb_app. Qed.

Lemma list_ascii_of_map_string f s :
  list_ascii_of_string (map_string f s) = map f (list_ascii_of_string s).
Proof. induction s as [|c s IH]; [done|]. simpl. by rewrite IH. Qed.

Lemma all_chars_map_string p f s :
  (∀ c, p (f c) = true) → all_chars p (map_string f s) = true.
Proof.
  intros H. unfold all_chars. rewrite list_ascii_of_map_string.
  apply forallb_forall. intros c Hc. apply in_map_iff in Hc as (c' & <- & _).
  apply H.
Qed.

Lemma pretty_N_char_digit x : is_digit (pretty_N_char x) = true.
Proof. unfold pretty_N_char. by repeat case_match. Qed.

Lemma pretty_N_go_digits x : ∀ s,
  all_chars is_digit s = true → all_chars is_digit (pretty_N_go x s) = true.
Proof.
  induction (N.lt_wf_0 x) as [x _ IH]; intros s Hs.
  assert (x = 0 ∨ 0 < x)%N as [->|?] by lia.
  - by rewrite pretty_N_go_0.
  - rewrite pretty_N_go_step by done. apply IH; [by apply N.div_lt|].
    unfold all_chars in *. simpl. by rewrite pretty_N_char_digit.
Qed.

Lemma pretty_N_digits (x : N) : all_chars is_digit (pretty x) = true.
Proof.
  unfold pretty, pretty_N. case_decide; [done|]. by apply pretty_N_go_digits.
Qed.

Lemma pretty_Z_digits (z : Z) : 0 ≤ z → all_chars is_digit (pretty z) = true.
Proof.
  intros Hz. destruct z as [|p|p]; [done| |lia].
  apply (pretty_N_digits (Npos p)).
Qed.

Lemma is_digit_id_char c : is_digit c = true → is_id_char c = true.
Proof.
  unfold is_digit, is_id_char, is_alnum. intros ->. done.
Qed.

Lemma all_chars_impl (p q : ascii → bool) s :
  (∀ c, p c = true → q c = true) → all_chars p s = true → all_chars q s = true.
Proof.
  unfold all_chars. intros H Hs. apply forallb_forall. intros c Hc.
  apply H. by eapply forallb_forall in Hs.
Qed.

(** X1. Every character of an identifier made by [getItemId] is a letter, a
    digit, a period, a space or an underscore, as long as the clock does
    not run before 1970. *)
Theorem getItemId_characters (filename : string) (now_ : Z) :
  0 ≤ now_ → all_chars is_id_char (getItemId filename now_) = true.
Proof.
  intros Hnow. unfold getItemId. rewrite !all_chars_app.
  rewrite all_chars_map_string.
  - simpl. eapply all_chars_impl; [apply is_digit_id_char|].
    by apply pretty_Z_digits.
  - intros c.
    destruct (is_alnum c || Ascii.eqb c "." || Ascii.eqb c " ") eqn:E; [|done].
    unfold is_id_char. by rewrite E.
Qed.

Lemma getItemId_characters_song :
  all_chars is_id_char (getItemId "my song (1).txt" 1700000000000) = true.
Proof. apply getItemId_characters. lia. Defined.

(** A string is determined by what follows its last underscore when that
    part has none. *)
Lemma split_at_last_underscore (a1 a2 p1 p2 : list ascii) :
  a1 ++ underscore :: p1 = a2 ++ underscore :: p2 →
  underscore ∉ p1 → underscore ∉ p2 → a1 = a2 ∧ p1 = p2.
Proof.
  revert a2. induction a1 as [|c a1 IH]; intros [|c2 a2] H H1 H2;
    simplify_eq/=.
  - done.
  - exfalso. apply H1. apply elem_of_app. right. left.
  - exfalso. apply H2. apply elem_of_app. right. left.
  - destruct (IH a2) as [-> ->]; done.
Qed.

Lemma list_ascii_of_string_inj a b :
  list_ascii_of_string a = list_ascii_of_string b → a = b.
Proof.
  intros H. rewrite <- (string_of_list_ascii_of_string a),
    <- (string_of_list_ascii_of_string b). by rewrite H.
Qed.

Lemma digits_no_underscore s :
  all_chars is_digit s = true → underscore ∉ list_ascii_of_string s.
Proof.
  unfold all_chars. intros H Hin. apply list_elem_of_In in Hin.
  eapply forallb_forall in H; [|exact Hin]. done.
Qed.

(** X2. Two identifiers made by [getItemId] at different instants differ,
    whatever the file names: the timestamp is what follows the last
    underscore. *)
Theorem getItemId_injective (f1 f2 : string) (t1 t2 : Z) :
  0 ≤ t1 → 0 ≤ t2 → getItemId f1 t1 = getItemId f2 t2 → t1 = t2.
Proof.
  intros H1 H2 H. unfold getItemId in H.
  apply (f_equal list_ascii_of_string) in H.
  rewrite !list_ascii_of_string_app in H. simpl in H.
  apply split_at_last_underscore in H as [_ H].
  - apply list_ascii_of_string_inj in H. by apply (inj pretty).
  - by apply digits_no_underscore, pretty_Z_digits.
  - by apply digits_no_underscore, pretty_Z_digits.
Qed.

Lemma getItemId_injective_witness :
  getItemId "a/b.txt" 7 = getItemId "a_b.txt" 7 ∧ (7 : Z) = 7.
Proof.
  split; [reflexivity|].
  exact (getItemId_injective "a/b.txt" "a_b.txt" 7 7 ltac:(lia) ltac:(lia)
           eq_refl).
Defined.

(** ** File names *)

Lemma map_string_compose f g s :
  map_string f (map_string g s) = map_string (λ c, f (g c)) s.
Proof. induction s as [|c s IH]; [done|]. simpl. by rewrite IH. Qed.

Lemma map_string_fixed (p : ascii → bool) f s :
  (∀ c, p c = true → f c = c) → all_chars p s = true → map_string f s = s.
Proof.
  intros Hf. unfold all_chars. induction s as [|c s IH]; [done|]. simpl.
  intros [Hc Hs]%andb_true_iff. by rewrite Hf, IH.
Qed.

Lemma split_last_dot_None after l :
  forallb (λ c, negb (is_dot c)) l = true → split_last_dot after l = None.
Proof.
  revert after. induction l as [|c l IH]; intros after H; [done|].
  simpl in *. apply andb_true_iff in H as [Hc Hl].
  destruct (is_dot c); [done|]. by apply IH.
Qed.

Lemma remove_extension_no_dot s :
  all_chars (λ c, negb (is_dot c)) s = true → remove_extension s = s.
Proof.
  unfold all_chars, remove_extension. intros H.
  rewrite split_last_dot_None; [done|].
  apply forallb_forall. intros c Hc. apply in_rev in Hc.
  by eapply forallb_forall in H.
Qed.

Lemma sanitize_char c :
  let keep c := if is_alnum c || Ascii.eqb c "-" then c else underscore in
  let lower c := if is_upper c then ascii_of_nat (nat_of_ascii c + 32) else c in
  is_sanitized_char (lower (keep (keep c))) = true.
Proof. by destruct c as [[] [] [] [] [] [] [] []]. Qed.

Lemma sanitized_char_fixed c :
  is_sanitized_char c = true →
  (if is_alnum c || Ascii.eqb c "-" then c else underscore) = c
  ∧ (if is_upper c then ascii_of_nat (nat_of_ascii c + 32) else c) = c
  ∧ is_dot c = false.
Proof. by destruct c as [[] [] [] [] [] [] [] []]. Qed.

Lemma sanitizeFilename_all_chars (filename : string) :
  all_chars is_sanitized_char (sanitizeFilename filename) = true.
Proof.
  unfold sanitizeFilename, toLowerCase. rewrite !map_string_compose.
  apply all_chars_map_string. intros c. apply sanitize_char.
Qed.

(** X3. A sanitized file name consists of lower-case letters, digits,
    hyphens and underscores only, and has as many characters as the name
    without its extension. *)
Theorem sanitizeFilename_characters (filename : string) :
  all_chars is_sanitized_char (sanitizeFilename filename) = true
  ∧ String.length (sanitizeFilename filename)
    = String.length (remove_extension filename).
Proof.
  split; [apply sanitizeFilename_all_chars|].
  unfold sanitizeFilename, toLowerCase. rewrite !map_string_compose.
  generalize (remove_extension filename). intros s.
  induction s as [|c s IH]; [done|]. cbn. by rewrite IH.
Qed.

(** X4. Sanitizing a sanitized file name changes nothing: no extension is
    left to cut, and every character is one that is kept. *)
Theorem sanitizeFilename_idempotent (filename : string) :
  sanitizeFilename (sanitizeFilename filename) = sanitizeFilename filename.
Proof.
  pose proof (sanitizeFilename_all_chars filename) as H.
  generalize dependent (sanitizeFilename filename). intros s H.
  unfold sanitizeFilename, toLowerCase.
  rewrite remove_extension_no_dot.
  - rewrite !map_string_compose.
    apply (map_string_fixed is_sanitized_char); [|done].
    intros c Hc. destruct (sanitized_char_fixed c Hc) as (E1 & E2 & _).
    cbv beta. by rewrite !E1, E2.
  - eapply all_chars_impl; [|exact H].
    intros c Hc. by destruct (sanitized_char_fixed c Hc) as (_ & _ & ->).
Qed.

(** ** The store as a finite map *)





(** X7. What the store operations do later never changes what a snapshot
    of the history holds. *)
Theorem snapshots_immune_to_mutations (s : State) (ms : list Mutation) :
  closed s →
  let s' := foldl mutate s ms in
  contents (heap s') <$> positionHistory s'
  = contents (heap s) <$> positionHistory s.
Proof.
  intros Hc s'. subst s'.
  destruct (mutations_spec ms s Hc) as (_ & Hh & -> & _).
  destruct Hc as [_ Hc].
  induction Hc as [|t ts Ht _ IH]; [done|].
  rewrite !fmap_cons, IH. f_equal. by apply contents_mono.
Qed.

Lemma snapshots_immune_witness :
  let s := stateWithSong in
  let s' := foldl mutate s
              [Upsert "song.txt_1700000000000"
                 (set_left (Value "1px") empty_object); Clear] in
  contents (heap s') <$> positionHistory s'
  = contents (heap s) <$> positionHistory s.
Proof.
  apply snapshots_immune_to_mutations.
  apply updateAndSavePositions_closed, closed_updateItemPosition.
  apply closed_set_document, closed_initialState.
Defined.

(** ** What is sent to the server *)









(** ** Loading *)

Lemma get_store k s : get k s = store s !! k.
Proof. unfold get, getItemPosition, store. by rewrite contents_lookup. Qed.





Lemma initializeHistory_spec s :
  closed s →
  let s' := initializeHistory (itemPositions s) s in
  closed s'
  ∧ historyIndex s' = 0
  ∧ length (positionHistory s') = 1%nat
  ∧ currentSnapshot s' = Some (json_record <$> store s')
  ∧ store s' = store s
  ∧ trace s' = trace s
  ∧ document s' = document s.
Proof.
  intros Hc s'. subst s'.
  pose proof (closed_initializeHistory (itemPositions s) s Hc (proj1 Hc)) as Hc'.
  destruct (deepCopy (itemPositions s) (heap s)) as [c h] eqn:Hd.
  rewrite (initializeHistory_eq _ _ _ _ Hd) in *.
  destruct (deepCopy_spec _ _ _ _ Hd) as (Hsub & Hcont & _).
  set (s' := set_historyIndex 0 _) in *.
  assert (Hst : store s' = store s) by (by apply store_mono).
  split; [done|]. split; [reflexivity|]. split; [reflexivity|].
  split; [|done].
  rewrite Hst. unfold currentSnapshot, store. subst s'. simpl_state.
  unfold index. simpl. by rewrite Hcont.
Qed.












(** ** Dragging an item *)





(** [handleDrop] over a page, for an element being dragged. *)
Lemma handleDrop_spec ev s e el p pg :
  draggedElement s = Some e →
  items (document s) !! e = Some el →
  pointerPage ev = Some p →
  pageContainers (document s) !! p = Some pg →
  let s' := handleDrop ev s in
  let partial :=
    let existing {A} (f : ItemPosition → property A) : property A :=
      match get (el_id el) s with
      | Some r => read_property (f r)
      | None => Undefined
      end in
    set_rotation (existing rotation)
      (set_opacity (existing opacity)
         (set_width (existing width)
            (set_pageIndex (Value (Z.of_nat (page_num pg)))
               (set_top (Value (px (clientY ev - rect_top pg - dragOffsetY s)))
                  (set_left
                     (Value (px (clientX ev - rect_left pg - dragOffsetX s)))
                     empty_object))))) in
  get (el_id el) s'
  = Some (normalize (spread (existing_or_default (el_id el) s) partial))
  ∧ closestPage (document s') e = Some p.
Proof.
  intros Hd Hel Hp Hpg s' partial. subst s' partial. unfold handleDrop.
  rewrite Hd, Hp. cbv zeta.
  set (s1 := set_document _ s).
  assert (Hpc : pageContainers (document s1) = pageContainers (document s))
    by done.
  assert (Hel1 : el_id <$> items (document s1) !! e = Some (el_id el)).
  { subst s1. simpl_state. unfold updateElement. cbn [items].
    by rewrite list_lookup_alter_eq, Hel. }
  rewrite Hel1. cbn [default from_option]. unfold Datatypes.id.
  assert (Hg : get (el_id el) s1 = get (el_id el) s) by done.
  rewrite Hg.
  assert (Hpi : pageIndexOf (document s1) p = Z.of_nat (page_num pg)).
  { unfold pageIndexOf. by rewrite Hpc, Hpg. }
  rewrite Hpi.
  destruct (page_lookup _ _ _ Hpg) as (-> & -> & _).
  match goal with
  | |- context [updateAndSavePositions (updateItemPosition ?i ?x s1)] =>
      set (pd := x)
  end.
  destruct (updateAndSavePositions_frame (updateItemPosition (el_id el) pd s1))
    as (Hh & Ht & Hdoc & _).
  split.
  - eapply get_mono; [exact Ht|exact Hh|].
    rewrite get_updateItemPosition. do 3 f_equal.
  - rewrite Hdoc.
    destruct (updateItemPosition_frame (el_id el) pd s1) as (_ & _ & _ & -> & _).
    subst s1. simpl_state.
    by rewrite (closestPage_updateElement _ _ _ el).
Qed.



Lemma existing_or_default_get id_ s r :
  get id_ s = Some r → existing_or_default id_ s = r.
Proof.
  unfold get, getItemPosition, existing_or_default.
  destruct (itemPositions s !! id_) as [l|]; [|done]. simpl. by intros ->.
Qed.

(** X12. A drop changes the position and the page of a record and nothing
    else: height, scale, parser, filepath and id are as before; width,
    opacity and rotation hold what they held (a missing one now holds
    [undefined]), except that an opacity of 1 or more and a rotation of 0
    are removed. *)
Theorem handleDrop_preserves_properties
    (ev : DragEvent) (s : State) (e : nat) (el : Element) (p : nat)
    (pg : Page) (r : ItemPosition) :
  draggedElement s = Some e →
  items (document s) !! e = Some el →
  pointerPage ev = Some p →
  pageContainers (document s) !! p = Some pg →
  get (el_id el) s = Some r →
  ∃ r',
    get (el_id el) (handleDrop ev s) = Some r'
    ∧ height r' = height r ∧ scale r' = scale r
    ∧ parser r' = parser r ∧ filepath r' = filepath r ∧ id r' = id r
    ∧ width r' = read_property (width r)
    ∧ opacity r'
      = (if opacity_is_default (opacity r) then Absent
         else read_property (opacity r))
    ∧ rotation r'
      = (if rotation_is_default (rotation r) then Absent
         else read_property (rotation r)).
Proof.
  intros Hd Hel Hp Hpg Hr.
  destruct (handleDrop_spec ev s e el p pg Hd Hel Hp Hpg) as [Hget _].
  cbv zeta in Hget. rewrite Hr, (existing_or_default_get _ _ _ Hr) in Hget.
  eexists. split; [exact Hget|].
  match goal with |- context [normalize ?m] =>
    destruct (normalize_fields m)
      as (_ & _ & -> & -> & _ & -> & -> & -> & -> & -> & ->) end.
  cbn [spread height scale parser filepath id width opacity rotation
       set_left set_top set_pageIndex set_width set_opacity set_rotation
       empty_object spread_property].
  repeat (split; [done|]).
  split; [by destruct (width r)|].
  split; [by destruct (opacity r)|by destruct (rotation r)].
Qed.

Lemma handleDrop_preserves_witness :
  let s := handleDragStart (mkDragEvent 150 300 (Some 0%nat) None 100 280)
                           stateWithSong in
  ∃ r',
    get "song.txt_1700000000000"
        (handleDrop (mkDragEvent 10 10 None (Some 0%nat) 0 0) s) = Some r'
    ∧ scale r' = Value "1" ∧ filepath r' = Value "/user/song.txt".
Proof.
  cbv zeta.
  destruct (handleDrop_preserves_properties
              (mkDragEvent 10 10 None (Some 0%nat) 0 0)
              (handleDragStart (mkDragEvent 150 300 (Some 0%nat) None 100 280)
                               stateWithSong)
              0
              (mkElement "song.txt_1700000000000" (Some 1%nat) (Some "song.txt")
                         (Some "chord") "absolute" "100px" "280px" "" "" None ""
                         240)
              0 (mkPage 0 50 (-1143) 794 1123)
              (mkItemPosition (Value "100px") (Value "280px") Absent Absent
                              (Value 1) Absent (Value "1") Absent
                              (Value "chord") (Value "/user/song.txt") Absent))
    as (r' & H1 & _ & H2 & _ & H3 & _).
  - reflexivity.
  - vm_compute. reflexivity.
  - reflexivity.
  - reflexivity.
  - vm_compute. reflexivity.
  - exists r'. split; [exact H1|]. split; [exact H2|exact H3].
Defined.

(** ** Wheel gestures *)

(** The record that the handler makes sure of before it looks at the
    modifier keys. *)
Lemma wheel_ensure_record id_ pd s :
  closed s →
  let s0 := match getItemPosition id_ s with
            | Some _ => s
            | None => updateItemPosition id_ pd s
            end in
  closed s0
  ∧ is_Some (getItemPosition id_ s0)
  ∧ heap s ⊆ heap s0
  ∧ positionHistory s0 = positionHistory s ∧ historyIndex s0 = historyIndex s
  ∧ trace s0 = trace s ∧ document s0 = document s
  ∧ (∀ k r, get k s = Some r → get k s0 = Some r)
  ∧ (rotation pd = Absent → rotation_of id_ s0 = rotation_of id_ s).
Proof.
  intros Hc s0. subst s0.
  destruct (getItemPosition id_ s) as [l|] eqn:Hl.
  { rewrite Hl.
    refine (conj Hc (conj _ (conj _ (conj _ (conj _ (conj _ (conj _ (conj _ _))))))));
      eauto. }
  destruct (updateItemPosition_frame id_ pd s)
    as (Hh & Hp & Hi & Hd & Ht & _).
  split; [by apply closed_updateItemPosition|].
  split.
  { pose proof (get_updateItemPosition id_ pd s) as Hg.
    unfold get in Hg.
    destruct (getItemPosition id_ (updateItemPosition id_ pd s)); [eauto|].
    cbn in Hg. discriminate Hg. }
  refine (conj Hh (conj Hp (conj Hi (conj Ht (conj Hd (conj _ _)))))).
  - intros k r Hk. rewrite get_store in *.
    rewrite store_updateItemPosition by done.
    destruct (decide (k = id_)) as [->|Hne]; [|by rewrite lookup_insert_ne].
    rewrite <- get_store in Hk. unfold get in Hk. by rewrite Hl in Hk.
  - intros Hrot. unfold rotation_of. rewrite get_updateItemPosition.
    unfold get. rewrite Hl. cbn [default mbind option_bind].
    unfold existing_or_default. unfold getItemPosition in Hl. rewrite Hl.
    unfold Datatypes.id.
    destruct (normalize_fields (spread default_position pd))
      as (_ & _ & _ & _ & _ & _ & _ & _ & _ & _ & ->).
    cbn [spread rotation default_position set_top set_left empty_object
         spread_property]. by rewrite Hrot.
Qed.



Lemma rotation_of_upsert id_ pd s :
  rotation pd ≠ Absent →
  rotation_of id_ (updateItemPosition id_ pd s) = Z_or (rotation pd) 0.
Proof.
  intros Hr. unfold rotation_of. rewrite get_updateItemPosition.
  cbn [default from_option]. unfold Datatypes.id.
  destruct (normalize_fields (spread (existing_or_default id_ s) pd))
    as (_ & _ & _ & _ & _ & _ & _ & _ & _ & _ & ->).
  cbn [spread rotation spread_property].
  destruct (rotation pd) as [| | |z]; [done..|].
  cbn [spread_property]. unfold rotation_is_default, Z_or.
  by destruct (z =? 0) eqn:E; rewrite ?E.
Qed.

Lemma scale_of_upsert id_ pd s :
  scale pd = Absent → is_Some (getItemPosition id_ s) →
  scale_of id_ (updateItemPosition id_ pd s) = scale_of id_ s.
Proof.
  intros Hs [l Hl]. unfold scale_of. rewrite get_updateItemPosition.
  cbn [default from_option]. unfold Datatypes.id.
  destruct (normalize_fields (spread (existing_or_default id_ s) pd))
    as (_ & _ & _ & _ & _ & -> & _).
  cbn [spread scale spread_property]. rewrite Hs.
  unfold existing_or_default, get. unfold getItemPosition in *. rewrite Hl.
  done.
Qed.


(** One tick with Alt held over an item. *)
Lemma alt_wheel_step host e up el s :
  closed s → items (document s) !! e = Some el → el_id el ≠ "" →
  let s' := handleWheelTransform host (altWheel e up) s in
  closed s'
  ∧ (∃ el', items (document s') !! e = Some el' ∧ el_id el' = el_id el
            ∧ style_transform el'
              = transform_of (rotation_of (el_id el) s')
                             (scale_of (el_id el) s'))
  ∧ rotation_of (el_id el) s'
    = rotation_of (el_id el) s + (if up then rotateStep else - rotateStep).
Proof.
  intros Hc Hel Hid s'. subst s'. unfold handleWheelTransform, altWheel.
  cbn [wheel_target shiftKey ctrlKey altKey deltaY mbind option_bind].
  rewrite Hel. cbn [fmap option_fmap option_map].
  destruct (String.eqb_spec (el_id el) "") as [|_]; [done|].
  match goal with
  | |- context [updateItemPosition (el_id el) ?pd s] =>
      destruct (wheel_ensure_record (el_id el) pd s Hc)
        as (Hc0 & Hsome & _ & _ & _ & _ & Hd0 & _ & Hrot0);
      specialize (Hrot0 eq_refl)
  end.
  cbv zeta in *.
  set (s0 := match getItemPosition (el_id el) s with
             | Some _ => s | None => _ end) in *.
  clearbody s0.
  assert (Hdelta : (if PrimFloat.ltb (if up then (-1)%float else 1%float) 0
                    then rotateStep else - rotateStep)
                   = (if up then rotateStep else - rotateStep))
    by (by destruct up).
  rewrite Hdelta. clear Hdelta.
  fold (rotation_of (el_id el) s0). fold (scale_of (el_id el) s0).
  rewrite Hrot0.
  set (new := rotation_of (el_id el) s + (if up then rotateStep else - rotateStep)).
  set (s1 := set_document _ s0).
  assert (Hc1 : closed s1) by (by apply closed_set_document).
  match goal with
  | |- context [updateAndSavePositions (updateItemPosition _ ?x s1)] =>
      set (pd := x)
  end.
  assert (Hrpd : rotation pd = if new =? 0 then Undefined else Value new)
    by done.
  assert (Hsome1 : is_Some (getItemPosition (el_id el) s1)) by done.
  pose proof (rotation_of_upsert (el_id el) pd s1) as Hro.
  pose proof (scale_of_upsert (el_id el) pd s1 eq_refl Hsome1) as Hso.
  assert (Hgs : get (el_id el) s1 = get (el_id el) s0) by done.
  assert (scale_of (el_id el) s1 = scale_of (el_id el) s0) as Hso1
    by (unfold scale_of; by rewrite Hgs).
  set (s2 := updateItemPosition (el_id el) pd s1) in *.
  assert (Hc2 : closed s2) by (by apply closed_updateItemPosition).
  assert (Hg2 : is_Some (get (el_id el) s2)).
  { subst s2. rewrite get_updateItemPosition. eauto. }
  destruct (updateAndSavePositions_frame s2) as (Hh3 & Ht3 & Hd3 & _).
  assert (Hg3 : get (el_id el) (updateAndSavePositions s2) = get (el_id el) s2).
  { destruct Hg2 as [r Hr]. rewrite Hr. by eapply get_mono. }
  assert (Hr3 : rotation_of (el_id el) (updateAndSavePositions s2) = new).
  { unfold rotation_of. rewrite Hg3. fold (rotation_of (el_id el) s2).
    rewrite Hro; [|rewrite Hrpd; by destruct (new =? 0)].
    rewrite Hrpd. destruct (new =? 0) eqn:E; cbn; [lia|]. by rewrite E. }
  split; [by apply updateAndSavePositions_closed|]. split; [|done].
  rewrite Hd3.
  destruct (updateItemPosition_frame (el_id el) pd s1) as (_ & _ & _ & Hd2 & _).
  fold s2 in Hd2. rewrite Hd2. subst s1. simpl_state.
  unfold updateElement. cbn [items]. rewrite Hd0, list_lookup_alter_eq, Hel.
  eexists. split; [reflexivity|]. split; [done|].
  cbn [style_transform set_style_transform]. rewrite Hr3.
  unfold scale_of at 2. rewrite Hg3. fold (scale_of (el_id el) s2).
  by rewrite Hso, Hso1.
Qed.

(** X14. With Alt held every wheel tick turns the item by five degrees, up
    one way and down the other, without bound and without wrapping at 360:
    after any sequence of ticks the rotation that the record stands for is
    the earlier one plus five times the ticks up minus the ticks down, and
    after at least one tick the element's transform shows that rotation
    and the record's scale. *)
Theorem alt_wheel_rotation (host : Host) (e : nat) (el : Element)
    (dirs : list bool) (s : State) :
  closed s → items (document s) !! e = Some el → el_id el ≠ "" →
  let s' := foldl (λ st up, handleWheelTransform host (altWheel e up) st)
                  s dirs in
  rotation_of (el_id el) s'
  = rotation_of (el_id el) s + rotateStep * net_ticks dirs
  ∧ (dirs ≠ [] →
     ∃ el', items (document s') !! e = Some el'
            ∧ style_transform el'
              = transform_of (rotation_of (el_id el) s')
                             (scale_of (el_id el) s')).
Proof.
  intros Hc Hel Hid s'. subst s'.
  cut (let s' := foldl (λ st up, handleWheelTransform host (altWheel e up) st)
                       s dirs in
       closed s'
       ∧ (∃ el', items (document s') !! e = Some el' ∧ el_id el' = el_id el
                 ∧ (dirs ≠ [] →
                    style_transform el'
                    = transform_of (rotation_of (el_id el) s')
                                   (scale_of (el_id el) s')))
       ∧ rotation_of (el_id el) s'
         = rotation_of (el_id el) s + rotateStep * net_ticks dirs).
  { intros (_ & (el' & H1 & _ & H2) & H3). split; [done|]. eauto. }
  induction dirs as [|up dirs IH] using rev_ind.
  { cbn. split; [done|]. split; [|unfold rotateStep; lia].
    exists el. split; [done|]. split; [done|]. by intros []. }
  rewrite foldl_app. cbn [foldl].
  destruct IH as (Hc' & (el' & Hel' & Hid' & _) & Hrot').
  set (s1 := foldl _ s dirs) in *.
  destruct (alt_wheel_step host e up el' s1 Hc' Hel') as (Hc2 & Hx & Hr2);
    [congruence|].
  rewrite Hid' in *.
  split; [done|]. split.
  - destruct Hx as (el2 & H1 & H2 & H3). exists el2. eauto.
  - rewrite Hr2, Hrot'.
    assert (net_ticks (dirs ++ [up]) = net_ticks dirs + (if up then 1 else -1))
      as ->.
    { unfold net_ticks. rewrite foldr_app. cbn [foldr].
      assert (∀ z, foldr (λ (up : bool) n, (if up then 1 else -1) + n) z dirs
                   = foldr (λ (up : bool) n, (if up then 1 else -1) + n) 0 dirs
                     + z) as Hz.
      { clear. induction dirs as [|d dirs IH]; intros z; cbn [foldr]; [lia|].
        rewrite IH. lia. }
      rewrite Hz. lia. }
    unfold rotateStep. destruct up; lia.
Qed.

Lemma alt_wheel_rotation_witness :
  let s' := foldl (λ st up, handleWheelTransform anyHost (altWheel 0 up) st)
                  stateWithSong [true; true; false] in
  rotation_of "song.txt_1700000000000" s' = 5.
Proof.
  refine (proj1 (alt_wheel_rotation anyHost 0
                   (mkElement "song.txt_1700000000000" (Some 1%nat)
                      (Some "song.txt") (Some "chord") "absolute" "100px"
                      "280px" "" "" None "" 240)
                   [true; true; false] stateWithSong _ _ _)).
  - apply updateAndSavePositions_closed, closed_updateItemPosition.
    apply closed_set_document, closed_initialState.
  - reflexivity.
  - discriminate.
Defined.




(** ** Keys: undo, redo, delete *)

Lemma closed_frame s s' :
  closed s → heap s ⊆ heap s' → itemPositions s' = itemPositions s →
  positionHistory s' = positionHistory s → closed s'.
Proof.
  intros [H1 H2] Hh Hi Hp. split.
  - rewrite Hi. by eapply closed_table_mono.
  - rewrite Hp. by eapply closed_mono_history.
Qed.

(** What follows a restoration in [handleUndoRedoKeys]. *)
Lemma apply_and_save_frame content s :
  let s' := savePositions (applyPositions content s) in
  heap s ⊆ heap s'
  ∧ itemPositions s' = itemPositions s
  ∧ positionHistory s' = positionHistory s
  ∧ historyIndex s' = historyIndex s
  ∧ ∃ objects, trace s' = trace s ++ [SaveRequest objects].
Proof.
  destruct (applyPositions_frame content s) as (H1 & H2 & H3 & H4 & H5).
  destruct (savePositions_frame (applyPositions content s))
    as (K1 & K2 & K3 & K4 & _ & (objects & K5) & _).
  cbv zeta. rewrite <- H1 at 1. rewrite K2, K3, K4, K5, H2, H3, H4, H5.
  eauto 10.
Qed.

Lemma restoreFromHistory_frame s :
  positionHistory (final_state (restoreFromHistory s)) = positionHistory s
  ∧ trace (final_state (restoreFromHistory s)) = trace s.
Proof.
  unfold restoreFromHistory.
  destruct (index (positionHistory s) (historyIndex s)) as [snap|]; [|done].
  by destruct (deepCopy snap (heap s)).
Qed.

Lemma undo_redo_after_frame content
    (c : Completion (option (gmap string loc))) s :
  (positionHistory (final_state c) = positionHistory s
   ∧ trace (final_state c) = trace s) →
  let s' := match c with
            | Returned (Some _) s' => savePositions (applyPositions content s')
            | Returned None s' => s'
            | Thrown s' => s'
            end in
  positionHistory s' = positionHistory s
  ∧ (trace s' = trace s ∨ ∃ objects, trace s' = trace s ++ [SaveRequest objects]).
Proof.
  intros [Hp Ht]. destruct c as [[t|] st|st]; cbn [final_state] in *;
    [|by eauto..].
  destruct (apply_and_save_frame content st) as (_ & _ & H3 & _ & objects & H5).
  cbv zeta in *. rewrite H3, H5, Hp, Ht. eauto.
Qed.

(** X16. The undo and redo keys never change the history stack and never
    push on it: whatever the key, the list of snapshots is as before, and
    the handler sends one save (after a restoration) or nothing.  With
    nothing to undo, Ctrl+Z changes nothing at all, and so does Ctrl+Y
    with nothing to redo. *)
Theorem undo_redo_keys_keep_history
    (content : string → string → option Z) (ev : KeyboardEvent) (s : State) :
  let s' := handleUndoRedoKeys content ev s in
  positionHistory s' = positionHistory s
  ∧ (trace s' = trace s ∨ ∃ objects, trace s' = trace s ++ [SaveRequest objects])
  ∧ (key ev = "z" → historyIndex s ≤ 0 → s' = s)
  ∧ (key ev = "y" →
     Z.of_nat (length (positionHistory s)) - 1 ≤ historyIndex s → s' = s).
Proof.
  cbv zeta. unfold handleUndoRedoKeys.
  destruct (key_ctrlKey ev && String.eqb (key ev) "z") eqn:Ez.
  { apply andb_true_iff in Ez as [_ Ez%String.eqb_eq].
    assert (Hfr : positionHistory (final_state (undoHistory s)) = positionHistory s
                  ∧ trace (final_state (undoHistory s)) = trace s).
    { unfold undoHistory. destruct (0 <? historyIndex s); [|done].
      apply (restoreFromHistory_frame (set_historyIndex _ s)). }
    destruct (undo_redo_after_frame content _ s Hfr) as [H1 H2].
    split; [exact H1|]. split; [exact H2|]. split.
    - intros _ Hi. by rewrite undoHistory_at_bottom.
    - intros Hy. rewrite Ez in Hy. discriminate Hy. }
  destruct (key_ctrlKey ev && String.eqb (key ev) "y") eqn:Ey.
  { apply andb_true_iff in Ey as [_ Ey%String.eqb_eq].
    assert (Hfr : positionHistory (final_state (redoHistory s)) = positionHistory s
                  ∧ trace (final_state (redoHistory s)) = trace s).
    { unfold redoHistory.
      destruct (historyIndex s <? _); [|done].
      apply (restoreFromHistory_frame (set_historyIndex _ s)). }
    destruct (undo_redo_after_frame content _ s Hfr) as [H1 H2].
    split; [exact H1|]. split; [exact H2|]. split.
    - intros Hz. rewrite Ey in Hz. discriminate Hz.
    - intros _ Hi. by rewrite redoHistory_at_top. }
  split; [done|]. split; [by left|]. by split.
Qed.

(** X17. On a well-formed history Ctrl+Z followed by Ctrl+Y comes back to
    where it started: the index is the same, the store holds the snapshot
    under it as [JSON] reads it, and two saves were sent, one after each
    restoration. *)
Theorem ctrl_z_then_ctrl_y
    (content : string → string → option Z) (s : State) :
  closed s →
  0 < historyIndex s < Z.of_nat (length (positionHistory s)) →
  let s1 := handleUndoRedoKeys content (ctrlKeyPress "z") s in
  let s2 := handleUndoRedoKeys content (ctrlKeyPress "y") s1 in
  historyIndex s1 = historyIndex s - 1
  ∧ historyIndex s2 = historyIndex s
  ∧ (∃ snapshot, currentSnapshot s = Some snapshot
                 ∧ store s2 = json_record <$> snapshot)
  ∧ ∃ o1 o2, trace s2 = trace s ++ [SaveRequest o1; SaveRequest o2].
Proof.
  intros Hc Hi s1 s2. subst s2 s1. unfold handleUndoRedoKeys, ctrlKeyPress.
  cbn [key key_ctrlKey andb String.eqb Ascii.eqb Bool.eqb].
  destruct (index_is_Some (positionHistory s) (historyIndex s - 1)) as [snapU HU];
    [lia|].
  destruct (index_is_Some (positionHistory s) (historyIndex s)) as [snap Hsnap];
    [lia|].
  destruct (undoHistory_spec s snapU Hc) as
    (c1 & sU & EU & _ & HiU & HpU & HhU & HcU & _ & _ & HtU & _); [lia|done|].
  rewrite EU.
  destruct (apply_and_save_frame content sU) as (F1 & F2 & F3 & F4 & o1 & F5).
  cbv zeta in F1, F2, F3, F4, F5.
  set (s1 := savePositions (applyPositions content sU)) in *.
  assert (Hc1 : closed s1) by (by eapply closed_frame).
  assert (Hsnap1 : index (positionHistory s1) (historyIndex s1 + 1) = Some snap).
  { rewrite F3, F4, HpU, HiU. by replace (historyIndex s - 1 + 1) with (historyIndex s) by lia. }
  destruct (redoHistory_spec s1 snap Hc1) as
    (c2 & sR & ER & _ & HiR & HpR & HhR & HcR & HsR & _ & HtR & _);
    [rewrite F3, F4, HpU, HiU; lia|done|].
  rewrite ER.
  destruct (apply_and_save_frame content sR) as (G1 & G2 & G3 & G4 & o2 & G5).
  cbv zeta in G1, G2, G3, G4, G5.
  split; [by rewrite F4|]. split; [rewrite G4, HiR, F4, HiU; lia|]. split.
  - exists (contents (heap s) snap). split.
    { unfold currentSnapshot. by rewrite Hsnap. }
    rewrite (store_mono sR) by done. rewrite HsR. f_equal.
    apply contents_mono; [by eapply closed_snapshot|]. by etrans.
  - exists o1, o2. rewrite G5, HtR, F5, HtU. by rewrite <- (assoc_L (++)).
Qed.

Lemma ctrl_z_then_ctrl_y_witness :
  let s := Nat.iter 2 (handleWheelTransform anyHost shiftWheelDown) stateWithSong in
  let s1 := handleUndoRedoKeys noContent (ctrlKeyPress "z") s in
  let s2 := handleUndoRedoKeys noContent (ctrlKeyPress "y") s1 in
  historyIndex s1 = historyIndex s - 1 ∧ historyIndex s2 = historyIndex s.
Proof.
  cbv zeta.
  destruct (ctrl_z_then_ctrl_y noContent
              (Nat.iter 2 (handleWheelTransform anyHost shiftWheelDown)
                 stateWithSong)) as (H1 & H2 & _).
  - assert (closed stateWithSong) as Hc.
    { apply updateAndSavePositions_closed, closed_updateItemPosition.
      apply closed_set_document, closed_initialState. }
    assert (∀ st, closed st → closed (handleWheelTransform anyHost shiftWheelDown st)) as Hstep.
    { intros st Hst. unfold handleWheelTransform.
      destruct (wheel_target _ ≫= _) as [[e t]|]; [|done].
      destruct (String.eqb (el_id t) ""); [done|].
      cbn [shiftKey shiftWheelDown].
      apply updateAndSavePositions_closed, closed_updateItemPosition.
      apply closed_set_document.
      destruct (getItemPosition (el_id t) st); [done|].
      by apply closed_updateItemPosition. }
    cbn [Nat.iter]. by apply Hstep, Hstep.
  - vm_compute. split; reflexivity.
  - split; [exact H1|exact H2].
Defined.

Lemma store_deleteItemPosition id_ s :
  store (deleteItemPosition id_ s) = delete id_ (store s).
Proof.
  unfold store, contents, deleteItemPosition. simpl_state.
  apply map_eq. intros k. rewrite lookup_omap.
  destruct (decide (k = id_)) as [->|Hne].
  - by rewrite !lookup_delete_eq.
  - by rewrite !lookup_delete_ne, lookup_omap.
Qed.

(** X18. Clicking an item and pressing Delete or Backspace removes that
    item and nothing else: its record leaves the store, every other record
    stays, the element leaves the document, the selection is cleared.  One
    save is sent, followed by a request to delete the file exactly when
    the dialog was confirmed and the record named a file.  The history is
    not touched. *)
Theorem click_then_delete_removes_item
    (ev : KeyboardEvent) (s : State) (e : nat) (el : Element) :
  closed s →
  items (document s) !! e = Some el → el_id el ≠ "" →
  getElementById (document s) (el_id el) = Some e →
  key ev = "Delete" ∨ key ev = "Backspace" →
  let s' := handleKeyDown ev (handleClick (Some e) s) in
  store s' = delete (el_id el) (store s)
  ∧ selectedElementId s' = None
  ∧ closestPage (document s') e = None
  ∧ positionHistory s' = positionHistory s
  ∧ historyIndex s' = historyIndex s
  ∧ ∃ objects,
      trace s'
      = trace s ++ SaveRequest objects
          :: match get (el_id el) s with
             | Some r =>
                 if confirmed ev && truthy_string (filepath r)
                 then [DeleteFileRequest (string_or (filepath r) "")]
                 else []
             | None => []
             end.
Proof.
  intros Hc Hel Hid Hfind Hkey s'. subst s'.
  unfold handleClick. cbn [mbind option_bind]. rewrite Hel.
  unfold handleKeyDown. simpl_state.
  destruct (String.eqb_spec (el_id el) "") as [|_]; [done|].
  assert ((String.eqb (key ev) "Delete" || String.eqb (key ev) "Backspace")
          = true) as ->.
  { destruct Hkey as [-> | ->]; by rewrite ?String.eqb_refl, ?orb_true_r. }
  cbn [negb andb]. rewrite Hfind.
  change (get (el_id el) (setSelectedElementId (Some (el_id el)) s))
    with (get (el_id el) s).
  set (s1 := set_document _ (setSelectedElementId _ s)).
  set (s2 := deleteItemPosition (el_id el) s1).
  assert (Hc2 : closed s2).
  { apply closed_deleteItemPosition. by apply closed_set_document. }
  destruct (savePositions_frame s2)
    as (Hh & Hi & Hp & Hx & Hd & (objects & Ht) & _).
  set (itemFilepath := match get (el_id el) s with
                       | Some r => read_property (filepath r)
                       | None => Undefined
                       end).
  set (s3 := savePositions s2) in *.
  assert (Hst : store s3 = delete (el_id el) (store s)).
  { rewrite (store_mono s2) by done. subst s2.
    by rewrite store_deleteItemPosition. }
  assert (Hdoc : closestPage (document s3) e = None).
  { rewrite Hd. subst s2 s1. simpl_state.
    by rewrite (closestPage_updateElement _ _ _ el). }
  assert (Hfp : (confirmed ev && truthy_string itemFilepath
                 = match get (el_id el) s with
                   | Some r => confirmed ev && truthy_string (filepath r)
                   | None => false
                   end)
                ∧ string_or itemFilepath ""
                  = match get (el_id el) s with
                    | Some r => string_or (filepath r) ""
                    | None => ""
                    end).
  { subst itemFilepath. destruct (get (el_id el) s) as [r|].
    - by destruct (filepath r).
    - by rewrite andb_false_r. }
  destruct Hfp as [Hfp1 Hfp2]. rewrite Hfp1, Hfp2.
  destruct (get (el_id el) s) as [r|].
  - destruct (confirmed ev && truthy_string (filepath r)); simpl_state;
      (split; [done|]); (split; [done|]); (split; [done|]);
      (split; [done|]); (split; [done|]); exists objects.
    + rewrite Ht. by rewrite <- (assoc_L (++)).
    + by rewrite Ht.
  - simpl_state. do 5 (split; [done|]). exists objects. by rewrite Ht.
Qed.

Lemma click_then_delete_witness :
  let s' := handleKeyDown (mkKeyboardEvent "Backspace" false true)
              (handleClick (Some 0%nat) stateWithSong) in
  store s' = delete "song.txt_1700000000000" (store stateWithSong)
  ∧ selectedElementId s' = None
  ∧ closestPage (document s') 0 = None.
Proof.
  destruct (click_then_delete_removes_item
              (mkKeyboardEvent "Backspace" false true) stateWithSong 0
              (mkElement "song.txt_1700000000000" (Some 1%nat)
                 (Some "song.txt") (Some "chord") "absolute" "100px"
                 "280px" "" "" None "" 240))
    as (H1 & H2 & H3 & _).
  - apply updateAndSavePositions_closed, closed_updateItemPosition.
    apply closed_set_document, closed_initialState.
  - reflexivity.
  - discriminate.
  - vm_compute. reflexivity.
  - by right.
  - exact (conj H1 (conj H2 H3)).
Defined.

(** ** The reconciler *)













(** ** The default arrangement: columns and pages *)

Lemma number_to_string_Qeq (p q : Q) :
  (p == q)%Q → number_to_string p = number_to_string q.
Proof. intros H. unfold number_to_string. by rewrite (Qred_complete _ _ H). Qed.

Lemma advance_cursor_ok W H npages h c :
  20 < W → (0 < npages)%nat → cursor_ok W npages c →
  cursor_ok W npages (advance W H npages h c).1.
Proof.
  intros HW Hn [Hleft Hpage]. unfold advance.
  destruct (Qle_bool (currentTop c + inject_Z h) _); [done|].
  destruct (Qle_bool _ _) eqn:Hfit; cbn [fst].
  - split; [|done]. cbn [currentLeft].
    apply Qle_bool_iff in Hfit.
    rewrite Zlt_Qlt in HW. unfold padding, second_column in *.
    destruct Hleft as [Hl|Hl]; rewrite Hl in *.
    + right. field.
    + exfalso. change (inject_Z 20) with 20%Q in HW.
      unfold Qdiv in *. change (/ 2)%Q with (1 # 2)%Q in *. lra.
  - destruct (S (currentPageIndex c) <? npages)%nat eqn:Hnext; cbn [fst].
    + split; [by left|]. cbn. by apply Nat.ltb_lt.
    + split; [|cbn; lia]. right. cbn [currentLeft].
      unfold padding, second_column. field.
Qed.

(** One item of the arrangement keeps the cursor in a column of a page
    and writes only records in such a place. *)
Lemma arrangeItem_columns W H e c s npages :
  20 < W → (0 < npages)%nat →
  length (pageContainers (document s)) = npages →
  closed s → cursor_ok W npages c →
  let r := arrangeItem W H e (c, s) in
  cursor_ok W npages r.1
  ∧ ∀ k rec, get k r.2 = Some rec →
      get k s = Some rec ∨ default_placed W npages rec.
Proof.
  intros HW Hn Hlen Hc Hcur r. subst r. unfold arrangeItem.
  destruct (items (document s) !! e) as [element|] eqn:Hel; [|by eauto].
  destruct (String.eqb_spec (el_id element) "") as [Hid|Hid]; [by eauto|].
  destruct (itemPositions s !! el_id element) as [l0|] eqn:Hk.
  { destruct (getPageById (document s) _) as [targetPage|]; by eauto. }
  set (s1 := set_document (updateElement e (set_style_position "absolute") (document s)) s).
  assert (Hlen1 : length (pageContainers (document s1)) = npages) by done.
  rewrite Hlen1.
  pose proof (advance_cursor_ok W H npages
                (if offsetHeight element =? 0 then defaultItemHeight
                 else offsetHeight element) c HW Hn Hcur) as Hadv.
  destruct (advance W H npages _ c) as [c1 overflow]. cbn [fst] in Hadv.
  set (s2 := if overflow then log (WarnNotEnoughPages (el_id element)) s1 else s1).
  set (s3 := set_document (updateElement e _ (document s2)) s2).
  set (pd := set_pageIndex _ _).
  cbn [fst snd].
  assert (H3 : closed s3 ∧ store s3 = store s).
  { subst s3 s2 s1. by destruct overflow. }
  destruct H3 as [Hc3 Hst3]. clearbody s3. clear s2 s1 Hlen1.
  split.
  { destruct Hadv as [Hl Hp]. split; [exact Hl|exact Hp]. }
  intros k rec. rewrite !get_store, store_updateItemPosition, Hst3 by done.
  destruct (decide (k = el_id element)) as [->|Hne].
  - rewrite lookup_insert_eq. intros [= <-]. right.
    destruct (normalize_fields (spread (existing_or_default (el_id element) s3) pd))
      as (Hleft & _ & _ & _ & Hpi & _).
    destruct Hadv as [Hl Hp]. split.
    + rewrite Hleft. subst pd.
      cbn [spread left set_pageIndex set_top set_left spread_property].
      destruct Hl as [Hl|Hl]; rewrite (number_to_string_Qeq _ _ Hl);
        [by left|by right].
    + exists (currentPageIndex c1). split; [|done]. rewrite Hpi. by subst pd.
  - rewrite lookup_insert_ne by done. by left.
Qed.

Lemma arrange_loop_columns W H npages es : ∀ c s,
  20 < W → (0 < npages)%nat →
  length (pageContainers (document s)) = npages →
  closed s → cursor_ok W npages c →
  let r := foldl (λ acc e, arrangeItem W H e acc) (c, s) es in
  ∀ k rec, get k r.2 = Some rec →
    get k s = Some rec ∨ default_placed W npages rec.
Proof.
  induction es as [|e es IH]; intros c s HW Hn Hlen Hc Hcur r; subst r.
  { cbn. by eauto. }
  cbn [foldl].
  destruct (arrangeItem_columns W H e c s npages HW Hn Hlen Hc Hcur)
    as [Hcur1 Hrec1].
  destruct (arrangeItem_spec W H e c s Hc) as (Hc1 & Ha1 & _).
  destruct (arrangeItem W H e (c, s)) as [c1 s1]. cbn [fst snd] in *.
  assert (Hlen1 : length (pageContainers (document s1)) = npages).
  { destruct Ha1 as (_ & _ & _ & _ & _ & Hpc & _). by rewrite Hpc. }
  intros k rec Hk.
  destruct (IH c1 s1 HW Hn Hlen1 Hc1 Hcur1 k rec Hk) as [H1|H1]; [|by right].
  by apply Hrec1.
Qed.

(** X21. The default arrangement uses two columns and existing pages: on a
    first page wider than 20 pixels, every record that
    [initializeDefaultPositions] adds has its left edge in the first
    column (["20px"]) or in the second, and a page index below the number
    of page containers; when the pages are used up, items pile up in the
    second column of the last page. *)
Theorem default_arrangement_two_columns (s : State) (first : Page)
    (rest : list Page) :
  closed s →
  pageContainers (document s) = first :: rest →
  20 < page_offsetWidth first →
  let s' := initializeDefaultPositions s in
  ∀ k rec, get k s = None → get k s' = Some rec →
    default_placed (page_offsetWidth first) (S (length rest)) rec.
Proof.
  intros Hc Hp HW s' k rec Hnone Hk. subst s'.
  unfold initializeDefaultPositions in Hk. rewrite Hp in Hk.
  set (allItems := filter _ (seq 0 (length (items (document s))))) in Hk.
  pose proof (arrange_loop_columns (page_offsetWidth first)
                (page_offsetHeight first) (S (length rest)) allItems
                (mkCursor padding padding 0) s HW) as Hloop.
  destruct (arrange_loop_spec (page_offsetWidth first) (page_offsetHeight first)
              allItems (mkCursor padding padding 0) s Hc) as (Hc1 & _).
  destruct (foldl _ _ allItems) as [c1 s1]. cbn [snd] in *.
  destruct (initializeHistory_spec s1 Hc1) as (_ & _ & _ & _ & Hst & _).
  rewrite get_store, Hst, <- get_store in Hk.
  destruct (Hloop ltac:(lia)) with (k := k) (rec := rec) as [H1|H1];
    [by rewrite Hp|done| |done|congruence|done].
  split; [by left|]. cbn. lia.
Qed.

Lemma default_arrangement_witness :
  ∃ rec,
    get "x" (initializeDefaultPositions (initialState documentWithItem))
    = Some rec
    ∧ default_placed 794 2 rec.
Proof.
  exists (mkItemPosition (Value "20px") (Value "20px") Absent Absent (Value 0)
                         Absent Absent Absent Absent Absent Absent).
  split; [vm_compute; reflexivity|].
  apply (default_arrangement_two_columns (initialState documentWithItem)
           (mkPage 0 50 (-1143) 794 1123) [mkPage 1 50 20 794 1123])
    with (k := "x").
  - apply closed_initialState.
  - reflexivity.
  - reflexivity.
  - reflexivity.
  - vm_compute. reflexivity.
Defined.

(** ** Choosing a parser *)

Lemma findParser_None_iff (filename content : string) :
  findParser filename content = None
  ↔ is_known_extension (extension filename) = false
    ∧ extension filename ≠ ""
    ∧ looks_like_markup content = false.
Proof.
  unfold findParser, is_known_extension, looks_like_markup.
  set (ext := extension filename). set (t := trim content).
  destruct (String.eqb ext "html") eqn:E1; [by split; [|intros [? _]]|].
  destruct (String.eqb ext "htm") eqn:E2; [by split; [|intros [? _]]|].
  cbn [orb].
  destruct (is_image_extension ext) eqn:E3.
  { destruct (String.eqb ext "svg" && startsWith t "<svg");
      by split; [|intros [? _]]. }
  destruct (String.eqb ext "txt") eqn:E4.
  { destruct (String.eqb ext "svg" && startsWith t "<svg");
      by split; [|intros [? _]]. }
  cbn [orb].
  destruct (startsWith t "<svg") eqn:E5.
  { rewrite andb_true_r. cbn [orb].
    destruct (String.eqb ext "svg"); by split; [|intros (_ & _ & ?)]. }
  rewrite andb_false_r. cbn [orb].
  destruct (startsWith t "<" && endsWith t ">") eqn:E6;
    [by split; [|intros (_ & _ & ?)]|].
  destruct (String.eqb_spec ext "") as [E7|E7].
  - split; [done|]. by intros (_ & ? & _).
  - by split.
Qed.

(** X22. [findParser] finds no parser, and [parseContent] throws, exactly
    for a file whose extension is not empty, is none of [html], [htm],
    [txt] and the six image extensions, and whose content does not look
    like markup.  In particular a name that ends with a period always gets
    a parser, and so does every [.txt] file. *)
Theorem findParser_rejects
    (run : Parser → string → string → option (option Z * option Z * Z))
    (filename content : string) :
  (findParser filename content = None
   ↔ is_known_extension (extension filename) = false
     ∧ extension filename ≠ ""
     ∧ looks_like_markup content = false)
  ∧ (findParser filename content = None →
     parseContent run filename content = None).
Proof.
  split; [apply findParser_None_iff|].
  intros H. unfold parseContent. by rewrite H.
Qed.

Lemma existsb_image_extension ext :
  existsb (String.eqb ext) ["png"; "jpg"; "jpeg"; "gif"; "webp"; "bmp"]
  = is_image_extension ext.
Proof.
  unfold is_image_extension. cbn [existsb]. rewrite orb_false_r.
  destruct (String.eqb ext "png"), (String.eqb ext "jpg"),
    (String.eqb ext "jpeg"), (String.eqb ext "gif"), (String.eqb ext "webp"),
    (String.eqb ext "bmp"); reflexivity.
Qed.

Lemma image_extension_not_others ext :
  is_image_extension ext = true →
  String.eqb ext "html" = false ∧ String.eqb ext "htm" = false
  ∧ String.eqb ext "svg" = false.
Proof.
  unfold is_image_extension. intros H.
  repeat (apply orb_true_iff in H as [H|H]);
    apply String.eqb_eq in H; by subst ext.
Qed.

(** X23. The file-drop handler and the parser table agree on what an image
    is: [findParser] gives the image parser exactly for the files that
    [addNewItemToPage] treats as images (whose path, not content, it hands
    to the parser), whatever the content. *)
Theorem findParser_image_iff_isImage (filename content : string) :
  findParser filename content = Some imageParser ↔ isImage filename = true.
Proof.
  unfold isImage. rewrite existsb_image_extension.
  unfold findParser. set (ext := extension filename). set (t := trim content).
  split.
  - destruct (String.eqb ext "html" || String.eqb ext "htm"); [done|].
    destruct (String.eqb ext "svg" && startsWith t "<svg"); [done|].
    destruct (is_image_extension ext); [done|].
    destruct (String.eqb ext "txt"); [done|].
    destruct (startsWith t "<svg"); [done|].
    destruct (startsWith t "<" && endsWith t ">"); [done|].
    cbn [orb]. by destruct (String.eqb ext "").
  - intros H. destruct (image_extension_not_others ext H) as (-> & -> & ->).
    cbn [orb andb]. by rewrite H.
Qed.

Lemma string_app_nil_r (s : string) : s +:+ "" = s.
Proof.
  induction s as [|a s IH]; [done|].
  change (String a (s +:+ "") = String a s). by rewrite IH.
Qed.

Lemma string_app_assoc (a b c : string) : (a +:+ b) +:+ c = a +:+ (b +:+ c).
Proof.
  induction a as [|x a IH]; [done|].
  change (String x ((a +:+ b) +:+ c) = String x (a +:+ (b +:+ c))).
  by rewrite IH.
Qed.

Lemma string_app_cons (x : ascii) (s : string) : String x "" +:+ s = String x s.
Proof. done. Qed.

Lemma last_piece_no_separator seps s : ∀ acc,
  all_chars (λ c, negb (seps c)) s = true →
  last_piece seps acc s = acc +:+ s.
Proof.
  unfold all_chars. induction s as [|c s IH]; intros acc H.
  { cbn. by rewrite string_app_nil_r. }
  cbn in H. apply andb_true_iff in H as [Hc Hs]. cbn [last_piece].
  destruct (seps c); [done|]. rewrite IH by done.
  by rewrite string_app_assoc.
Qed.

(** X24. A file name without a period is its own extension: [findParser]
    looks the whole lower-cased name up, so a text file called [README]
    or [notes] counts as having an unknown extension and is rejected
    unless its content looks like markup (the chord parser is the default
    only for names that end with a period and for the empty name). *)
Theorem findParser_dotless_name (filename content : string) :
  all_chars (λ c, negb (is_dot c)) filename = true →
  extension filename = toLowerCase filename
  ∧ (filename ≠ "" → is_known_extension (toLowerCase filename) = false →
     looks_like_markup content = false →
     findParser filename content = None).
Proof.
  intros Hnd.
  assert (extension filename = toLowerCase filename) as Hext.
  { unfold extension. by rewrite last_piece_no_separator. }
  split; [done|]. intros Hne Hk Hm. apply findParser_None_iff.
  rewrite Hext. split; [done|]. split; [|done].
  destruct filename; [done|]. unfold toLowerCase. by cbn.
Qed.

Lemma findParser_dotless_witness :
  extension "README" = "readme" ∧ findParser "README" "C  G  Am" = None.
Proof.
  destruct (findParser_dotless_name "README" "C  G  Am" eq_refl) as [H1 H2].
  split; [exact H1|]. apply H2; [discriminate|reflexivity..].
Defined.

(** ** Chord sheets *)

Lemma pairLines_lines_go (n : nat) : ∀ lines,
  (length lines ≤ n)%nat →
  flat_map (λ p, [chords p; lyrics p]) (pairLines lines)
  = if Nat.even (length lines) then lines
    else if String.eqb (trim (List.last lines "")) "" then removelast lines
         else lines ++ [""].
Proof.
  induction n as [n IH] using (well_founded_induction lt_wf).
  intros [|a [|b rest]] Hlen.
  - done.
  - cbn [pairLines length Nat.even List.last removelast].
    by destruct (String.eqb (trim a) "").
  - cbn [pairLines flat_map chords lyrics length Nat.even].
    rewrite (IH (length rest)); [|cbn in Hlen; lia|done].
    destruct (Nat.even (length rest)) eqn:He; [done|].
    destruct rest as [|c rest']; [done|].
    change (List.last (a :: b :: c :: rest') "") with (List.last (c :: rest') "").
    change (removelast (a :: b :: c :: rest'))
      with (a :: b :: removelast (c :: rest')).
    by destruct (String.eqb (trim (List.last (c :: rest') "")) "").
Qed.

(** X25. [parseSongText] pairs the lines of a sheet without losing any:
    read back as chord line, lyric line, chord line, ..., the parts are
    the lines of the content when their number is even; a last line
    without a partner is a chord line with empty lyrics, and is dropped
    only when it is blank (as the empty line after a final line feed
    is). *)
Theorem parseSongText_keeps_lines (content filename : string) :
  let lines := split_on is_newline "" content in
  let item := parseSongText content filename in
  song_filename item = filename
  ∧ flat_map (λ p, [chords p; lyrics p]) (parts item)
    = if Nat.even (length lines) then lines
      else if String.eqb (trim (List.last lines "")) "" then removelast lines
           else lines ++ [""].
Proof.
  cbv zeta. split; [done|]. cbn [parts parseSongText].
  by apply (pairLines_lines_go (length (split_on is_newline "" content))).
Qed.

Lemma string_length_app (a b : string) :
  String.length (a +:+ b) = (String.length a + String.length b)%nat.
Proof.
  induction a as [|x a IH]; [done|].
  change (S (String.length (a +:+ b)) = S (String.length a + String.length b)).
  by rewrite IH.
Qed.

Lemma substring_prefix (acc rest : string) :
  substring 0 (String.length acc) (acc +:+ rest) = acc.
Proof.
  induction acc as [|x acc IH]; [by destruct rest|].
  change (String x (substring 0 (String.length acc) (acc +:+ rest))
          = String x acc).
  by rewrite IH.
Qed.

Lemma substring_app_mid (pre acc rest : string) :
  substring (String.length pre) (String.length acc) (pre +:+ acc +:+ rest)
  = acc.
Proof.
  induction pre as [|x pre IH]; [exact (substring_prefix acc rest)|].
  change (substring (String.length pre) (String.length acc)
            (pre +:+ acc +:+ rest) = acc). apply IH.
Qed.

Lemma chordMap_set_fresh k v (m : ChordMap) :
  Forall (λ e, (e.1 < k)%nat) m → chordMap_set k v m = m ++ [(k, v)].
Proof.
  intros H. unfold chordMap_set.
  assert (existsb (λ e : nat * string, (e.1 =? k)%nat) m = false) as ->; [|done].
  induction H as [|e m He _ IH]; [done|]. cbn.
  rewrite IH, orb_false_r. apply Nat.eqb_neq. lia.
Qed.

(** The scan of a chord line, from the middle of it: [pre] is what was
    read before the chord being read, [acc]. *)
Lemma scanChords_spec (s : string) : ∀ (pre acc : string) (m : ChordMap),
  Forall (λ e, (e.1 + String.length e.2 + 1 ≤ String.length pre)%nat) m →
  all_chars (λ c, negb (is_blank c)) acc = true →
  ∃ new,
    scanChords (String.length pre + String.length acc) acc m s = m ++ new
    ∧ new.*2 = filter (λ w, w ≠ "") (split_on is_blank acc s)
    ∧ Forall (λ e, substring e.1 (String.length e.2) (pre +:+ acc +:+ s) = e.2
                   ∧ (String.length pre ≤ e.1)%nat
                   ∧ all_chars (λ c, negb (is_blank c)) e.2 = true) new.
Proof.
  induction s as [|c s IH]; intros pre acc m Hm Hacc.
  - cbn [scanChords split_on].
    destruct (String.eqb_spec acc "") as [->|Hne].
    + exists []. rewrite (right_id_L [] (++)). by split.
    + exists [(String.length pre, acc)].
      replace (String.length pre + String.length acc - String.length acc)%nat
        with (String.length pre) by lia.
      split.
      { apply chordMap_set_fresh. eapply Forall_impl; [exact Hm|].
        intros e He. cbn in He. lia. }
      split.
      { by rewrite filter_cons_True by done. }
      constructor; [|done]. cbn [fst snd]. split; [|done].
      apply substring_app_mid.
  - cbn [scanChords split_on].
    destruct (is_blank c) eqn:Hc; cbn [negb].
    + assert (c = " "%char) as -> by (by apply Ascii.eqb_eq).
      destruct (String.eqb_spec acc "") as [->|Hne].
      * destruct (IH (pre +:+ " ") "" m) as (new & H1 & H2 & H3).
        { eapply Forall_impl; [exact Hm|]. intros e He. cbn in He.
          rewrite string_length_app. cbn. lia. }
        { done. }
        exists new. rewrite string_length_app in H1. cbn in H1.
        rewrite !Nat.add_0_r in *. rewrite Nat.add_1_r in H1.
        split; [exact H1|]. split.
        { rewrite H2. by rewrite filter_cons_False by (by intros []). }
        eapply Forall_impl; [exact H3|]. intros e (He1 & He2 & He3).
        rewrite string_length_app in He2. cbn in He2.
        split; [|split; [lia|done]].
        rewrite <- He1 at 2. f_equal.
        by rewrite string_app_assoc.
      * replace (String.length pre + String.length acc - String.length acc)%nat
          with (String.length pre) by lia.
        rewrite chordMap_set_fresh.
        2: { eapply Forall_impl; [exact Hm|]. intros e He. cbn in He. lia. }
        destruct (IH ((pre +:+ acc) +:+ " ") "" (m ++ [(String.length pre, acc)]))
          as (new & H1 & H2 & H3).
        { rewrite !string_length_app. cbn. apply Forall_app. split.
          - eapply Forall_impl; [exact Hm|]. intros e He. cbn in He. lia.
          - constructor; [|done]. cbn. lia. }
        { done. }
        exists ((String.length pre, acc) :: new).
        rewrite !string_length_app in H1. cbn in H1.
        rewrite Nat.add_0_r, Nat.add_1_r in H1.
        split.
        { rewrite H1. by rewrite <- (assoc_L (++)). }
        split.
        { rewrite filter_cons_True by done. by rewrite <- H2. }
        constructor.
        { cbn [fst snd]. split; [|done]. apply substring_app_mid. }
        eapply Forall_impl; [exact H3|]. intros e (He1 & He2 & He3).
        rewrite !string_length_app in He2. cbn in He2.
        split; [|split; [lia|done]].
        rewrite <- He1 at 2. f_equal.
        by rewrite !string_app_assoc.
    + destruct (IH pre (acc +:+ String c "") m Hm) as (new & H1 & H2 & H3).
      { rewrite all_chars_app, Hacc. cbn. by rewrite Hc. }
      exists new. rewrite string_length_app in H1. cbn in H1.
      rewrite Nat.add_1_r, Nat.add_succ_r in H1.
      split; [exact H1|]. split; [exact H2|].
      eapply Forall_impl; [exact H3|]. intros e (He1 & He2 & He3).
      split; [|done]. rewrite <- He1 at 2. f_equal.
      by rewrite string_app_assoc.
Qed.

(** X26. The chords of a chord line are its words: [chordMapOf] holds, in
    the order of the line, the pieces between the spaces that are not
    empty, each under the column where it starts, so that cutting the
    line at the key gives back the chord; no chord holds a space. *)
Theorem chordMapOf_words (chordLine : string) :
  (chordMapOf chordLine).*2
  = filter (λ w, w ≠ "") (split_on is_blank "" chordLine)
  ∧ Forall (λ e, substring e.1 (String.length e.2) chordLine = e.2
                 ∧ all_chars (λ c, negb (is_blank c)) e.2 = true)
           (chordMapOf chordLine).
Proof.
  destruct (scanChords_spec chordLine "" "" []) as (new & H1 & H2 & H3);
    [done..|].
  unfold chordMapOf. cbn in H1. rewrite H1. split; [exact H2|].
  eapply Forall_impl; [exact H3|]. by intros e (He1 & _ & He3).
Qed.

(** ** The title of parsed markup *)

Lemma last_piece_after_separator seps (a : string) (c : ascii) (b : string) :
  seps c = true → ∀ acc,
  last_piece seps acc (a +:+ String c b) = last_piece seps "" b.
Proof.
  intros Hc. induction a as [|x a IH]; intros acc.
  - change (last_piece seps acc (String c b) = last_piece seps "" b).
    cbn [last_piece]. by rewrite Hc.
  - change (last_piece seps acc (String x (a +:+ String c b))
            = last_piece seps "" b).
    cbn [last_piece]. destruct (seps x); apply IH.
Qed.

Lemma split_on_no_separator sep (s : string) : ∀ acc,
  all_chars (λ c, negb (sep c)) s = true → split_on sep acc s = [acc +:+ s].
Proof.
  unfold all_chars. induction s as [|c s IH]; intros acc H.
  { cbn. by rewrite string_app_nil_r. }
  cbn in H. apply andb_true_iff in H as [Hc Hs]. cbn [split_on].
  destruct (sep c); [done|]. rewrite IH by done.
  by rewrite string_app_assoc.
Qed.

Lemma split_on_separator sep (a : string) (c : ascii) (b : string) :
  sep c = true → ∀ acc,
  split_on sep acc (a +:+ String c b) = split_on sep acc a ++ split_on sep "" b.
Proof.
  intros Hc. induction a as [|x a IH]; intros acc.
  - change (split_on sep acc (String c b) = [acc] ++ split_on sep "" b).
    cbn [split_on]. by rewrite Hc.
  - change (split_on sep acc (String x (a +:+ String c b))
            = split_on sep acc (String x a) ++ split_on sep "" b).
    cbn [split_on]. destruct (sep x); [|apply IH].
    by rewrite IH.
Qed.

Lemma split_on_not_nil sep (s : string) : ∀ acc, split_on sep acc s ≠ [].
Proof.
  induction s as [|c s IH]; intros acc; [done|].
  cbn [split_on]. destruct (sep c); [done|apply IH].
Qed.

(** Joining the pieces of a split with the separator gives the string
    back. *)
Lemma concat_split_on_dot (s : string) : ∀ acc,
  String.concat "." (split_on is_dot acc s) = acc +:+ s.
Proof.
  induction s as [|c s IH]; intros acc.
  { cbn. by rewrite string_app_nil_r. }
  cbn [split_on]. destruct (is_dot c) eqn:Hc.
  - apply Ascii.eqb_eq in Hc as ->.
    pose proof (split_on_not_nil is_dot s "") as Hne.
    pose proof (IH "") as IH'.
    destruct (split_on is_dot "" s) as [|y l]; [done|].
    change (acc +:+ "." +:+ String.concat "." (y :: l) = acc +:+ String "." s).
    by rewrite IH'.
  - rewrite IH. by rewrite string_app_assoc.
Qed.

(** X27. The title given to parsed markup: for a path [dir/stem.ext], where
    [ext] holds no period, the title is [stem] (which may hold periods),
    unless [stem] is empty; then, and for a file name without any period,
    the title is the whole path, directory included. *)
Theorem htmlTitle_of_path (dir stem ext : string) :
  all_chars (λ c, negb (is_slash c)) stem = true →
  all_chars (λ c, negb (is_slash c)) ext = true →
  all_chars (λ c, negb (is_dot c)) ext = true →
  htmlTitle (dir +:+ "/" +:+ stem +:+ "." +:+ ext)
  = (if String.eqb stem "" then dir +:+ "/" +:+ stem +:+ "." +:+ ext
     else stem)
  ∧ htmlTitle (dir +:+ "/" +:+ ext) = dir +:+ "/" +:+ ext.
Proof.
  intros Hstem Hext Hdot. unfold htmlTitle. split.
  - change (dir +:+ "/" +:+ stem +:+ "." +:+ ext)
      with (dir +:+ String "/" (stem +:+ "." +:+ ext)).
    rewrite last_piece_after_separator by done.
    rewrite last_piece_no_separator.
    2: { rewrite all_chars_app, Hstem.
         change ("." +:+ ext) with (String "." ext).
         unfold all_chars in *. cbn. exact Hext. }
    change ("" +:+ stem +:+ "." +:+ ext) with (stem +:+ String "." ext).
    rewrite split_on_separator by done.
    rewrite (split_on_no_separator is_dot ext) by done.
    change ("" +:+ ext) with ext.
    rewrite removelast_last, concat_split_on_dot.
    done.
  - change (dir +:+ "/" +:+ ext) with (dir +:+ String "/" ext).
    rewrite last_piece_after_separator by done.
    rewrite last_piece_no_separator by done.
    change ("" +:+ ext) with ext.
    by rewrite split_on_no_separator by done.
Qed.

Lemma htmlTitle_of_path_witness :
  htmlTitle "songs/my.song.html" = "my.song"
  ∧ htmlTitle "songs/html" = "songs/html".
Proof. exact (htmlTitle_of_path "songs" "my.song" "html" eq_refl eq_refl eq_refl). Defined.
